(** * Switch simulator: packet buffers, processor pipeline and ARP cache

    A shallow embedding of [packet.c] (packet buffers and the pipeline of
    registered processors; the text is in
    [src/switch-simulator/include/hal/ethernet.h], its header in
    [src/unnamed/part_000]) and of [arp.c] (the ARP cache;
    [src/unnamed/part_002], its header in
    [src/switch-simulator/include/l2/vlan.h]), followed by the properties
    that the design document states about them and by further properties of
    the same functions, of those they call and of their callers.

    Conventions of the embedding:
    - C unsigned integers are [Z] values; the wrap-around of 32-bit
      arithmetic is written out with [u32], [add32] and [sub32];
    - a pointer that may be [NULL] is an [option];
    - a heap block is a [list byte] whose length is the size of the
      allocation; an access that leaves the block is undefined behaviour in C
      and is the outcome [Undefined] here;
    - file-scope variables ([g_initialized], [g_processors], ...) are the
      fields of an explicit state record that every function threads;
    - the lock around the processor array is not modelled: every function is
      embedded as it runs on one thread. *)

From Stdlib Require Import ZArith Lia Bool.
From Stdlib Require Strings.Byte.
From stdpp Require Import base tactics option list sorting sets.

Local Open Scope Z_scope.

(** ** Machine arithmetic *)

Definition u32 (x : Z) : Z := x mod 2 ^ 32.
Definition add32 (a b : Z) : Z := u32 (a + b).
Definition sub32 (a b : Z) : Z := u32 (a - b).

(** [(int)x] for a 32-bit unsigned [x], and the two's-complement wrap-around
    of an [int] result. *)
Definition to_int32 (x : Z) : Z :=
  let y := u32 x in if y <? 2 ^ 31 then y else y - 2 ^ 32.

Definition in_u32 (x : Z) : Prop := 0 <= x < 2 ^ 32.

(** ** Status codes ([common/types.h], [common/error_codes.h], [l3/arp.h]) *)

Inductive status_t : Type :=
  | STATUS_SUCCESS
  | STATUS_NOT_INITIALIZED
  | STATUS_ALREADY_INITIALIZED
  | STATUS_NOT_FOUND
  | STATUS_INVALID_PARAMETER
  | STATUS_MEMORY_ALLOCATION_FAILED
  | STATUS_RESOURCE_EXHAUSTED
  | STATUS_RESOURCE_UNAVAILABLE
  | STATUS_NO_MEMORY
  | STATUS_OUT_OF_BOUNDS
  | STATUS_INSUFFICIENT_RESOURCES
  | STATUS_INVALID_PORT
  | STATUS_INVALID_PACKET
  | STATUS_FAILURE
  | STATUS_UNKNOWN_ERROR
  | ERROR_PACKET_OPERATION_FAILED
  | ERROR_PACKET_ALLOCATION_FAILED
  | ARP_STATUS_PENDING.

(** [ERROR_INVALID_PARAMETER] is an alias of [STATUS_INVALID_PARAMETER]. *)
Definition ERROR_INVALID_PARAMETER : status_t := STATUS_INVALID_PARAMETER.

Definition status_code (s : status_t) : Z :=
  match s with
  | STATUS_SUCCESS => 0
  | STATUS_NOT_INITIALIZED => -2
  | STATUS_ALREADY_INITIALIZED => -3
  | STATUS_NOT_FOUND => -4
  | STATUS_INVALID_PARAMETER => -5
  | STATUS_MEMORY_ALLOCATION_FAILED => -6
  | STATUS_RESOURCE_EXHAUSTED => -11
  | STATUS_RESOURCE_UNAVAILABLE => -12
  | STATUS_NO_MEMORY => -14
  | STATUS_OUT_OF_BOUNDS => -16
  | STATUS_INSUFFICIENT_RESOURCES => -21
  | STATUS_INVALID_PORT => -80
  | STATUS_INVALID_PACKET => -2200
  | STATUS_FAILURE => -99
  | STATUS_UNKNOWN_ERROR => -15
  | ERROR_PACKET_OPERATION_FAILED => -214
  | ERROR_PACKET_ALLOCATION_FAILED => -225
  | ARP_STATUS_PENDING => 65537
  end.

Global Instance status_eq_dec : EqDecision status_t.
Proof. solve_decision. Defined.

Definition status_eqb (a b : status_t) : bool := bool_decide (a = b).

(** ** Outcomes of C code that may leave its memory blocks *)

Inductive outcome (A : Type) : Type :=
  | Ret (a : A)
  | Undefined.
Arguments Ret {A} a.
Arguments Undefined {A}.

(** ** Heap blocks *)

Abbreviation byte := Corelib.Init.Byte.byte.
Definition zero_byte : byte := Corelib.Init.Byte.x00.

(** The allocator of the C library, as the program sees it: whether a request
    is granted, and the indeterminate bytes found in fresh memory. *)
Record heap_t : Type := {
  heap_grant_header : bool;
  heap_grant : Z -> bool;
  heap_junk : nat -> byte
}.

Definition malloc (h : heap_t) (n : Z) : option (list byte) :=
  if heap_grant h n
  then Some (map (heap_junk h) (seq 0 (Z.to_nat n)))
  else None.

Definition realloc (h : heap_t) (old : list byte) (n : Z) : option (list byte) :=
  if heap_grant h n
  then Some (take (Z.to_nat n) old
             ++ map (heap_junk h) (seq (length old) (Z.to_nat n - length old)))
  else None.

(** [mem_read blk off n]: the [n] bytes at [blk + off]; [None] when the range
    leaves the block. *)
Definition mem_read (blk : list byte) (off n : Z) : option (list byte) :=
  if (0 <=? off) && (0 <=? n) && (off + n <=? Z.of_nat (length blk))
  then Some (take (Z.to_nat n) (drop (Z.to_nat off) blk))
  else None.

(** [mem_write blk off src]: [blk] after [memcpy(blk + off, src, |src|)];
    [None] when the range leaves the block. *)
Definition mem_write (blk : list byte) (off : Z) (src : list byte)
  : option (list byte) :=
  if (0 <=? off) && (off + Z.of_nat (length src) <=? Z.of_nat (length blk))
  then Some (take (Z.to_nat off) blk ++ src
             ++ drop (Z.to_nat off + length src)%nat blk)
  else None.

(** [memmove(blk + dst, blk + src, n)] inside one block. *)
Definition mem_move (blk : list byte) (dst src n : Z) : option (list byte) :=
  match mem_read blk src n with
  | Some bytes => mem_write blk dst bytes
  | None => None
  end.

(** ** The C library's [qsort]

    The standard promises an ascending permutation of the array when the
    comparison function is consistent on its elements, and leaves the order of
    elements that compare equal unspecified. The embedding takes any function
    with that contract. *)

Definition cmp_consistent {A : Type} (cmp : A -> A -> Z) (l : list A) : Prop :=
  (forall a b, a ∈ l -> b ∈ l -> Z.sgn (cmp a b) = - Z.sgn (cmp b a))
  /\ (forall a b c, a ∈ l -> b ∈ l -> c ∈ l ->
        cmp a b <= 0 -> cmp b c <= 0 -> cmp a c <= 0).

Definition cmp_le {A : Type} (cmp : A -> A -> Z) (a b : A) : Prop :=
  cmp a b <= 0.

Class Qsort : Type := {
  qsort : forall A : Type, (A -> A -> Z) -> list A -> list A
}.

Definition qsort_conforms (Q : Qsort) : Prop :=
  forall A (cmp : A -> A -> Z) l, cmp_consistent cmp l ->
    qsort A cmp l ≡ₚ l /\ StronglySorted (cmp_le cmp) (qsort A cmp l).

(** One conforming implementation, used to run the model: insertion sort. *)
Fixpoint insert_sorted {A : Type} (cmp : A -> A -> Z) (x : A) (l : list A)
  : list A :=
  match l with
  | [] => [x]
  | y :: l' => if cmp x y <=? 0 then x :: l else y :: insert_sorted cmp x l'
  end.

Definition insertion_sort (A : Type) (cmp : A -> A -> Z) (l : list A) : list A :=
  foldr (insert_sorted cmp) [] l.

Global Instance reference_qsort : Qsort := {| qsort := insertion_sort |}.

(** An allocator that grants every request and hands out blocks filled with
    [0xaa]. *)
Definition heap_ok : heap_t :=
  {| heap_grant_header := true; heap_grant := fun _ => true;
     heap_junk := fun _ => Byte.xaa |}.

Module Packet.

(** *** Types of [hal/packet.h] *)

Definition MAX_PACKET_SIZE : Z := 9216.
Definition MAX_PACKET_PROCESSORS : Z := 64.
Definition PORT_ID_INVALID : Z := 65533.

Inductive packet_direction_t : Type :=
  | PACKET_DIR_RX
  | PACKET_DIR_TX
  | PACKET_DIR_INTERNAL
  | PACKET_DIR_INVALID.

Record packet_metadata_t : Type := {
  port : Z;
  direction : packet_direction_t;
  vlan : Z;
  priority : Z;
  src_mac : Z;
  dst_mac : Z;
  ethertype : Z;
  is_tagged : bool;
  is_dropped : bool;
  timestamp : Z
}.

(** [length] and [size] are the two names of one union member; the embedding
    keeps the single field [size]. [user_data] is an opaque address. *)
Record packet_buffer_t : Type := {
  data : option (list byte);
  size : Z;
  capacity : Z;
  metadata : packet_metadata_t;
  user_data : option Z
}.

(** The four enumerators, and [PACKET_RESULT_OTHER] for any value of the
    enumerated type that is none of them: a callback may return one, and the
    [switch] statements of [packet_inject] and [packet_receive] have a
    [default] branch for it. *)
Inductive packet_result_t : Type :=
  | PACKET_RESULT_FORWARD
  | PACKET_RESULT_DROP
  | PACKET_RESULT_CONSUME
  | PACKET_RESULT_RECIRCULATE
  | PACKET_RESULT_OTHER.

(** A processor callback reads and may rewrite the packet it is handed; its
    second argument is the [user_data] given at registration. What a callback
    does to the registry while it runs is a [callback_effect], for the
    pipeline [packet_process_reentrant] below; a callback that calls
    [packet_process] itself is outside the embedding. *)
Definition packet_process_cb_t : Type :=
  packet_buffer_t -> option Z -> packet_result_t * packet_buffer_t.

Record packet_processor_t : Type := {
  callback : option packet_process_cb_t;
  proc_priority : Z;
  proc_user_data : option Z;
  active : bool
}.

(** The file-scope state of [packet.c]; [recursion_depth] is the thread-local
    counter declared inside [packet_process]. *)
Record packet_state : Type := {
  g_initialized : bool;
  g_processors : list packet_processor_t;
  g_processor_count : Z;
  recursion_depth : Z
}.

(** A zeroed [packet_processor_t], as [memset] leaves it. *)
Definition zero_processor : packet_processor_t :=
  {| callback := None; proc_priority := 0; proc_user_data := None;
     active := false |}.

Definition zero_metadata : packet_metadata_t :=
  {| port := 0; direction := PACKET_DIR_RX; vlan := 0; priority := 0;
     src_mac := 0; dst_mac := 0; ethertype := 0; is_tagged := false;
     is_dropped := false; timestamp := 0 |}.

(** The five fields that [packet_buffer_alloc] and [packet_reset] assign. *)
Definition set_default_metadata (m : packet_metadata_t) : packet_metadata_t :=
  {| port := PORT_ID_INVALID; direction := PACKET_DIR_INVALID; vlan := 0;
     priority := 0; src_mac := src_mac m; dst_mac := dst_mac m;
     ethertype := ethertype m; is_tagged := is_tagged m;
     is_dropped := is_dropped m; timestamp := 0 |}.

Definition set_size (p : packet_buffer_t) (n : Z) : packet_buffer_t :=
  {| data := data p; size := n; capacity := capacity p;
     metadata := metadata p; user_data := user_data p |}.

Definition set_data (p : packet_buffer_t) (d : list byte) : packet_buffer_t :=
  {| data := Some d; size := size p; capacity := capacity p;
     metadata := metadata p; user_data := user_data p |}.

(** *** Validation and life cycle *)

Definition packet_buffer_is_valid (packet : option packet_buffer_t) : bool :=
  match packet with
  | None => false
  | Some p =>
      match data p with
      | None => false
      | Some _ => negb (capacity p <? size p)
      end
  end.

Definition packet_init (st : packet_state) : status_t * packet_state :=
  if g_initialized st then (STATUS_ALREADY_INITIALIZED, st)
  else (STATUS_SUCCESS,
        {| g_initialized := true;
           g_processors := replicate (Z.to_nat MAX_PACKET_PROCESSORS) zero_processor;
           g_processor_count := 0;
           recursion_depth := recursion_depth st |}).

Definition packet_shutdown (st : packet_state) : status_t * packet_state :=
  if negb (g_initialized st) then (STATUS_NOT_INITIALIZED, st)
  else (STATUS_SUCCESS,
        {| g_initialized := false;
           g_processors := replicate (Z.to_nat MAX_PACKET_PROCESSORS) zero_processor;
           g_processor_count := 0;
           recursion_depth := recursion_depth st |}).

(** The state of a freshly loaded program: zeroed statics. *)
Definition boot_state : packet_state :=
  {| g_initialized := false;
     g_processors := replicate (Z.to_nat MAX_PACKET_PROCESSORS) zero_processor;
     g_processor_count := 0;
     recursion_depth := 0 |}.

Definition init_state : packet_state := snd (packet_init boot_state).

(** *** Buffer operations *)

Definition packet_buffer_alloc (h : heap_t) (st : packet_state) (len : Z)
  : option packet_buffer_t :=
  if negb (g_initialized st) then None
  else if len =? 0 then None
  else if negb (heap_grant_header h) then None
  else match malloc h len with
       | None => None
       | Some d =>
           Some {| data := Some d; size := 0; capacity := len;
                   metadata := set_default_metadata zero_metadata;
                   user_data := None |}
       end.

Definition packet_create (h : heap_t) (st : packet_state)
  : status_t * option packet_buffer_t :=
  match packet_buffer_alloc h st MAX_PACKET_SIZE with
  | None => (ERROR_PACKET_ALLOCATION_FAILED, None)
  | Some pkt => (STATUS_SUCCESS, Some pkt)
  end.

Definition packet_reset (st : packet_state) (packet : option packet_buffer_t)
  : outcome (option packet_buffer_t) :=
  if negb (g_initialized st) then Ret packet
  else match packet with
       | None => Ret None
       | Some p =>
           match data p with
           | None => Ret packet
           | Some d =>
               match mem_write d 0 (replicate (Z.to_nat (capacity p)) zero_byte) with
               | None => Undefined
               | Some d' =>
                   Ret (Some {| data := Some d'; size := 0;
                                capacity := capacity p;
                                metadata := set_default_metadata (metadata p);
                                user_data := None |})
               end
           end
       end.

Definition packet_append_data (st : packet_state)
    (packet : option packet_buffer_t) (src : option (list byte)) (len : Z)
  : outcome (status_t * option packet_buffer_t) :=
  if negb (g_initialized st) then Ret (ERROR_PACKET_OPERATION_FAILED, packet)
  else match packet, src with
       | Some p, Some s =>
           match data p with
           | None => Ret (ERROR_INVALID_PARAMETER, packet)
           | Some d =>
               if len =? 0 then Ret (STATUS_SUCCESS, packet)
               else if capacity p <? add32 (size p) len
               then Ret (ERROR_PACKET_OPERATION_FAILED, packet)
               else match mem_read s 0 len with
                    | None => Undefined
                    | Some bytes =>
                        match mem_write d (size p) bytes with
                        | None => Undefined
                        | Some d' =>
                            Ret (STATUS_SUCCESS,
                                 Some (set_size (set_data p d') (add32 (size p) len)))
                        end
                    end
           end
       | _, _ => Ret (ERROR_INVALID_PARAMETER, packet)
       end.

(** Reads. [dest] and [byte_out] say whether the caller's destination pointer
    is non-null; the destination is the caller's own storage and is taken to
    have room for what is copied. The second component of a result is what
    the destination holds afterwards, when it was written. *)
Definition packet_peek_byte (st : packet_state)
    (packet : option packet_buffer_t) (offset : Z) (byte_out : bool)
  : outcome (status_t * option byte) :=
  if negb (g_initialized st) then Ret (ERROR_PACKET_OPERATION_FAILED, None)
  else match packet with
       | None => Ret (ERROR_INVALID_PARAMETER, None)
       | Some p =>
           match data p with
           | None => Ret (ERROR_INVALID_PARAMETER, None)
           | Some d =>
               if negb byte_out then Ret (ERROR_INVALID_PARAMETER, None)
               else if size p <=? offset
               then Ret (ERROR_PACKET_OPERATION_FAILED, None)
               else match mem_read d offset 1 with
                    | Some [b] => Ret (STATUS_SUCCESS, Some b)
                    | _ => Undefined
                    end
           end
       end.

Definition packet_peek_data (st : packet_state)
    (packet : option packet_buffer_t) (offset : Z) (dest : bool) (len : Z)
  : outcome (status_t * option (list byte)) :=
  if negb (g_initialized st) then Ret (ERROR_PACKET_OPERATION_FAILED, None)
  else match packet with
       | None => Ret (ERROR_INVALID_PARAMETER, None)
       | Some p =>
           match data p with
           | None => Ret (ERROR_INVALID_PARAMETER, None)
           | Some d =>
               if negb dest then Ret (ERROR_INVALID_PARAMETER, None)
               else if size p <? add32 offset len
               then Ret (ERROR_PACKET_OPERATION_FAILED, None)
               else match mem_read d offset len with
                    | Some bytes => Ret (STATUS_SUCCESS, Some bytes)
                    | None => Undefined
                    end
           end
       end.

Definition packet_copy_data (st : packet_state)
    (packet : option packet_buffer_t) (offset : Z) (dest : bool) (len : Z)
  : outcome (status_t * option (list byte)) :=
  if len =? 0 then Ret (STATUS_SUCCESS, None)
  else packet_peek_data st packet offset dest len.

Definition packet_buffer_clone (h : heap_t) (st : packet_state)
    (packet : option packet_buffer_t) : outcome (option packet_buffer_t) :=
  if negb (g_initialized st) then Ret None
  else if negb (packet_buffer_is_valid packet) then Ret None
  else match packet with
       | None => Ret None
       | Some p =>
           match data p, packet_buffer_alloc h st (capacity p) with
           | Some d, Some clone =>
               match data clone, mem_read d 0 (size p) with
               | Some cd, Some bytes =>
                   match mem_write cd 0 bytes with
                   | Some cd' =>
                       Ret (Some {| data := Some cd'; size := size p;
                                    capacity := capacity clone;
                                    metadata := metadata p;
                                    user_data := None |})
                   | None => Undefined
                   end
               | _, _ => Undefined
               end
           | _, _ => Ret None
           end
       end.

Definition packet_buffer_resize (h : heap_t) (st : packet_state)
    (packet : option packet_buffer_t) (new_size : Z)
  : status_t * option packet_buffer_t :=
  if negb (g_initialized st) then (STATUS_NOT_INITIALIZED, packet)
  else if negb (packet_buffer_is_valid packet)
  then (STATUS_INVALID_PARAMETER, packet)
  else match packet with
       | None => (STATUS_INVALID_PARAMETER, packet)
       | Some p =>
           if new_size =? 0 then (STATUS_INVALID_PARAMETER, packet)
           else if new_size <=? capacity p
           then (STATUS_SUCCESS, Some (set_size p new_size))
           else match data p with
                | None => (STATUS_INVALID_PARAMETER, packet)
                | Some d =>
                    match realloc h d new_size with
                    | None => (STATUS_NO_MEMORY, packet)
                    | Some new_data =>
                        (STATUS_SUCCESS,
                         Some {| data := Some new_data; size := new_size;
                                 capacity := new_size;
                                 metadata := metadata p;
                                 user_data := user_data p |})
                    end
                end
       end.

(** [packet_insert]: the shift uses [packet->size] as it stands after the
    optional resize, and the destination of the shift is computed by pointer
    arithmetic, so [offset + len] does not wrap there. *)
Definition packet_insert (h : heap_t) (st : packet_state)
    (packet : option packet_buffer_t) (offset : Z) (src : option (list byte))
    (len : Z) : outcome (status_t * option packet_buffer_t) :=
  if negb (g_initialized st) then Ret (STATUS_NOT_INITIALIZED, packet)
  else if negb (packet_buffer_is_valid packet) then Ret (STATUS_INVALID_PARAMETER, packet)
  else match packet, src with
       | Some p, Some s =>
           if len =? 0 then Ret (STATUS_INVALID_PARAMETER, packet)
           else if size p <? offset then Ret (STATUS_OUT_OF_BOUNDS, packet)
           else
             let new_size := add32 (size p) len in
             let resized :=
               if capacity p <? new_size
               then packet_buffer_resize h st packet new_size
               else (STATUS_SUCCESS, packet) in
             match resized with
             | (STATUS_SUCCESS, Some p1) =>
                 match data p1 with
                 | None => Undefined
                 | Some d1 =>
                     let shifted :=
                       if offset <? size p1
                       then mem_move d1 (offset + len) offset (sub32 (size p1) offset)
                       else Some d1 in
                     match shifted, mem_read s 0 len with
                     | Some d2, Some bytes =>
                         match mem_write d2 offset bytes with
                         | Some d3 =>
                             Ret (STATUS_SUCCESS,
                                  Some (set_size (set_data p1 d3) new_size))
                         | None => Undefined
                         end
                     | _, _ => Undefined
                     end
                 end
             | (status, p1) => Ret (status, p1)
             end
       | _, _ => Ret (STATUS_INVALID_PARAMETER, packet)
       end.

Definition packet_remove (st : packet_state)
    (packet : option packet_buffer_t) (offset len : Z)
  : outcome (status_t * option packet_buffer_t) :=
  if negb (g_initialized st) then Ret (STATUS_NOT_INITIALIZED, packet)
  else if negb (packet_buffer_is_valid packet) then Ret (STATUS_INVALID_PARAMETER, packet)
  else match packet with
       | None => Ret (STATUS_INVALID_PARAMETER, packet)
       | Some p =>
           if len =? 0 then Ret (STATUS_INVALID_PARAMETER, packet)
           else if size p <? add32 offset len then Ret (STATUS_OUT_OF_BOUNDS, packet)
           else match data p with
                | None => Undefined
                | Some d =>
                    let shifted :=
                      if add32 offset len <? size p
                      then mem_move d offset (offset + len)
                             (sub32 (size p) (add32 offset len))
                      else Some d in
                    match shifted with
                    | Some d' =>
                        Ret (STATUS_SUCCESS,
                             Some (set_size (set_data p d') (sub32 (size p) len)))
                    | None => Undefined
                    end
                end
       end.

(** *** Processor registry *)

(** [(int)p1->priority - (int)p2->priority]; the subtraction of two [int]s
    that overflows is undefined in C and wraps here, as it does on the usual
    targets. *)
Definition compare_processors (p1 p2 : packet_processor_t) : Z :=
  to_int32 (to_int32 (proc_priority p1) - to_int32 (proc_priority p2)).

Definition with_processors (st : packet_state)
    (procs : list packet_processor_t) (count : Z) : packet_state :=
  {| g_initialized := g_initialized st; g_processors := procs;
     g_processor_count := count; recursion_depth := recursion_depth st |}.

(** [qsort(g_processors, g_processor_count, ...)]: only the first
    [g_processor_count] slots are sorted. *)
Definition sort_processors `{Qsort} (st : packet_state) : packet_state :=
  let n := Z.to_nat (g_processor_count st) in
  with_processors st
    (qsort _ compare_processors (take n (g_processors st))
     ++ drop n (g_processors st))
    (g_processor_count st).

(** The slot search of [packet_register_processor]: the index of the first
    inactive slot, or [MAX_PACKET_PROCESSORS] when the loop runs to its end. *)
Definition find_unused_slot (procs : list packet_processor_t) : Z :=
  match list_find (fun p => active p = false)
          (take (Z.to_nat MAX_PACKET_PROCESSORS) procs) with
  | Some (slot, _) => Z.of_nat slot
  | None => MAX_PACKET_PROCESSORS
  end.

(** The result carries the value stored through [handle_out]. Writing slot
    [MAX_PACKET_PROCESSORS] would leave the array. *)
Definition packet_register_processor `{Qsort} (st : packet_state)
    (cb : option packet_process_cb_t) (prio : Z) (udata : option Z)
    (handle_out : bool) : outcome (status_t * packet_state * option Z) :=
  if negb (g_initialized st) then Ret (STATUS_NOT_INITIALIZED, st, None)
  else match cb with
       | None => Ret (STATUS_INVALID_PARAMETER, st, None)
       | Some _ =>
           if negb handle_out then Ret (STATUS_INVALID_PARAMETER, st, None)
           else if MAX_PACKET_PROCESSORS <=? g_processor_count st
           then Ret (STATUS_RESOURCE_EXHAUSTED, st, None)
           else
             let slot := find_unused_slot (g_processors st) in
             if Z.of_nat (length (g_processors st)) <=? slot then Undefined
             else
               let filled :=
                 <[Z.to_nat slot :=
                     {| callback := cb; proc_priority := prio;
                        proc_user_data := udata; active := true |}]>
                   (g_processors st) in
               let count :=
                 if g_processor_count st <=? slot then slot + 1
                 else g_processor_count st in
               Ret (STATUS_SUCCESS,
                    sort_processors (with_processors st filled count),
                    Some slot)
       end.

(** [while (g_processor_count > 0 && !g_processors[g_processor_count - 1].active)
    g_processor_count--;] *)
Fixpoint trim_count (procs : list packet_processor_t) (count : nat) : nat :=
  match count with
  | O => O
  | S m =>
      match procs !! m with
      | Some p => if active p then count else trim_count procs m
      | None => trim_count procs m
      end
  end.

Definition packet_unregister_processor `{Qsort} (st : packet_state)
    (handle : Z) : status_t * packet_state :=
  if negb (g_initialized st) then (STATUS_NOT_INITIALIZED, st)
  else if MAX_PACKET_PROCESSORS <=? handle then (STATUS_INVALID_PARAMETER, st)
  else match g_processors st !! Z.to_nat handle with
       | None => (STATUS_INVALID_PARAMETER, st)
       | Some p =>
           if negb (active p) then (STATUS_INVALID_PARAMETER, st)
           else
             let cleared :=
               <[Z.to_nat handle :=
                   {| callback := None; proc_priority := proc_priority p;
                      proc_user_data := None; active := false |}]>
                 (g_processors st) in
             let count :=
               if handle =? sub32 (g_processor_count st) 1
               then Z.of_nat (trim_count cleared (Z.to_nat (g_processor_count st)))
               else g_processor_count st in
             (STATUS_SUCCESS, sort_processors (with_processors st cleared count))
       end.

(** *** The pipeline *)

(** One callback invocation, as observed from outside: the recursion depth at
    which it ran, the array entry that was called, and what it returned. *)
Record invocation : Type := {
  inv_depth : Z;
  inv_proc : packet_processor_t;
  inv_result : packet_result_t
}.

Definition process_output : Type :=
  packet_result_t * option packet_buffer_t * packet_state * list invocation.

Definition enter (st : packet_state) : packet_state :=
  {| g_initialized := g_initialized st; g_processors := g_processors st;
     g_processor_count := g_processor_count st;
     recursion_depth := recursion_depth st + 1 |}.

Definition leave (st : packet_state) : packet_state :=
  {| g_initialized := g_initialized st; g_processors := g_processors st;
     g_processor_count := g_processor_count st;
     recursion_depth := recursion_depth st - 1 |}.

(** The [for] loop of [packet_process] over the local copy [processors];
    [recur] is the recursive call made on [PACKET_RESULT_RECIRCULATE]. *)
Fixpoint process_loop
    (recur : packet_state -> packet_buffer_t -> option process_output)
    (processors : list packet_processor_t) (st : packet_state)
    (p : packet_buffer_t) (result : packet_result_t) : option process_output :=
  match processors with
  | [] => Some (result, Some p, leave st, [])
  | pr :: rest =>
      match (if active pr then callback pr else None) with
      | None => process_loop recur rest st p result
      | Some cb =>
          let '(r, p') := cb p (proc_user_data pr) in
          let here :=
            {| inv_depth := recursion_depth st; inv_proc := pr;
               inv_result := r |} in
          match r with
          | PACKET_RESULT_CONSUME | PACKET_RESULT_DROP =>
              Some (r, Some p', leave st, [here])
          | PACKET_RESULT_RECIRCULATE =>
              match recur st p' with
              | Some (r', q, st', tr) => Some (r', q, leave st', here :: tr)
              | None => None
              end
          | PACKET_RESULT_FORWARD | PACKET_RESULT_OTHER =>
              match process_loop recur rest st p' r with
              | Some (r', q, st', tr) => Some (r', q, st', here :: tr)
              | None => None
              end
          end
      end
  end.

Definition snapshot (st : packet_state) : list packet_processor_t :=
  take (Z.to_nat (g_processor_count st)) (g_processors st).

(** [packet_process] calls itself; [fuel] bounds the nesting of those calls,
    and [None] means that the bound was reached. *)
Fixpoint packet_process (fuel : nat) (st : packet_state)
    (packet : option packet_buffer_t) : option process_output :=
  match fuel with
  | O => None
  | S fuel' =>
      if negb (g_initialized st) then Some (PACKET_RESULT_DROP, packet, st, [])
      else if negb (packet_buffer_is_valid packet)
      then Some (PACKET_RESULT_DROP, packet, st, [])
      else match packet with
           | None => Some (PACKET_RESULT_DROP, packet, st, [])
           | Some p =>
               let st1 := enter st in
               if 16 <? recursion_depth st1
               then Some (PACKET_RESULT_DROP, packet, leave st1, [])
               else process_loop
                      (fun s q => packet_process fuel' s (Some q))
                      (snapshot st1) st1 p PACKET_RESULT_FORWARD
           end
  end.

(** Nesting that any call can need: one level per depth up to the limit, and
    the call that is refused. *)
Definition enough_fuel (st : packet_state) : nat :=
  Z.to_nat (Z.max 1 (17 - recursion_depth st)).

(** *** Transmission *)

Inductive port_state_t : Type :=
  | PORT_STATE_DOWN
  | PORT_STATE_UP
  | PORT_STATE_LEARNING
  | PORT_STATE_FORWARDING
  | PORT_STATE_BLOCKING
  | PORT_STATE_TESTING
  | PORT_STATE_UNKNOWN.

(** The port layer and the simulated hardware, which [packet.c] only calls. *)
Record port_env : Type := {
  port_is_valid : Z -> bool;
  port_get_state : Z -> status_t * port_state_t;
  hw_sim_transmit_packet : Z -> status_t
}.

Definition set_tx_metadata (p : packet_buffer_t) (port_id : Z)
  : packet_buffer_t :=
  {| data := data p; size := size p; capacity := capacity p;
     metadata :=
       {| port := port_id; direction := PACKET_DIR_TX;
          vlan := vlan (metadata p); priority := priority (metadata p);
          src_mac := src_mac (metadata p); dst_mac := dst_mac (metadata p);
          ethertype := ethertype (metadata p);
          is_tagged := is_tagged (metadata p);
          is_dropped := is_dropped (metadata p); timestamp := 0 |};
     user_data := user_data p |}.

(** The last component tells whether the packet was handed to
    [hw_sim_transmit_packet]. *)
Definition packet_transmit (env : port_env) (st : packet_state)
    (packet : option packet_buffer_t) (port_id : Z)
  : status_t * option packet_buffer_t * bool :=
  if negb (g_initialized st) then (STATUS_NOT_INITIALIZED, packet, false)
  else if negb (packet_buffer_is_valid packet)
  then (STATUS_INVALID_PARAMETER, packet, false)
  else match packet with
       | None => (STATUS_INVALID_PARAMETER, packet, false)
       | Some p =>
           if negb (port_is_valid env port_id)
           then (STATUS_INVALID_PARAMETER, packet, false)
           else match port_get_state env port_id with
                | (STATUS_SUCCESS, PORT_STATE_UP) =>
                    (hw_sim_transmit_packet env port_id,
                     Some (set_tx_metadata p port_id), true)
                | (STATUS_SUCCESS, _) =>
                    (STATUS_RESOURCE_UNAVAILABLE, packet, false)
                | (status, _) => (status, packet, false)
                end
       end.

(** *** Vocabulary of the properties *)

(** The representation invariant of a buffer: its block has [capacity]
    bytes, of which the first [size] are the packet. *)
Definition buffer_inv (p : packet_buffer_t) : Prop :=
  exists d, data p = Some d
            /\ Z.of_nat (length d) = capacity p
            /\ 0 <= size p <= capacity p /\ capacity p < 2 ^ 32.

(** The bytes of the packet. *)
Definition packet_bytes (p : packet_buffer_t) : list byte :=
  match data p with
  | Some d => take (Z.to_nat (size p)) d
  | None => []
  end.

(** The operations that mutate a buffer in place. *)
Inductive buffer_op : Type :=
  | OpAppend (src : list byte) (len : Z)
  | OpResize (new_size : Z)
  | OpInsert (offset : Z) (src : list byte) (len : Z)
  | OpRemove (offset len : Z)
  | OpReset.

Definition apply_op (h : heap_t) (st : packet_state) (op : buffer_op)
    (p : packet_buffer_t) : outcome (status_t * option packet_buffer_t) :=
  match op with
  | OpAppend src len => packet_append_data st (Some p) (Some src) len
  | OpResize new_size => Ret (packet_buffer_resize h st (Some p) new_size)
  | OpInsert offset src len => packet_insert h st (Some p) offset (Some src) len
  | OpRemove offset len => packet_remove st (Some p) offset len
  | OpReset =>
      match packet_reset st (Some p) with
      | Ret q => Ret (STATUS_SUCCESS, q)
      | Undefined => Undefined
      end
  end.

(** Arguments are 32-bit values; for a removal, [offset + len] is moreover
    representable, so that the bounds check compares the true sum. *)
Definition op_args_ok (op : buffer_op) : Prop :=
  match op with
  | OpAppend _ len => in_u32 len
  | OpResize new_size => in_u32 new_size
  | OpInsert offset _ len => in_u32 offset /\ in_u32 len
  | OpRemove offset len => in_u32 offset /\ in_u32 len /\ offset + len < 2 ^ 32
  | OpReset => True
  end.

(** A processor that the loop of [packet_process] calls. *)
Definition callable (pr : packet_processor_t) : bool :=
  active pr && bool_decide (is_Some (callback pr)).

(** States that the registration interface produces from an initialized
    subsystem when every priority handed to it is below [2 ^ 31]. *)
Inductive api_reachable `{Qsort} : packet_state -> Prop :=
  | reach_init : api_reachable init_state
  | reach_register st cb prio udata st' handle :
      api_reachable st ->
      0 <= prio < 2 ^ 31 ->
      packet_register_processor st cb prio udata true
        = Ret (STATUS_SUCCESS, st', handle) ->
      api_reachable st'
  | reach_unregister st handle st' :
      api_reachable st ->
      packet_unregister_processor st handle = (STATUS_SUCCESS, st') ->
      api_reachable st'.

(** *** Vocabulary of the pipeline properties, and sample values *)

(** A priority for which the cast to [int] in [compare_processors] changes
    nothing. *)
Definition prio_ok (p : packet_processor_t) : Prop :=
  0 <= proc_priority p < 2 ^ 31.

Definition by_priority (a b : packet_processor_t) : Prop :=
  proc_priority a <= proc_priority b.

(** What the registration interface maintains: the counted prefix of the
    array is in ascending order of priority. *)
Definition registry_inv (st : packet_state) : Prop :=
  Forall prio_ok (g_processors st)
  /\ StronglySorted by_priority (snapshot st).

(** The processors called by the traversal that ran at depth [k]. *)
Definition traversal (k : Z) (tr : list invocation) : list packet_processor_t :=
  inv_proc <$> filter (fun e => inv_depth e = k) tr.

(** An invocation that returns Drop or Consume is the last one of the call,
    and gives its result. *)
Definition stops_at_verdict (r : packet_result_t) (tr : list invocation) : Prop :=
  forall tr1 e tr2, tr = tr1 ++ e :: tr2 ->
    inv_result e = PACKET_RESULT_DROP \/ inv_result e = PACKET_RESULT_CONSUME ->
    tr2 = [] /\ r = inv_result e.

(** A recirculation asked for at depth 16 ends in a drop. *)
Definition drops_at_limit (r : packet_result_t) (tr : list invocation) : Prop :=
  forall e, e ∈ tr -> inv_depth e = 16 ->
    inv_result e = PACKET_RESULT_RECIRCULATE -> r = PACKET_RESULT_DROP.

(** What holds of a call that starts in state [st] and returns [r], [st']
    and the trace [tr]. *)
Definition call_ok (st : packet_state) (r : packet_result_t)
    (st' : packet_state) (tr : list invocation) : Prop :=
  st' = st
  /\ Forall (fun e => recursion_depth st < inv_depth e <= 16) tr
  /\ (forall k, traversal k tr `prefix_of` filter callable (snapshot st))
  /\ stops_at_verdict r tr
  /\ drops_at_limit r tr
  /\ (16 <= recursion_depth st -> r = PACKET_RESULT_DROP /\ tr = []).

(** A 4-byte packet in a block of 8. *)
Definition sample_bytes : list byte :=
  [Byte.x01; Byte.x02; Byte.x03; Byte.x04; Byte.x00; Byte.x00; Byte.x00; Byte.x00].

Definition sample_buffer : packet_buffer_t :=
  {| data := Some sample_bytes; size := 4; capacity := 8;
     metadata := zero_metadata; user_data := None |}.

Definition cb_forward : packet_process_cb_t :=
  fun p _ => (PACKET_RESULT_FORWARD, p).

Definition cb_recirculate : packet_process_cb_t :=
  fun p _ => (PACKET_RESULT_RECIRCULATE, p).

(** Calls to the registration interface, and the state that a list of them
    leaves, with the insertion sort for [qsort]. *)
Inductive registry_call : Type :=
  | Register (cb : packet_process_cb_t) (prio : Z) (udata : Z)
  | Unregister (handle : Z).

Definition registry_step (st : packet_state) (c : registry_call) : packet_state :=
  match c with
  | Register cb prio udata =>
      match packet_register_processor st (Some cb) prio (Some udata) true with
      | Ret (_, st', _) => st'
      | Undefined => st
      end
  | Unregister handle => snd (packet_unregister_processor st handle)
  end.

Definition registry_after (calls : list registry_call) : packet_state :=
  foldl registry_step init_state calls.

(** The invocations and the result of a complete call of [packet_process]. *)
Definition trace_of (st : packet_state) (p : packet_buffer_t) : list invocation :=
  match packet_process (enough_fuel st) st (Some p) with
  | Some (_, _, _, tr) => tr
  | None => []
  end.

Definition result_of (st : packet_state) (p : packet_buffer_t)
  : option packet_result_t :=
  match packet_process (enough_fuel st) st (Some p) with
  | Some (r, _, _, _) => Some r
  | None => None
  end.

(** [sample_buffer] after two bytes were appended, and after they were
    inserted at offset 1. *)
Definition appended : packet_buffer_t :=
  {| data := Some [Byte.x01; Byte.x02; Byte.x03; Byte.x04;
                   Byte.x0a; Byte.x0b; Byte.x00; Byte.x00];
     size := 6; capacity := 8; metadata := zero_metadata; user_data := None |}.

Definition spliced : packet_buffer_t :=
  {| data := Some [Byte.x01; Byte.x0a; Byte.x0b; Byte.x02; Byte.x03; Byte.x04;
                   Byte.x00; Byte.x00];
     size := 6; capacity := 8; metadata := zero_metadata; user_data := None |}.

Definition two_processors : packet_state :=
  registry_after [Register cb_forward 20 1; Register cb_forward 10 2].

(** *** Further operations of [packet.c], and the vocabulary of their properties *)

(** [packet_update_data]: the check is on [packet->length], the other name
    of [size]; the packet is not required to satisfy
    [packet_buffer_is_valid]. *)
Definition packet_update_data (st : packet_state)
    (packet : option packet_buffer_t) (offset : Z) (src : option (list byte))
    (len : Z) : outcome (status_t * option packet_buffer_t) :=
  if negb (g_initialized st) then Ret (ERROR_PACKET_OPERATION_FAILED, packet)
  else match packet, src with
       | Some p, Some s =>
           match data p with
           | None => Ret (ERROR_INVALID_PARAMETER, packet)
           | Some d =>
               if size p <? add32 offset len
               then Ret (ERROR_PACKET_OPERATION_FAILED, packet)
               else match mem_read s 0 len with
                    | None => Undefined
                    | Some bytes =>
                        match mem_write d offset bytes with
                        | None => Undefined
                        | Some d' => Ret (STATUS_SUCCESS, Some (set_data p d'))
                        end
                    end
           end
       | _, _ => Ret (ERROR_INVALID_PARAMETER, packet)
       end.

(** [packet_get_header]; [header] says whether the destination pointer is
    non-null, and the second component is what the destination receives. *)
Definition packet_get_header (st : packet_state)
    (packet : option packet_buffer_t) (offset : Z) (header : bool) (len : Z)
  : outcome (status_t * option (list byte)) :=
  if negb (g_initialized st) then Ret (STATUS_NOT_INITIALIZED, None)
  else if negb (packet_buffer_is_valid packet) || negb header
  then Ret (STATUS_INVALID_PARAMETER, None)
  else match packet with
       | None => Ret (STATUS_INVALID_PARAMETER, None)
       | Some p =>
           if size p <? add32 offset len then Ret (STATUS_OUT_OF_BOUNDS, None)
           else match data p with
                | None => Undefined
                | Some d =>
                    match mem_read d offset len with
                    | Some bytes => Ret (STATUS_SUCCESS, Some bytes)
                    | None => Undefined
                    end
                end
       end.

(** [packet_set_header]: the header is read from the caller's block
    [header]. *)
Definition packet_set_header (st : packet_state)
    (packet : option packet_buffer_t) (offset : Z)
    (header : option (list byte)) (len : Z)
  : outcome (status_t * option packet_buffer_t) :=
  if negb (g_initialized st) then Ret (STATUS_NOT_INITIALIZED, packet)
  else if negb (packet_buffer_is_valid packet)
  then Ret (STATUS_INVALID_PARAMETER, packet)
  else match packet, header with
       | Some p, Some s =>
           if size p <? add32 offset len then Ret (STATUS_OUT_OF_BOUNDS, packet)
           else match data p, mem_read s 0 len with
                | Some d, Some bytes =>
                    match mem_write d offset bytes with
                    | Some d' => Ret (STATUS_SUCCESS, Some (set_data p d'))
                    | None => Undefined
                    end
                | _, _ => Undefined
                end
       | _, _ => Ret (STATUS_INVALID_PARAMETER, packet)
       end.

(** The bytes of a packet after [src] was written over them at [off]. *)
Definition overwrite (off : Z) (src bytes : list byte) : list byte :=
  take (Z.to_nat off) bytes ++ src
  ++ drop (Z.to_nat off + length src)%nat bytes.

(** The bytes of a packet after [src] was put in front of position [off]. *)
Definition splice (off : Z) (src bytes : list byte) : list byte :=
  take (Z.to_nat off) bytes ++ src ++ drop (Z.to_nat off) bytes.

(** The bytes of a packet without the [len] bytes at [off]. *)
Definition cut (off len : Z) (bytes : list byte) : list byte :=
  take (Z.to_nat off) bytes ++ drop (Z.to_nat (off + len)) bytes.

(** The shape of the registry: the array has its 64 slots, the count stays
    within them, every slot at or above the count is inactive, and an
    active slot has a callback. *)
Definition registry_wf (st : packet_state) : Prop :=
  g_initialized st = true
  /\ length (g_processors st) = Z.to_nat MAX_PACKET_PROCESSORS
  /\ 0 <= g_processor_count st <= MAX_PACKET_PROCESSORS
  /\ (forall i pr, g_processors st !! i = Some pr ->
        (Z.to_nat (g_processor_count st) <= i)%nat -> active pr = false)
  /\ Forall (fun pr => active pr = true -> is_Some (callback pr))
       (g_processors st).

(** The processors that are registered. *)
Definition active_processors (st : packet_state) : list packet_processor_t :=
  filter (fun pr => active pr = true) (g_processors st).

(** [packet_process] copies [g_processors] into the local array
    [processors] and releases its lock before the loop, so a callback may
    register or unregister processors, or shut the subsystem down, while the
    loop runs.  [fx pr p st] is the file-scope state that the callback of
    [pr], called on [p] in state [st], leaves; its result and what it does to
    the packet are those of [callback pr]. *)
Definition callback_effect : Type :=
  packet_processor_t -> packet_buffer_t -> packet_state -> packet_state.

(** A callback that touches no file-scope state. *)
Definition no_effect : callback_effect := fun _ _ st => st.

(** The state when the callback has returned.  [recursion_depth] is a
    [static] local of [packet_process]: no other function can assign it. *)
Definition after_callback (fx : callback_effect) (pr : packet_processor_t)
    (p : packet_buffer_t) (st : packet_state) : packet_state :=
  {| g_initialized := g_initialized (fx pr p st);
     g_processors := g_processors (fx pr p st);
     g_processor_count := g_processor_count (fx pr p st);
     recursion_depth := recursion_depth st |}.

(** The [for] loop of [packet_process] with such callbacks: it runs over the
    local copy [processors], whatever becomes of [g_processors]. *)
Fixpoint process_loop_reentrant (fx : callback_effect)
    (recur : packet_state -> packet_buffer_t -> option process_output)
    (processors : list packet_processor_t) (st : packet_state)
    (p : packet_buffer_t) (result : packet_result_t) : option process_output :=
  match processors with
  | [] => Some (result, Some p, leave st, [])
  | pr :: rest =>
      match (if active pr then callback pr else None) with
      | None => process_loop_reentrant fx recur rest st p result
      | Some cb =>
          let '(r, p') := cb p (proc_user_data pr) in
          let st1 := after_callback fx pr p st in
          let here :=
            {| inv_depth := recursion_depth st; inv_proc := pr;
               inv_result := r |} in
          match r with
          | PACKET_RESULT_CONSUME | PACKET_RESULT_DROP =>
              Some (r, Some p', leave st1, [here])
          | PACKET_RESULT_RECIRCULATE =>
              match recur st1 p' with
              | Some (r', q, st', tr) => Some (r', q, leave st', here :: tr)
              | None => None
              end
          | PACKET_RESULT_FORWARD | PACKET_RESULT_OTHER =>
              match process_loop_reentrant fx recur rest st1 p' r with
              | Some (r', q, st', tr) => Some (r', q, st', here :: tr)
              | None => None
              end
          end
      end
  end.

(** [packet_process] with such callbacks; the nested call made on
    [PACKET_RESULT_RECIRCULATE] copies the array as it is by then. *)
Fixpoint packet_process_reentrant (fx : callback_effect) (fuel : nat)
    (st : packet_state) (packet : option packet_buffer_t)
  : option process_output :=
  match fuel with
  | O => None
  | S fuel' =>
      if negb (g_initialized st) then Some (PACKET_RESULT_DROP, packet, st, [])
      else if negb (packet_buffer_is_valid packet)
      then Some (PACKET_RESULT_DROP, packet, st, [])
      else match packet with
           | None => Some (PACKET_RESULT_DROP, packet, st, [])
           | Some p =>
               let st1 := enter st in
               if 16 <? recursion_depth st1
               then Some (PACKET_RESULT_DROP, packet, leave st1, [])
               else process_loop_reentrant fx
                      (fun s q => packet_process_reentrant fx fuel' s (Some q))
                      (snapshot st1) st1 p PACKET_RESULT_FORWARD
           end
  end.

(** The file-scope state between two calls of [packet_process]. *)
Definition at_rest (st : packet_state) : packet_state :=
  {| g_initialized := g_initialized st; g_processors := g_processors st;
     g_processor_count := g_processor_count st; recursion_depth := 0 |}.

(** The traversal as the specification words it: the processors of the
    list are invoked in turn at depth [k], each on the packet as the one
    before left it, and the first result that is Drop, Consume or Recirculate
    ends the traversal. *)
Fixpoint spec_invocations (k : Z) (procs : list packet_processor_t)
    (p : packet_buffer_t) : list invocation :=
  match procs with
  | [] => []
  | pr :: rest =>
      match callback pr with
      | None => spec_invocations k rest p
      | Some cb =>
          let '(r, p') := cb p (proc_user_data pr) in
          {| inv_depth := k; inv_proc := pr; inv_result := r |}
          :: match r with
             | PACKET_RESULT_FORWARD | PACKET_RESULT_OTHER =>
                 spec_invocations k rest p'
             | _ => []
             end
      end
  end.

(** An invocation after which the loop goes on. *)
Definition goes_on (e : invocation) : Prop :=
  inv_result e = PACKET_RESULT_FORWARD \/ inv_result e = PACKET_RESULT_OTHER.

(** A callback of priority 10 that unregisters handle 1 while it runs. *)
Definition unregisters_next : callback_effect :=
  fun pr _ st =>
    if proc_priority pr =? 10 then snd (packet_unregister_processor st 1)
    else st.

(** A callback of priority 10 that unregisters handle 0 while it runs. *)
Definition unregisters_first : callback_effect :=
  fun pr _ st =>
    if proc_priority pr =? 10 then snd (packet_unregister_processor st 0)
    else st.

(** A processor of priority 10 that asks for recirculation, registered
    after a forwarding processor of priority 20. *)
Definition recirculating_pair : packet_state :=
  registry_after [Register cb_forward 20 1; Register cb_recirculate 10 2].

(** What a call leaves behind, as far as the loop that made it needs. *)
Definition nested_ok (d : Z) (out : process_output) : Prop :=
  let '(r, _, st', tr) := out in
  recursion_depth st' = d
  /\ Forall (fun e => d < inv_depth e) tr
  /\ stops_at_verdict r tr.

(** The assignments of [packet_inject] and of [packet_receive] to the
    metadata, before the pipeline runs. *)
Definition set_internal_metadata (p : packet_buffer_t) : packet_buffer_t :=
  {| data := data p; size := size p; capacity := capacity p;
     metadata :=
       {| port := port (metadata p); direction := PACKET_DIR_INTERNAL;
          vlan := vlan (metadata p); priority := priority (metadata p);
          src_mac := src_mac (metadata p); dst_mac := dst_mac (metadata p);
          ethertype := ethertype (metadata p);
          is_tagged := is_tagged (metadata p);
          is_dropped := is_dropped (metadata p); timestamp := 0 |};
     user_data := user_data p |}.

Definition set_rx_metadata (p : packet_buffer_t) (port_id : Z)
  : packet_buffer_t :=
  {| data := data p; size := size p; capacity := capacity p;
     metadata :=
       {| port := port_id; direction := PACKET_DIR_RX;
          vlan := vlan (metadata p); priority := priority (metadata p);
          src_mac := src_mac (metadata p); dst_mac := dst_mac (metadata p);
          ethertype := ethertype (metadata p);
          is_tagged := is_tagged (metadata p);
          is_dropped := is_dropped (metadata p); timestamp := 0 |};
     user_data := user_data p |}.

(** The [switch] that follows [packet_process] in [packet_inject] and
    [packet_receive]: each of the four enumerators only logs and leads to
    [return STATUS_SUCCESS]; the [default] branch returns
    [STATUS_UNKNOWN_ERROR]. *)
Definition status_of_result (r : packet_result_t) : status_t :=
  match r with
  | PACKET_RESULT_FORWARD => STATUS_SUCCESS
  | PACKET_RESULT_DROP => STATUS_SUCCESS
  | PACKET_RESULT_CONSUME => STATUS_SUCCESS
  | PACKET_RESULT_RECIRCULATE => STATUS_SUCCESS
  | PACKET_RESULT_OTHER => STATUS_UNKNOWN_ERROR
  end.

(** The output of the entry points that run the pipeline: status, packet,
    state, and the invocations made. *)
Definition pipeline_output : Type :=
  status_t * option packet_buffer_t * packet_state * list invocation.

(** [packet_inject] and [packet_receive]; [fuel] is that of
    [packet_process]. *)
Definition packet_inject (fuel : nat) (st : packet_state)
    (packet : option packet_buffer_t) : option pipeline_output :=
  if negb (g_initialized st) then Some (STATUS_NOT_INITIALIZED, packet, st, [])
  else if negb (packet_buffer_is_valid packet)
  then Some (STATUS_INVALID_PARAMETER, packet, st, [])
  else match packet with
       | None => Some (STATUS_INVALID_PARAMETER, packet, st, [])
       | Some p =>
           match packet_process fuel st (Some (set_internal_metadata p)) with
           | Some (r, q, st', tr) => Some (status_of_result r, q, st', tr)
           | None => None
           end
       end.

Definition packet_receive (fuel : nat) (env : port_env) (st : packet_state)
    (packet : option packet_buffer_t) (port_id : Z) : option pipeline_output :=
  if negb (g_initialized st) then Some (STATUS_NOT_INITIALIZED, packet, st, [])
  else if negb (packet_buffer_is_valid packet)
  then Some (STATUS_INVALID_PARAMETER, packet, st, [])
  else match packet with
       | None => Some (STATUS_INVALID_PARAMETER, packet, st, [])
       | Some p =>
           if negb (port_is_valid env port_id)
           then Some (STATUS_INVALID_PARAMETER, packet, st, [])
           else match port_get_state env port_id with
                | (STATUS_SUCCESS, PORT_STATE_UP) =>
                    match packet_process fuel st
                            (Some (set_rx_metadata p port_id)) with
                    | Some (r, q, st', tr) =>
                        Some (status_of_result r, q, st', tr)
                    | None => None
                    end
                | (STATUS_SUCCESS, _) =>
                    Some (STATUS_RESOURCE_UNAVAILABLE, packet, st, [])
                | (status, _) => Some (status, packet, st, [])
                end
       end.

(** A processor whose callback forwards whatever it is given. *)
Definition always_forwards (pr : packet_processor_t) : Prop :=
  forall cb, callback pr = Some cb ->
    forall q u, fst (cb q u) = PACKET_RESULT_FORWARD.

(** The packet after each processor of the list has rewritten it in turn. *)
Definition run_callbacks (procs : list packet_processor_t)
    (p : packet_buffer_t) : packet_buffer_t :=
  foldl (fun q pr =>
           match callback pr with
           | Some cb => snd (cb q (proc_user_data pr))
           | None => q
           end) p procs.

(** The record of a call, at [depth], that returned
    [PACKET_RESULT_FORWARD]. *)
Definition forwarded_at (depth : Z) (pr : packet_processor_t) : invocation :=
  {| inv_depth := depth; inv_proc := pr; inv_result := PACKET_RESULT_FORWARD |}.

(** A callback that returns a value outside the enumeration, and the
    registry that holds it alone. *)
Definition cb_other : packet_process_cb_t :=
  fun p _ => (PACKET_RESULT_OTHER, p).

Definition odd_registry : packet_state :=
  registry_after [Register cb_other 1 0].

(** *** Further sample values *)

(** A buffer as [packet_buffer_alloc] returns it for four bytes, on a heap
    whose fresh memory holds [0xaa]. *)
Definition fresh_buffer : packet_buffer_t :=
  {| data := Some [Byte.xaa; Byte.xaa; Byte.xaa; Byte.xaa];
     size := 0; capacity := 4;
     metadata := set_default_metadata zero_metadata; user_data := None |}.

(** The registry after 64 registrations. *)
Definition full_registry : packet_state :=
  registry_after (replicate 64 (Register cb_forward 0 0)).

End Packet.

Module Arp.

(** *** Constants and types of [l3/arp.c] *)

Definition ARP_CACHE_SIZE : Z := 1024.
Definition ARP_CACHE_TIMEOUT_SEC : Z := 1200.
Definition ARP_REQUEST_RETRY_COUNT : Z := 3.
Definition ARP_REQUEST_RETRY_INTERVAL_MS : Z := 1000.
Definition ARP_HARDWARE_TYPE_ETHERNET : Z := 1.
Definition ARP_PROTOCOL_TYPE_IPV4 : Z := 2048.
Definition ARP_HARDWARE_SIZE_ETHERNET : Z := 6.
Definition ARP_PROTOCOL_SIZE_IPV4 : Z := 4.
Definition ARP_OP_REQUEST : Z := 1.
Definition ARP_OP_REPLY : Z := 2.
Definition ETHERTYPE_ARP : Z := 2054.
Definition VLAN_ID_DEFAULT : Z := 1.
Definition UINT32_MAX : Z := 2 ^ 32 - 1.
Definition BROADCAST_MAC : Z := 2 ^ 48 - 1.

(** [arp_packet_t] is declared without the packed attribute; with natural
    alignment it occupies 32 bytes, and [ethernet_header_t] 14. *)
Definition sizeof_arp_packet_t : Z := 32.
Definition sizeof_ethernet_header_t : Z := 14.

Definition u16 (x : Z) : Z := x mod 2 ^ 16.
Definition u64 (x : Z) : Z := x mod 2 ^ 64.

(** The 16-bit fields hold the value that [ntohs] yields. *)
Record arp_packet_t : Type := {
  hw_type : Z;
  protocol_type : Z;
  hw_addr_len : Z;
  proto_addr_len : Z;
  operation : Z;
  sender_mac : Z;
  sender_ip : Z;
  target_mac : Z;
  target_ip : Z
}.

Inductive arp_state_t : Type :=
  | ARP_STATE_INCOMPLETE
  | ARP_STATE_REACHABLE
  | ARP_STATE_STALE
  | ARP_STATE_DELAY
  | ARP_STATE_PROBE
  | ARP_STATE_FAILED.

Global Instance arp_state_eq_dec : EqDecision arp_state_t.
Proof. solve_decision. Defined.

Record arp_entry_t : Type := {
  ip : Z;
  mac : Z;
  state : arp_state_t;
  created_time : Z;
  updated_time : Z;
  port_index : Z;
  retry_count : Z
}.

Record arp_stats_t : Type := {
  requests_sent : Z;
  requests_received : Z;
  replies_sent : Z;
  replies_received : Z;
  cache_hits : Z;
  cache_misses : Z;
  cache_flushes : Z;
  cache_full_errors : Z;
  invalid_packets : Z;
  entries_added : Z;
  entries_removed : Z;
  entries_aged : Z;
  current_entries : Z
}.

(** [hash_table] holds the [ARP_CACHE_SIZE] chains; a chain lists its entries
    from the head. The entry pool is implicit: it has [ARP_CACHE_SIZE] slots,
    and a slot is free when it is linked in no chain. *)
Record arp_table_t : Type := {
  hash_table : list (list arp_entry_t);
  entry_count : Z;
  timeout : Z;
  initialized : bool;
  stats : arp_stats_t
}.

Record ethernet_frame : Type := {
  eth_dst : Z;
  eth_src : Z;
  eth_type : Z;
  eth_payload : arp_packet_t
}.

(** Calls that leave [arp.c]. *)
Inductive arp_event : Type :=
  | MacTableAdd (m : Z) (port vlan : Z) (is_static : bool)
  | RequestTransmit (port : Z) (frame : ethernet_frame) (status : status_t)
      (on_wire : bool)
  | ReplySend (port : Z) (src dst ethertype : Z) (payload : arp_packet_t)
      (status : status_t).

(** What [arp.c] finds around it: the allocator, the port layer, the state
    of the packet subsystem, the contents of the locals [our_mac] and
    [our_ip] that are read without having been assigned, the answer of
    [port_send_packet_ext], and the way the target lays [arp_packet_t] over
    received bytes. *)
Record arp_env : Type := {
  env_heap : heap_t;
  env_ports : Packet.port_env;
  env_packet : Packet.packet_state;
  env_our_mac : Z;
  env_our_ip : Z;
  env_port_send_packet_ext : Z -> status_t;
  env_arp_view : list byte -> arp_packet_t
}.

(** The table, the counter behind [get_current_time], and the calls made so
    far, oldest first. *)
Record world : Type := {
  table : arp_table_t;
  time_counter : Z;
  events : list arp_event
}.

Definition zero_stats : arp_stats_t :=
  {| requests_sent := 0; requests_received := 0; replies_sent := 0;
     replies_received := 0; cache_hits := 0; cache_misses := 0;
     cache_flushes := 0; cache_full_errors := 0; invalid_packets := 0;
     entries_added := 0; entries_removed := 0; entries_aged := 0;
     current_entries := 0 |}.

Definition zero_table : arp_table_t :=
  {| hash_table := replicate (Z.to_nat ARP_CACHE_SIZE) [];
     entry_count := 0; timeout := 0; initialized := false;
     stats := zero_stats |}.

Definition boot_world : world :=
  {| table := zero_table; time_counter := 0; events := [] |}.

(** *** Field updates *)

Definition with_table (w : world) (t : arp_table_t) : world :=
  {| table := t; time_counter := time_counter w; events := events w |}.

Definition emit (w : world) (evs : list arp_event) : world :=
  {| table := table w; time_counter := time_counter w;
     events := events w ++ evs |}.

Definition with_chains (t : arp_table_t) (chains : list (list arp_entry_t))
    (count : Z) : arp_table_t :=
  {| hash_table := chains; entry_count := count; timeout := timeout t;
     initialized := initialized t; stats := stats t |}.

Definition with_stats (t : arp_table_t) (s : arp_stats_t) : arp_table_t :=
  {| hash_table := hash_table t; entry_count := entry_count t;
     timeout := timeout t; initialized := initialized t; stats := s |}.

Definition add_requests_sent (n : Z) (s : arp_stats_t) : arp_stats_t :=
  {| requests_sent := u64 (requests_sent s + n);
     requests_received := requests_received s; replies_sent := replies_sent s;
     replies_received := replies_received s; cache_hits := cache_hits s;
     cache_misses := cache_misses s; cache_flushes := cache_flushes s;
     cache_full_errors := cache_full_errors s;
     invalid_packets := invalid_packets s; entries_added := entries_added s;
     entries_removed := entries_removed s; entries_aged := entries_aged s;
     current_entries := current_entries s |}.

Definition inc_requests_received (s : arp_stats_t) : arp_stats_t :=
  {| requests_sent := requests_sent s;
     requests_received := u64 (requests_received s + 1);
     replies_sent := replies_sent s;
     replies_received := replies_received s; cache_hits := cache_hits s;
     cache_misses := cache_misses s; cache_flushes := cache_flushes s;
     cache_full_errors := cache_full_errors s;
     invalid_packets := invalid_packets s; entries_added := entries_added s;
     entries_removed := entries_removed s; entries_aged := entries_aged s;
     current_entries := current_entries s |}.

Definition inc_replies_sent (s : arp_stats_t) : arp_stats_t :=
  {| requests_sent := requests_sent s;
     requests_received := requests_received s;
     replies_sent := u64 (replies_sent s + 1);
     replies_received := replies_received s; cache_hits := cache_hits s;
     cache_misses := cache_misses s; cache_flushes := cache_flushes s;
     cache_full_errors := cache_full_errors s;
     invalid_packets := invalid_packets s; entries_added := entries_added s;
     entries_removed := entries_removed s; entries_aged := entries_aged s;
     current_entries := current_entries s |}.

Definition inc_replies_received (s : arp_stats_t) : arp_stats_t :=
  {| requests_sent := requests_sent s;
     requests_received := requests_received s; replies_sent := replies_sent s;
     replies_received := u64 (replies_received s + 1);
     cache_hits := cache_hits s;
     cache_misses := cache_misses s; cache_flushes := cache_flushes s;
     cache_full_errors := cache_full_errors s;
     invalid_packets := invalid_packets s; entries_added := entries_added s;
     entries_removed := entries_removed s; entries_aged := entries_aged s;
     current_entries := current_entries s |}.

Definition inc_cache_hits (s : arp_stats_t) : arp_stats_t :=
  {| requests_sent := requests_sent s;
     requests_received := requests_received s; replies_sent := replies_sent s;
     replies_received := replies_received s;
     cache_hits := u64 (cache_hits s + 1);
     cache_misses := cache_misses s; cache_flushes := cache_flushes s;
     cache_full_errors := cache_full_errors s;
     invalid_packets := invalid_packets s; entries_added := entries_added s;
     entries_removed := entries_removed s; entries_aged := entries_aged s;
     current_entries := current_entries s |}.

Definition inc_cache_flushes (s : arp_stats_t) : arp_stats_t :=
  {| requests_sent := requests_sent s;
     requests_received := requests_received s; replies_sent := replies_sent s;
     replies_received := replies_received s; cache_hits := cache_hits s;
     cache_misses := cache_misses s;
     cache_flushes := u64 (cache_flushes s + 1);
     cache_full_errors := cache_full_errors s;
     invalid_packets := invalid_packets s; entries_added := entries_added s;
     entries_removed := entries_removed s; entries_aged := entries_aged s;
     current_entries := current_entries s |}.

Definition inc_invalid_packets (s : arp_stats_t) : arp_stats_t :=
  {| requests_sent := requests_sent s;
     requests_received := requests_received s; replies_sent := replies_sent s;
     replies_received := replies_received s; cache_hits := cache_hits s;
     cache_misses := cache_misses s; cache_flushes := cache_flushes s;
     cache_full_errors := cache_full_errors s;
     invalid_packets := u64 (invalid_packets s + 1);
     entries_added := entries_added s;
     entries_removed := entries_removed s; entries_aged := entries_aged s;
     current_entries := current_entries s |}.

Definition inc_entries_added (s : arp_stats_t) : arp_stats_t :=
  {| requests_sent := requests_sent s;
     requests_received := requests_received s; replies_sent := replies_sent s;
     replies_received := replies_received s; cache_hits := cache_hits s;
     cache_misses := cache_misses s; cache_flushes := cache_flushes s;
     cache_full_errors := cache_full_errors s;
     invalid_packets := invalid_packets s;
     entries_added := u64 (entries_added s + 1);
     entries_removed := entries_removed s; entries_aged := entries_aged s;
     current_entries := current_entries s |}.

Definition inc_entries_removed (s : arp_stats_t) : arp_stats_t :=
  {| requests_sent := requests_sent s;
     requests_received := requests_received s; replies_sent := replies_sent s;
     replies_received := replies_received s; cache_hits := cache_hits s;
     cache_misses := cache_misses s; cache_flushes := cache_flushes s;
     cache_full_errors := cache_full_errors s;
     invalid_packets := invalid_packets s; entries_added := entries_added s;
     entries_removed := u64 (entries_removed s + 1);
     entries_aged := entries_aged s;
     current_entries := current_entries s |}.

Definition add_entries_aged (n : Z) (s : arp_stats_t) : arp_stats_t :=
  {| requests_sent := requests_sent s;
     requests_received := requests_received s; replies_sent := replies_sent s;
     replies_received := replies_received s; cache_hits := cache_hits s;
     cache_misses := cache_misses s; cache_flushes := cache_flushes s;
     cache_full_errors := cache_full_errors s;
     invalid_packets := invalid_packets s; entries_added := entries_added s;
     entries_removed := entries_removed s;
     entries_aged := u64 (entries_aged s + n);
     current_entries := current_entries s |}.

Definition bump (f : arp_stats_t -> arp_stats_t) (w : world) : world :=
  with_table w (with_stats (table w) (f (stats (table w)))).

(** *** Internal helpers *)

(** [get_current_time]: a counter that advances at every call. *)
Definition get_current_time (w : world) : Z * world :=
  (time_counter w,
   {| table := table w; time_counter := add32 (time_counter w) 1;
      events := events w |}).

Definition hash_ipv4 (ipv4 : Z) : Z :=
  let h0 := u32 ipv4 in
  let h1 := u32 (Z.lxor (Z.shiftr h0 16) h0 * 0x45d9f3b) in
  let h2 := u32 (Z.lxor (Z.shiftr h1 16) h1 * 0x45d9f3b) in
  Z.lxor (Z.shiftr h2 16) h2.

Definition bucket_of (ipv4 : Z) : nat :=
  Z.to_nat (hash_ipv4 ipv4 mod ARP_CACHE_SIZE).

Definition chain_at (t : arp_table_t) (i : nat) : list arp_entry_t :=
  default [] (hash_table t !! i).

Definition arp_find_entry (t : arp_table_t) (ipv4 : Z) : option arp_entry_t :=
  find (fun e => ip e =? ipv4) (chain_at t (bucket_of ipv4)).

(** Assignment through the pointer that [arp_find_entry] returned. *)
Fixpoint update_first (ipv4 : Z) (g : arp_entry_t -> arp_entry_t)
    (chain : list arp_entry_t) : list arp_entry_t :=
  match chain with
  | [] => []
  | e :: rest =>
      if ip e =? ipv4 then g e :: rest else e :: update_first ipv4 g rest
  end.

(** Unlinking of the first entry of a chain that holds [ipv4]. *)
Fixpoint remove_first (ipv4 : Z) (chain : list arp_entry_t)
  : list arp_entry_t :=
  match chain with
  | [] => []
  | e :: rest => if ip e =? ipv4 then rest else e :: remove_first ipv4 rest
  end.

Definition push_entry (t : arp_table_t) (e : arp_entry_t) : arp_table_t :=
  let i := bucket_of (ip e) in
  with_chains t (<[i := e :: chain_at t i]> (hash_table t))
    (u16 (entry_count t + 1)).

(** The search for the entry to recycle: buckets in order, chains from the
    head, keeping the first entry whose [updated_time] is strictly below the
    best so far, which starts at [UINT32_MAX]. The position is a bucket and
    an index in its chain. *)
Definition scan_entry (i j : nat) (e : arp_entry_t)
    (best : Z * option (nat * nat)) : Z * option (nat * nat) :=
  if updated_time e <? fst best then (updated_time e, Some (i, j)) else best.

Fixpoint scan_chain (i j : nat) (chain : list arp_entry_t)
    (best : Z * option (nat * nat)) : Z * option (nat * nat) :=
  match chain with
  | [] => best
  | e :: rest => scan_chain i (S j) rest (scan_entry i j e best)
  end.

Fixpoint scan_buckets (i : nat) (chains : list (list arp_entry_t))
    (best : Z * option (nat * nat)) : Z * option (nat * nat) :=
  match chains with
  | [] => best
  | c :: rest => scan_buckets (S i) rest (scan_chain i 0 c best)
  end.

Definition find_oldest (t : arp_table_t) : option (nat * nat) :=
  snd (scan_buckets 0 (hash_table t) (UINT32_MAX, None)).

Definition total_entries (t : arp_table_t) : Z :=
  Z.of_nat (length (concat (hash_table t))).

(** [arp_allocate_entry]: the table once the entry to reuse, if any, has been
    unlinked, or [None] for a null result. The entry itself comes back
    zeroed and is filled by the caller. *)
Definition arp_allocate_entry (t : arp_table_t) : option arp_table_t :=
  if ARP_CACHE_SIZE <=? entry_count t then
    match find_oldest t with
    | Some (i, j) =>
        Some (with_chains t (alter (delete j) i (hash_table t))
                (u16 (entry_count t - 1)))
    | None => None
    end
  else if total_entries t <? ARP_CACHE_SIZE then Some t
  else None.

Definition request_frame (E : arp_env) (target : Z) : ethernet_frame :=
  {| eth_dst := BROADCAST_MAC; eth_src := env_our_mac E;
     eth_type := ETHERTYPE_ARP;
     eth_payload :=
       {| hw_type := ARP_HARDWARE_TYPE_ETHERNET;
          protocol_type := ARP_PROTOCOL_TYPE_IPV4;
          hw_addr_len := ARP_HARDWARE_SIZE_ETHERNET;
          proto_addr_len := ARP_PROTOCOL_SIZE_IPV4;
          operation := ARP_OP_REQUEST;
          sender_mac := env_our_mac E; sender_ip := env_our_ip E;
          target_mac := 0; target_ip := target |} |}.

(** [arp_send_request]: the status, and the call to [packet_transmit] when
    one was made. The frame travels in the event as the two structures that
    the code copies into the buffer. *)
Definition arp_send_request (E : arp_env) (target_ip : option Z)
    (port : Z) : status_t * list arp_event :=
  match target_ip with
  | None => (STATUS_INVALID_PARAMETER, [])
  | Some target =>
      let total_size := sizeof_ethernet_header_t + sizeof_arp_packet_t in
      match Packet.packet_buffer_alloc (env_heap E) (env_packet E) total_size with
      | None => (STATUS_INSUFFICIENT_RESOURCES, [])
      | Some packet =>
          let filled :=
            Packet.set_tx_metadata (Packet.set_size packet total_size) port in
          let '(status, _, on_wire) :=
            Packet.packet_transmit (env_ports E) (env_packet E) (Some filled) port in
          (status, [RequestTransmit port (request_frame E target) status on_wire])
      end
  end.

Definition arp_send_reply (E : arp_env) (target_ip target_mac sender : option Z)
    (port : Z) : status_t * list arp_event :=
  match target_ip, target_mac, sender with
  | Some tip, Some tmac, Some sip =>
      let reply :=
        {| hw_type := ARP_HARDWARE_TYPE_ETHERNET;
           protocol_type := ARP_PROTOCOL_TYPE_IPV4;
           hw_addr_len := ARP_HARDWARE_SIZE_ETHERNET;
           proto_addr_len := ARP_PROTOCOL_SIZE_IPV4;
           operation := ARP_OP_REPLY;
           sender_mac := env_our_mac E; sender_ip := sip;
           target_mac := tmac; target_ip := tip |} in
      match Packet.packet_buffer_alloc (env_heap E) (env_packet E)
              sizeof_arp_packet_t with
      | None => (STATUS_MEMORY_ALLOCATION_FAILED, [])
      | Some _ =>
          let status := env_port_send_packet_ext E port in
          (status, [ReplySend port (env_our_mac E) tmac ETHERTYPE_ARP reply status])
      end
  | _, _, _ => (STATUS_INVALID_PARAMETER, [])
  end.

(** *** The cache interface *)

(** [pool] tells whether [calloc] returned the entry pool. *)
Definition arp_init (pool : bool) (w : world) : status_t * world :=
  if negb pool then (STATUS_NO_MEMORY, with_table w zero_table)
  else (STATUS_SUCCESS,
        with_table w
          {| hash_table := hash_table zero_table; entry_count := 0;
             timeout := ARP_CACHE_TIMEOUT_SEC; initialized := true;
             stats := zero_stats |}).

Definition arp_add_entry (w : world) (ipv4 m : option Z) (port : Z)
  : status_t * world :=
  match ipv4, m with
  | Some a, Some hw =>
      if negb (initialized (table w)) then (STATUS_NOT_INITIALIZED, w)
      else
        let stored :=
          match arp_find_entry (table w) a with
          | Some _ =>
              let '(now, w1) := get_current_time w in
              let refresh e :=
                {| ip := ip e; mac := hw; state := ARP_STATE_REACHABLE;
                   created_time := created_time e; updated_time := now;
                   port_index := port; retry_count := retry_count e |} in
              let i := bucket_of a in
              Some (with_table w1
                      (with_chains (table w1)
                         (<[i := update_first a refresh (chain_at (table w1) i)]>
                            (hash_table (table w1)))
                         (entry_count (table w1))))
          | None =>
              match arp_allocate_entry (table w) with
              | None => None
              | Some t1 =>
                  let '(now, w1) := get_current_time (with_table w t1) in
                  let e :=
                    {| ip := a; mac := hw; state := ARP_STATE_REACHABLE;
                       created_time := now; updated_time := now;
                       port_index := port; retry_count := 0 |} in
                  Some (with_table w1 (push_entry (table w1) e))
              end
          end in
        match stored with
        | None => (STATUS_RESOURCE_EXHAUSTED, w)
        | Some w2 =>
            (STATUS_SUCCESS,
             bump inc_entries_added
               (emit w2 [MacTableAdd hw port VLAN_ID_DEFAULT false]))
        end
  | _, _ => (STATUS_INVALID_PARAMETER, w)
  end.

(** [mac_result] and [port_index_result] say whether the two output pointers
    are non-null; the last two components are what was stored through
    them. *)
Definition arp_lookup (E : arp_env) (w : world) (ipv4 : option Z)
    (mac_result port_index_result : bool)
  : status_t * world * option Z * option Z :=
  match ipv4 with
  | Some a =>
      if negb mac_result then (STATUS_INVALID_PARAMETER, w, None, None)
      else if negb (initialized (table w))
      then (STATUS_NOT_INITIALIZED, w, None, None)
      else
        match arp_find_entry (table w) a with
        | None =>
            let out_port := 0 in
            match arp_allocate_entry (table w) with
            | None => (STATUS_RESOURCE_EXHAUSTED, w, None, None)
            | Some t1 =>
                let '(now, w1) := get_current_time (with_table w t1) in
                let e :=
                  {| ip := a; mac := 0; state := ARP_STATE_INCOMPLETE;
                     created_time := now; updated_time := now;
                     port_index := out_port; retry_count := 0 |} in
                let w2 := with_table w1 (push_entry (table w1) e) in
                let '(_, evs) := arp_send_request E (Some a) out_port in
                (ARP_STATUS_PENDING,
                 bump (add_requests_sent 1) (emit w2 evs), None, None)
            end
        | Some e =>
            match state e with
            | ARP_STATE_INCOMPLETE => (ARP_STATUS_PENDING, w, None, None)
            | ARP_STATE_FAILED => (STATUS_NOT_FOUND, w, None, None)
            | _ =>
                (STATUS_SUCCESS, bump inc_cache_hits w, Some (mac e),
                 if port_index_result then Some (port_index e) else None)
            end
        end
  | None => (STATUS_INVALID_PARAMETER, w, None, None)
  end.

Definition arp_remove_entry (w : world) (ipv4 : option Z) : status_t * world :=
  match ipv4 with
  | None => (STATUS_INVALID_PARAMETER, w)
  | Some a =>
      if negb (initialized (table w)) then (STATUS_NOT_INITIALIZED, w)
      else
        match arp_find_entry (table w) a with
        | None => (STATUS_NOT_FOUND, w)
        | Some _ =>
            let i := bucket_of a in
            let t := table w in
            (STATUS_SUCCESS,
             bump inc_entries_removed
               (with_table w
                  (with_chains t
                     (<[i := remove_first a (chain_at t i)]> (hash_table t))
                     (u16 (entry_count t - 1)))))
        end
  end.

Definition arp_flush (w : world) : status_t * world :=
  if negb (initialized (table w)) then (STATUS_NOT_INITIALIZED, w)
  else (STATUS_SUCCESS,
        bump inc_cache_flushes
          (with_table w
             (with_chains (table w)
                (replicate (length (hash_table (table w))) []) 0))).

(** What [arp_age_entries] does with one entry: [None] when the entry is
    unlinked, the entry as it stays otherwise, and whether a request was
    retried for it. *)
Definition age_entry (now limit : Z) (e : arp_entry_t)
  : option arp_entry_t * bool :=
  if bool_decide (state e = ARP_STATE_REACHABLE)
     && (limit <? sub32 now (updated_time e))
  then (None, false)
  else if bool_decide (state e = ARP_STATE_INCOMPLETE)
          && (ARP_REQUEST_RETRY_INTERVAL_MS / 1000 <? sub32 now (updated_time e))
  then
    if retry_count e <? ARP_REQUEST_RETRY_COUNT
    then (Some {| ip := ip e; mac := mac e; state := state e;
                  created_time := created_time e; updated_time := now;
                  port_index := port_index e;
                  retry_count := (retry_count e + 1) mod 2 ^ 8 |}, true)
    else (Some {| ip := ip e; mac := mac e; state := ARP_STATE_FAILED;
                  created_time := created_time e;
                  updated_time := updated_time e;
                  port_index := port_index e;
                  retry_count := retry_count e |}, false)
  else (Some e, false).

(** Running totals of the aging pass: entries unlinked, requests retried,
    and the calls they made. *)
Record aging : Type := {
  aged_count : Z;
  retried : Z;
  aging_events : list arp_event
}.

Fixpoint age_chain (E : arp_env) (now limit : Z) (chain : list arp_entry_t)
    (acc : aging) : list arp_entry_t * aging :=
  match chain with
  | [] => ([], acc)
  | e :: rest =>
      match age_entry now limit e with
      | (None, _) =>
          age_chain E now limit rest
            {| aged_count := u32 (aged_count acc + 1); retried := retried acc;
               aging_events := aging_events acc |}
      | (Some e', sent) =>
          let acc' :=
            if sent then
              {| aged_count := aged_count acc; retried := retried acc + 1;
                 aging_events :=
                   aging_events acc
                   ++ snd (arp_send_request E (Some (ip e)) (port_index e)) |}
            else acc in
          let '(rest', acc'') := age_chain E now limit rest acc' in
          (e' :: rest', acc'')
      end
  end.

Fixpoint age_buckets (E : arp_env) (now limit : Z)
    (chains : list (list arp_entry_t)) (acc : aging)
  : list (list arp_entry_t) * aging :=
  match chains with
  | [] => ([], acc)
  | c :: rest =>
      let '(c', acc') := age_chain E now limit c acc in
      let '(rest', acc'') := age_buckets E now limit rest acc' in
      (c' :: rest', acc'')
  end.

Definition arp_age_entries (E : arp_env) (w : world) : status_t * world :=
  if negb (initialized (table w)) then (STATUS_NOT_INITIALIZED, w)
  else
    let '(now, w1) := get_current_time w in
    let t := table w1 in
    let '(chains, acc) :=
      age_buckets E now (timeout t) (hash_table t)
        {| aged_count := 0; retried := 0; aging_events := [] |} in
    let t1 := with_chains t chains (u16 (entry_count t - aged_count acc)) in
    let s1 := add_requests_sent (retried acc) (stats t1) in
    let s2 := if 0 <? aged_count acc then add_entries_aged (aged_count acc) s1 else s1 in
    (STATUS_SUCCESS, emit (with_table w1 (with_stats t1 s2)) (aging_events acc)).

Definition arp_packet_well_formed (a : arp_packet_t) : bool :=
  (hw_type a =? ARP_HARDWARE_TYPE_ETHERNET)
  && (protocol_type a =? ARP_PROTOCOL_TYPE_IPV4)
  && (hw_addr_len a =? ARP_HARDWARE_SIZE_ETHERNET)
  && (proto_addr_len a =? ARP_PROTOCOL_SIZE_IPV4).

(** [arp_process_packet] casts [packet->data] to [arp_packet_t] without
    looking at the pointer or at the capacity; a null pointer or a block
    shorter than the structure makes the reads undefined. The status of the
    inner [arp_add_entry] is dropped, as in the source. *)
Definition arp_process_packet (E : arp_env) (w : world)
    (packet : option Packet.packet_buffer_t) (port : Z)
  : outcome (status_t * world) :=
  match packet with
  | None => Ret (STATUS_INVALID_PARAMETER, w)
  | Some p =>
      if negb (initialized (table w)) then Ret (STATUS_NOT_INITIALIZED, w)
      else if Packet.size p <? sizeof_arp_packet_t
      then Ret (STATUS_INVALID_PACKET, bump inc_invalid_packets w)
      else
        match Packet.data p with
        | None => Undefined
        | Some d =>
            match mem_read d 0 sizeof_arp_packet_t with
            | None => Undefined
            | Some bytes =>
                let a := env_arp_view E bytes in
                if negb (arp_packet_well_formed a)
                then Ret (STATUS_INVALID_PACKET, bump inc_invalid_packets w)
                else
                  let w1 :=
                    snd (arp_add_entry w (Some (sender_ip a))
                           (Some (sender_mac a)) port) in
                  if operation a =? ARP_OP_REQUEST then
                    let w2 := bump inc_requests_received w1 in
                    let is_our_ip := false in
                    if is_our_ip then
                      let '(_, evs) :=
                        arp_send_reply E (Some (sender_ip a))
                          (Some (sender_mac a)) (Some (target_ip a)) port in
                      Ret (STATUS_SUCCESS, bump inc_replies_sent (emit w2 evs))
                    else Ret (STATUS_SUCCESS, w2)
                  else if operation a =? ARP_OP_REPLY then
                    Ret (STATUS_SUCCESS, bump inc_replies_received w1)
                  else Ret (STATUS_INVALID_PACKET, bump inc_invalid_packets w1)
            end
        end
  end.

(** [arp_handle_frame] reads [packet->metadata.port] before any check. *)
Definition arp_handle_frame (E : arp_env) (w : world)
    (packet : option Packet.packet_buffer_t) : outcome (status_t * world) :=
  match packet with
  | None => Undefined
  | Some p => arp_process_packet E w packet (Packet.port (Packet.metadata p))
  end.

(** *** Sequences of cache operations *)

Inductive arp_op : Type :=
  | OpAddOrUpdate (ipv4 hw port : Z)
  | OpLookup (ipv4 : Z)
  | OpAge
  | OpFlush
  | OpRemove (ipv4 : Z).

Definition run_op (E : arp_env) (w : world) (op : arp_op) : world :=
  match op with
  | OpAddOrUpdate a hw port => snd (arp_add_entry w (Some a) (Some hw) port)
  | OpLookup a =>
      let '(_, w', _, _) := arp_lookup E w (Some a) true true in w'
  | OpAge => snd (arp_age_entries E w)
  | OpFlush => snd (arp_flush w)
  | OpRemove a => snd (arp_remove_entry w (Some a))
  end.

Definition run_ops (E : arp_env) (w : world) (ops : list arp_op) : world :=
  foldl (run_op E) w ops.

(** The state in which the cache holds an address, if it holds it. *)
Definition entry_state (w : world) (ipv4 : Z) : option arp_state_t :=
  state <$> arp_find_entry (table w) ipv4.

(** *** Vocabulary of the cache properties, and sample values *)

(** The changes that one operation makes to the state in which the cache
    holds an address ([None] when it does not hold it): none; a lookup
    creates an Incomplete entry; [arp_add_entry] makes any entry Reachable,
    or creates it so; aging gives up on an Incomplete entry; aging, removal,
    flush and recycling unlink an entry. *)
Inductive arp_step : option arp_state_t -> option arp_state_t -> Prop :=
  | step_same s : arp_step s s
  | step_resolve : arp_step None (Some ARP_STATE_INCOMPLETE)
  | step_learn s : arp_step s (Some ARP_STATE_REACHABLE)
  | step_fail : arp_step (Some ARP_STATE_INCOMPLETE) (Some ARP_STATE_FAILED)
  | step_evict s : arp_step s None.

(** The search of [arp_find_entry] in one chain. *)
Definition chain_find (a : Z) (c : list arp_entry_t) : option arp_entry_t :=
  find (fun e => ip e =? a) c.

(** The same, for an entry that stays linked. *)
Definition entry_step (s s' : arp_state_t) : Prop :=
  s' = s \/ s' = ARP_STATE_REACHABLE
  \/ (s = ARP_STATE_INCOMPLETE /\ s' = ARP_STATE_FAILED).

(** [c'] holds entries of [c], possibly refreshed, and entries for addresses
    that [c] did not hold. *)
Definition chain_step (c c' : list arp_entry_t) : Prop :=
  NoDup (ip <$> c')
  /\ forall e', e' ∈ c' ->
       (exists e, e ∈ c /\ ip e = ip e' /\ entry_step (state e) (state e'))
       \/ ((forall e, e ∈ c -> ip e <> ip e')
           /\ (state e' = ARP_STATE_INCOMPLETE \/ state e' = ARP_STATE_REACHABLE)).

(** The chain of bucket [k]. *)
Definition lookup_chain (cs : list (list arp_entry_t)) (k : nat) : list arp_entry_t :=
  default [] (cs !! k).

(** The table has its 1024 buckets, and no chain holds an address twice. *)
Definition chains_inv (cs : list (list arp_entry_t)) : Prop :=
  length cs = Z.to_nat ARP_CACHE_SIZE
  /\ Forall (fun c => NoDup (ip <$> c)) cs.

Definition chains_step (cs cs' : list (list arp_entry_t)) : Prop :=
  chains_inv cs'
  /\ forall k, chain_step (lookup_chain cs k) (lookup_chain cs' k).

(** The chain that the aging pass leaves. *)
Definition aged_chain (now limit : Z) (c : list arp_entry_t) : list arp_entry_t :=
  omap (fun e => fst (age_entry now limit e)) c.

Definition table_inv (t : arp_table_t) : Prop := chains_inv (hash_table t).

(** Requests that reached the simulated hardware. *)
Definition on_wire_request (ev : arp_event) : bool :=
  match ev with
  | RequestTransmit _ _ _ true => true
  | _ => false
  end.

(** Calls to [port_send_packet_ext]. *)
Definition is_reply (ev : arp_event) : bool :=
  match ev with
  | ReplySend _ _ _ _ _ _ => true
  | _ => false
  end.

Definition wire_requests (evs : list arp_event) : nat :=
  length (filter (fun ev => on_wire_request ev = true) evs).

(** Whether a request for port [port] gets as far as the hardware: the packet
    subsystem is up, the allocator grants the buffer, and the port is valid
    and up. *)
Definition transmit_ready (E : arp_env) (port : Z) : bool :=
  Packet.g_initialized (env_packet E)
  && heap_grant_header (env_heap E)
  && heap_grant (env_heap E) (sizeof_ethernet_header_t + sizeof_arp_packet_t)
  && Packet.port_is_valid (env_ports E) port
  && match Packet.port_get_state (env_ports E) port with
     | (STATUS_SUCCESS, Packet.PORT_STATE_UP) => true
     | _ => false
     end.

(** No reply among the calls. *)
Definition quiet (evs : list arp_event) : Prop :=
  Forall (fun ev => is_reply ev = false) evs.

(** Ports that all exist, and are all up or all down. *)
Definition ports_all (up : bool) : Packet.port_env :=
  {| Packet.port_is_valid := fun _ => true;
     Packet.port_get_state := fun _ =>
       (STATUS_SUCCESS,
        if up then Packet.PORT_STATE_UP else Packet.PORT_STATE_DOWN);
     Packet.hw_sim_transmit_packet := fun _ => STATUS_SUCCESS |}.

(** Big-endian and little-endian reading of a field. *)
Definition bytes_be (bs : list byte) : Z :=
  foldl (fun acc b => 256 * acc + Z.of_N (Stdlib.Strings.Byte.to_N b)) 0 bs.

Definition bytes_le (bs : list byte) : Z := bytes_be (reverse bs).

Definition field (off n : nat) (bs : list byte) : list byte :=
  take n (drop off bs).

(** [arp_packet_t] over received bytes on a little-endian target with natural
    alignment: the 16-bit fields through [ntohs], the addresses as [memcpy]
    leaves them. *)
Definition host_view (bs : list byte) : arp_packet_t :=
  {| hw_type := bytes_be (field 0 2 bs);
     protocol_type := bytes_be (field 2 2 bs);
     hw_addr_len := bytes_be (field 4 1 bs);
     proto_addr_len := bytes_be (field 5 1 bs);
     operation := bytes_be (field 6 2 bs);
     sender_mac := bytes_be (field 8 6 bs);
     sender_ip := bytes_le (field 16 4 bs);
     target_mac := bytes_be (field 20 6 bs);
     target_ip := bytes_le (field 28 4 bs) |}.

(** An environment in which we are 10.0.0.1 (02:00:00:00:00:01), with the
    packet subsystem initialized or not, and the ports up or down. *)
Definition sample_env (packet_up port_up : bool) : arp_env :=
  {| env_heap := heap_ok;
     env_ports := ports_all port_up;
     env_packet := if packet_up then Packet.init_state else Packet.boot_state;
     env_our_mac := 0x020000000001;
     env_our_ip := 0x0a000001;
     env_port_send_packet_ext := fun _ => STATUS_SUCCESS;
     env_arp_view := host_view |}.

(** The cache after [arp_init]. *)
Definition init_world : world := snd (arp_init true boot_world).

(** A request from 10.0.0.2 (02:00:00:00:00:02) for 10.0.0.1. *)
Definition request_bytes : list byte :=
  [Byte.x00; Byte.x01; Byte.x08; Byte.x00; Byte.x06; Byte.x04; Byte.x00; Byte.x01;
   Byte.x02; Byte.x00; Byte.x00; Byte.x00; Byte.x00; Byte.x02; Byte.x00; Byte.x00;
   Byte.x02; Byte.x00; Byte.x00; Byte.x0a;
   Byte.x00; Byte.x00; Byte.x00; Byte.x00; Byte.x00; Byte.x00; Byte.x00; Byte.x00;
   Byte.x01; Byte.x00; Byte.x00; Byte.x0a].

(** The request as received on port 3. *)
Definition request_packet : Packet.packet_buffer_t :=
  {| Packet.data := Some request_bytes; Packet.size := 32;
     Packet.capacity := 32;
     Packet.metadata :=
       {| Packet.port := 3; Packet.direction := Packet.PACKET_DIR_RX;
          Packet.vlan := 1; Packet.priority := 0;
          Packet.src_mac := 0x020000000002; Packet.dst_mac := 2 ^ 48 - 1;
          Packet.ethertype := 0x0806; Packet.is_tagged := false;
          Packet.is_dropped := false; Packet.timestamp := 0 |};
     Packet.user_data := None |}.

(** The world that a call has left. *)
Definition world_after (r : outcome (status_t * world)) : world :=
  match r with
  | Ret (_, w) => w
  | Undefined => boot_world
  end.

(** The changes of state that the specification allows for an entry:
    Incomplete to Reachable or Failed, Reachable to Stale, Stale to Delay or
    Failed, Delay to Probe, Probe to Reachable or Failed, and any state to
    Incomplete (on flush). *)
Definition spec_transition (s s' : arp_state_t) : bool :=
  match s, s' with
  | ARP_STATE_INCOMPLETE, ARP_STATE_REACHABLE
  | ARP_STATE_INCOMPLETE, ARP_STATE_FAILED
  | ARP_STATE_REACHABLE, ARP_STATE_STALE
  | ARP_STATE_STALE, ARP_STATE_DELAY
  | ARP_STATE_STALE, ARP_STATE_FAILED
  | ARP_STATE_DELAY, ARP_STATE_PROBE
  | ARP_STATE_PROBE, ARP_STATE_REACHABLE
  | ARP_STATE_PROBE, ARP_STATE_FAILED
  | _, ARP_STATE_INCOMPLETE => true
  | _, _ => false
  end.

(** A lookup of 10.0.0.2 that nobody answers, followed by eight aging passes:
    three retries, then the entry is marked Failed. *)
Definition failed_world : world :=
  run_ops (sample_env true true) init_world
    (OpLookup 0x0a000002 :: replicate 8 OpAge).

(** *** Further operations of [arp.c], and the vocabulary of their properties *)

(** The address that an operation names. *)
Definition op_target (op : arp_op) : option Z :=
  match op with
  | OpAddOrUpdate a _ _ => Some a
  | OpLookup a => Some a
  | OpRemove a => Some a
  | OpAge | OpFlush => None
  end.

Definition ARP_STATUS_CACHE_MISS : Z := 0x00010002.

(** [arp_resolve_next_hop], on the global table. [mac_addr] says whether the
    output pointer is non-null; the last component is the MAC stored through
    it. The comparisons are on the numeric status; no [status_t] of this
    development has the value of [ARP_STATUS_CACHE_MISS]. *)
Definition arp_resolve_next_hop (E : arp_env) (w : world)
    (ip_addr : option Z) (port_index : Z) (mac_addr : bool)
  : status_t * world * option Z :=
  match ip_addr with
  | None => (ERROR_INVALID_PARAMETER, w, None)
  | Some a =>
      if negb mac_addr then (ERROR_INVALID_PARAMETER, w, None)
      else
        let '(status, w1, m, _) := arp_lookup E w (Some a) true true in
        if status_code status =? status_code STATUS_SUCCESS
        then (STATUS_SUCCESS, w1, m)
        else if status_code status =? ARP_STATUS_CACHE_MISS then
          let '(_, evs) := arp_send_request E (Some a) port_index in
          (ARP_STATUS_PENDING, emit w1 evs, m)
        else (status, w1, m)
  end.

(** [arp_resolve_async]: a request on the given port, and nothing else. *)
Definition arp_resolve_async (E : arp_env) (w : world)
    (target_ip : option Z) (port_index : Z) : status_t * world :=
  match target_ip with
  | None => (STATUS_INVALID_PARAMETER, w)
  | Some a =>
      let '(status, evs) := arp_send_request E (Some a) port_index in
      (status, emit w evs)
  end.

(** The counter agrees with the chains, and the pool is not exceeded. *)
Definition count_inv (t : arp_table_t) : Prop :=
  entry_count t = total_entries t /\ total_entries t <= ARP_CACHE_SIZE.

(** Every entry was stamped before the present tick. *)
Definition clock_inv (w : world) : Prop :=
  0 <= time_counter w < 2 ^ 32
  /\ Forall (Forall (fun e => 0 <= updated_time e < time_counter w))
       (hash_table (table w)).

(** A consistent cache: the table has its 1024 chains, none of which holds
    an address twice; the counter is the number of linked entries, at most
    1024; the clock is a 32-bit value above every stamp. *)
Definition cache_inv (w : world) : Prop :=
  table_inv (table w) /\ count_inv (table w) /\ clock_inv w.

(** What the search of [find_oldest] holds at any moment: no position
    while the bound is still [UINT32_MAX], or the position of an entry whose
    stamp is the bound. *)
Definition best_ok (cs : list (list arp_entry_t)) (best : Z * option (nat * nat))
  : Prop :=
  match snd best with
  | None => fst best = UINT32_MAX
  | Some (i, j) =>
      exists e, lookup_chain cs i !! j = Some e /\ updated_time e = fst best
  end.

(** Every entry of the chains has its stamp below [bound]. *)
Definition stamped_below (bound : Z) (cs : list (list arp_entry_t)) : Prop :=
  Forall (Forall (fun e => 0 <= updated_time e < bound)) cs.

(** What one operation does to the counters and the stamps. *)
Definition op_effect (w w' : world) : Prop :=
  entry_count (table w') = total_entries (table w')
  /\ total_entries (table w') <= ARP_CACHE_SIZE
  /\ time_counter w <= time_counter w' <= time_counter w + 1
  /\ stamped_below (time_counter w') (hash_table (table w')).

(** [table->stats.current_entries = n]. *)
Definition set_current_entries (n : Z) (s : arp_stats_t) : arp_stats_t :=
  {| requests_sent := requests_sent s;
     requests_received := requests_received s; replies_sent := replies_sent s;
     replies_received := replies_received s; cache_hits := cache_hits s;
     cache_misses := cache_misses s; cache_flushes := cache_flushes s;
     cache_full_errors := cache_full_errors s;
     invalid_packets := invalid_packets s; entries_added := entries_added s;
     entries_removed := entries_removed s; entries_aged := entries_aged s;
     current_entries := n |}.

(** [arp_get_stats]: [stats_out] tells whether the caller passed a block for
    the copy. The table keeps the refreshed [current_entries]. *)
Definition arp_get_stats (w : world) (stats_out : bool)
  : status_t * world * option arp_stats_t :=
  if negb stats_out then (STATUS_INVALID_PARAMETER, w, None)
  else if negb (initialized (table w)) then (STATUS_NOT_INITIALIZED, w, None)
  else
    let w1 := bump (set_current_entries (entry_count (table w))) w in
    (STATUS_SUCCESS, w1, Some (stats (table w1))).

(** The cache after 1024 distinct addresses were learned. *)
Definition full_world : world :=
  run_ops (sample_env true true) init_world
    ((fun n => OpAddOrUpdate (Z.of_nat n) 1 0) <$> seq 0 1024).

(** The states of the public interface, and [arp_state_to_public]. *)
Definition ARP_ENTRY_STATE_INCOMPLETE : Z := 0.

Definition ARP_ENTRY_STATE_REACHABLE : Z := 1.

Definition ARP_ENTRY_STATE_STALE : Z := 2.

Definition ARP_ENTRY_STATE_DELAY : Z := 3.

Definition ARP_ENTRY_STATE_PROBE : Z := 4.

Definition ARP_ENTRY_STATE_FAILED : Z := 5.

Definition arp_state_to_public (s : arp_state_t) : Z :=
  match s with
  | ARP_STATE_INCOMPLETE => ARP_ENTRY_STATE_INCOMPLETE
  | ARP_STATE_REACHABLE => ARP_ENTRY_STATE_REACHABLE
  | ARP_STATE_STALE => ARP_ENTRY_STATE_STALE
  | ARP_STATE_DELAY => ARP_ENTRY_STATE_DELAY
  | ARP_STATE_PROBE => ARP_ENTRY_STATE_PROBE
  | ARP_STATE_FAILED => ARP_ENTRY_STATE_FAILED
  end.

(** [arp_entry_info_t], the record of the public interface. *)
Record arp_entry_info_t : Type := {
  info_ip : Z;
  info_mac : Z;
  info_port_index : Z;
  info_age : Z;
  info_is_static : bool;
  info_state : Z
}.

(** The record that [arp_get_all_entries] leaves in a slot of the caller's
    array for the entry [e]: every field but [is_static] is assigned. *)
Definition info_of (now : Z) (old : arp_entry_info_t) (e : arp_entry_t)
  : arp_entry_info_t :=
  {| info_ip := ip e; info_mac := mac e; info_port_index := port_index e;
     info_age := sub32 now (updated_time e);
     info_is_static := info_is_static old;
     info_state := arp_state_to_public (state e) |}.

(** The inner loop of [arp_get_all_entries] over one chain: the clock, the
    caller's array and [count]. A write past the end of the array is
    undefined. *)
Fixpoint dump_chain (max_entries : Z) (chain : list arp_entry_t)
    (st : world * list arp_entry_info_t * Z)
  : outcome (world * list arp_entry_info_t * Z) :=
  match chain with
  | [] => Ret st
  | e :: rest =>
      let '(w, entries, count) := st in
      if count <? max_entries then
        match entries !! Z.to_nat count with
        | None => Undefined
        | Some old =>
            let '(now, w1) := get_current_time w in
            dump_chain max_entries rest
              (w1, <[Z.to_nat count := info_of now old e]> entries,
               u16 (count + 1))
        end
      else Ret st
  end.

(** The outer loop, over the buckets. *)
Fixpoint dump_buckets (max_entries : Z) (chains : list (list arp_entry_t))
    (st : world * list arp_entry_info_t * Z)
  : outcome (world * list arp_entry_info_t * Z) :=
  match chains with
  | [] => Ret st
  | c :: rest =>
      let '(_, _, count) := st in
      if count <? max_entries then
        match dump_chain max_entries c st with
        | Undefined => Undefined
        | Ret st1 => dump_buckets max_entries rest st1
        end
      else Ret st
  end.

(** [arp_get_all_entries]: [entries] is the caller's array, [num_entries]
    tells whether the caller passed a place for the count. *)
Definition arp_get_all_entries (w : world)
    (entries : option (list arp_entry_info_t)) (max_entries : Z)
    (num_entries : bool)
  : outcome (status_t * world * option (list arp_entry_info_t) * option Z) :=
  match entries with
  | None => Ret (STATUS_INVALID_PARAMETER, w, None, None)
  | Some arr =>
      if negb num_entries then Ret (STATUS_INVALID_PARAMETER, w, entries, None)
      else if negb (initialized (table w))
      then Ret (STATUS_NOT_INITIALIZED, w, entries, None)
      else
        match dump_buckets max_entries (hash_table (table w)) (w, arr, 0) with
        | Undefined => Undefined
        | Ret (w1, arr1, count) =>
            Ret (STATUS_SUCCESS, w1, Some arr1, Some count)
        end
  end.

(** The array after the entries [es] have been copied to its first slots,
    the first at time [now]. *)
Fixpoint written (now : Z) (es : list arp_entry_t)
    (olds : list arp_entry_info_t) : list arp_entry_info_t :=
  match es, olds with
  | e :: es', old :: olds' =>
      info_of now old e :: written (add32 now 1) es' olds'
  | _, _ => olds
  end.

(** The world after [n] readings of the clock. *)
Definition ticks (n : nat) (w : world) : world :=
  Nat.iter n (fun w => snd (get_current_time w)) w.

(** The entry that the aging pass leaves for an unanswered request: the
    request is sent again while fewer than [ARP_REQUEST_RETRY_COUNT] = 3
    retries were made, and the entry is marked Failed after that. *)
Definition retried_or_failed (now : Z) (e : arp_entry_t) : arp_entry_t :=
  if retry_count e <? 3
  then {| ip := ip e; mac := mac e; state := ARP_STATE_INCOMPLETE;
          created_time := created_time e; updated_time := now;
          port_index := port_index e;
          retry_count := (retry_count e + 1) mod 2 ^ 8 |}
  else {| ip := ip e; mac := mac e; state := ARP_STATE_FAILED;
          created_time := created_time e; updated_time := updated_time e;
          port_index := port_index e; retry_count := retry_count e |}.

(** A lookup of 10.0.0.2 that nobody answers, followed by seven aging
    passes: the three retries were made. *)
Definition retried_world : world :=
  run_ops (sample_env true true) init_world
    (OpLookup 0x0a000002 :: replicate 7 OpAge).

(** *** Further sample values *)

(** The cache after 10.0.0.2 was learned on port 3. *)
Definition learned_world : world :=
  snd (arp_add_entry init_world (Some 0x0a000002) (Some 0x020000000002) 3).

(** A cleared slot of a caller's array. *)
Definition zero_info : arp_entry_info_t :=
  {| info_ip := 0; info_mac := 0; info_port_index := 0; info_age := 0;
     info_is_static := false; info_state := 0 |}.

End Arp.

(** * Properties of the packet buffers and of the pipeline *)

Module PacketTheory.
Import Packet.

(** ** Heap blocks and machine arithmetic *)

Lemma mem_read_Some blk off n bytes :
  mem_read blk off n = Some bytes ->
  0 <= off /\ 0 <= n /\ off + n <= Z.of_nat (length blk)
  /\ bytes = take (Z.to_nat n) (drop (Z.to_nat off) blk)
  /\ length bytes = Z.to_nat n.
Proof.
  unfold mem_read. intros H.
  destruct (0 <=? off) eqn:H1; [|discriminate].
  destruct (0 <=? n) eqn:H2; [|discriminate].
  destruct (off + n <=? Z.of_nat (length blk)) eqn:H3; [|discriminate].
  simpl in H. injection H as <-.
  apply Z.leb_le in H1, H2, H3.
  repeat split; try lia.
  rewrite length_take, length_drop. lia.
Qed.

Lemma mem_write_Some blk off src blk' :
  mem_write blk off src = Some blk' ->
  0 <= off /\ off + Z.of_nat (length src) <= Z.of_nat (length blk)
  /\ blk' = take (Z.to_nat off) blk ++ src
            ++ drop (Z.to_nat off + length src)%nat blk
  /\ length blk' = length blk.
Proof.
  unfold mem_write. intros H.
  destruct (0 <=? off) eqn:H1; [|discriminate].
  destruct (off + Z.of_nat (length src) <=? Z.of_nat (length blk)) eqn:H2;
    [|discriminate].
  simpl in H. injection H as <-.
  apply Z.leb_le in H1, H2.
  repeat split; try lia.
  rewrite !length_app, length_take, length_drop. lia.
Qed.

Lemma mem_move_Some blk dst src n blk' :
  mem_move blk dst src n = Some blk' ->
  0 <= src /\ 0 <= n /\ src + n <= Z.of_nat (length blk)
  /\ 0 <= dst /\ dst + n <= Z.of_nat (length blk)
  /\ blk' = take (Z.to_nat dst) blk
            ++ take (Z.to_nat n) (drop (Z.to_nat src) blk)
            ++ drop (Z.to_nat dst + Z.to_nat n)%nat blk
  /\ length blk' = length blk.
Proof.
  unfold mem_move. intros H.
  destruct (mem_read blk src n) as [bytes|] eqn:Hr; [|discriminate].
  apply mem_read_Some in Hr as (? & ? & ? & -> & Hlen).
  apply mem_write_Some in H as (? & Hw & -> & ?).
  rewrite Hlen in *. repeat split; try lia. 
Qed.

Lemma u32_small x : 0 <= x < 2 ^ 32 -> u32 x = x.
Proof. intros. unfold u32. apply Z.mod_small. lia. Qed.

Lemma u32_range x : 0 <= u32 x < 2 ^ 32.
Proof. unfold u32. apply Z.mod_pos_bound. lia. Qed.

Lemma malloc_length h n d : 0 <= n -> malloc h n = Some d -> Z.of_nat (length d) = n.
Proof.
  unfold malloc. intros Hn H. destruct (heap_grant h n); [|discriminate].
  injection H as <-. rewrite length_map, length_seq. lia.
Qed.

Lemma realloc_length h old n d :
  Z.of_nat (length old) <= n -> realloc h old n = Some d -> Z.of_nat (length d) = n.
Proof.
  unfold realloc. intros Hn H. destruct (heap_grant h n); [|discriminate].
  injection H as <-. rewrite length_app, length_take, length_map, length_seq. lia.
Qed.

Lemma realloc_prefix h old n d :
  Z.of_nat (length old) <= n -> realloc h old n = Some d -> take (length old) d = old.
Proof.
  unfold realloc. intros Hn H. destruct (heap_grant h n); [|discriminate].
  injection H as <-. rewrite (take_ge old) by lia. apply take_app_length.
Qed.

(** ** The buffer operations keep the invariant *)

Lemma is_valid_of_inv p : buffer_inv p -> packet_buffer_is_valid (Some p) = true.
Proof.
  intros (d & Hd & _ & Hs & _). simpl. rewrite Hd.
  apply negb_true_iff, Z.ltb_ge. lia.
Qed.

Lemma alloc_inv h st len p :
  in_u32 len -> packet_buffer_alloc h st len = Some p ->
  0 < len /\ capacity p = len /\ size p = 0 /\ buffer_inv p.
Proof.
  unfold packet_buffer_alloc, in_u32. intros Hlen H.
  destruct (negb (g_initialized st)); [discriminate|].
  destruct (len =? 0) eqn:Hz; [discriminate|]. apply Z.eqb_neq in Hz.
  destruct (negb (heap_grant_header h)); [discriminate|].
  destruct (malloc h len) as [d|] eqn:Hm; [|discriminate].
  injection H as <-. simpl. repeat split; try lia.
  exists d. simpl. split; [done|]. apply malloc_length in Hm; lia.
Qed.

Lemma mem_read_at (A R : list byte) off n :
  Z.of_nat (length A) = off -> 0 <= n <= Z.of_nat (length R) ->
  mem_read (A ++ R) off n = Some (take (Z.to_nat n) R).
Proof.
  intros HA Hn. unfold mem_read. rewrite length_app.
  replace (0 <=? off) with true by (symmetry; apply Z.leb_le; lia).
  replace (0 <=? n) with true by (symmetry; apply Z.leb_le; lia).
  replace (off + n <=? Z.of_nat (length A + length R)) with true
    by (symmetry; apply Z.leb_le; lia).
  simpl. replace (Z.to_nat off) with (length A) by lia.
  by rewrite drop_app_length.
Qed.


Lemma append_inv st p s len status q :
  buffer_inv p -> in_u32 len ->
  packet_append_data st (Some p) (Some s) len = Ret (status, Some q) ->
  buffer_inv q.
Proof.
  intros Hp Hlen H. pose proof Hp as (d & Hd & Hcap & Hs & Hmax).
  unfold packet_append_data in H. rewrite Hd in H.
  repeat case_match; simplify_eq; try done.
  match goal with H : mem_read _ _ _ = Some _ |- _ =>
    apply mem_read_Some in H as (_ & _ & _ & _ & Hb) end.
  match goal with H : mem_write _ _ _ = Some _ |- _ =>
    apply mem_write_Some in H as (_ & Hw & _ & Hl) end.
  match goal with H : (_ <? _) = false |- _ => apply Z.ltb_ge in H end.
  pose proof (u32_range (size p + len)).
  exists l0. simpl. unfold add32 in *. repeat split; try done; lia.
Qed.

Lemma resize_inv h st p n status q :
  buffer_inv p -> in_u32 n ->
  packet_buffer_resize h st (Some p) n = (status, Some q) ->
  buffer_inv q.
Proof.
  intros Hp Hn H. pose proof Hp as (d & Hd & Hcap & Hs & Hmax).
  unfold packet_buffer_resize in H. rewrite Hd in H. unfold in_u32 in Hn.
  repeat case_match; simplify_eq; try done.
  - exists d. simpl. repeat split; try done; lia.
  - match goal with H : realloc _ _ _ = Some _ |- _ =>
      apply realloc_length in H; [|lia] end.
    eexists. simpl. repeat split; try done; lia.
Qed.

Lemma reset_inv st p q :
  buffer_inv p -> packet_reset st (Some p) = Ret (Some q) -> buffer_inv q.
Proof.
  intros Hp H. pose proof Hp as (d & Hd & Hcap & Hs & Hmax).
  unfold packet_reset in H. rewrite Hd in H.
  repeat case_match; simplify_eq; try done.
  match goal with H : mem_write _ _ _ = Some _ |- _ =>
    apply mem_write_Some in H as (_ & _ & _ & Hl) end.
  eexists. simpl. repeat split; try done; lia.
Qed.

Lemma remove_inv st p off len status q :
  buffer_inv p -> in_u32 off -> in_u32 len -> off + len < 2 ^ 32 ->
  packet_remove st (Some p) off len = Ret (status, Some q) ->
  buffer_inv q.
Proof.
  intros Hp Hoff Hlen Hsum H. pose proof Hp as (d & Hd & Hcap & Hs & Hmax).
  unfold packet_remove in H. rewrite Hd in H. unfold in_u32 in *.
  unfold add32 in H. rewrite (u32_small (off + len)) in H by lia.
  repeat case_match; simplify_eq; try done.
  - match goal with H : mem_move _ _ _ _ = Some _ |- _ =>
      apply mem_move_Some in H as (_ & _ & _ & _ & _ & _ & Hl) end.
    match goal with H : (_ <? _) = false |- _ => apply Z.ltb_ge in H end.
    exists l. simpl. unfold sub32. rewrite u32_small by lia.
    repeat split; try done; lia.
  - match goal with H : (size p <? _) = false |- _ => apply Z.ltb_ge in H end.
    eexists. simpl. unfold sub32. rewrite u32_small by lia.
    repeat split; try done; lia.
Qed.

(** What a successful insertion looks like: it never went through the
    reallocation, the new length is the true sum, and the block is the old
    one with the bytes spliced in. *)
Lemma insert_success h st p off s len q :
  buffer_inv p -> in_u32 off -> 0 <= len ->
  packet_insert h st (Some p) off (Some s) len = Ret (STATUS_SUCCESS, Some q) ->
  exists d, data p = Some d
    /\ 0 < len /\ off <= size p /\ size p + len <= capacity p
    /\ len <= Z.of_nat (length s)
    /\ size q = size p + len /\ capacity q = capacity p
    /\ metadata q = metadata p /\ user_data q = user_data p
    /\ data q = Some (take (Z.to_nat off) d ++ take (Z.to_nat len) s
                      ++ take (Z.to_nat (size p - off)) (drop (Z.to_nat off) d)
                      ++ drop (Z.to_nat (size p + len)) d).
Proof.
  intros Hp Hoff Hlen H. pose proof Hp as (d & Hd & Hcap & Hs & Hmax).
  pose proof (is_valid_of_inv p Hp) as Hv.
  unfold packet_insert in H. rewrite Hv in H. unfold in_u32 in *.
  destruct (negb (g_initialized st)) eqn:Hi; [discriminate|]. simpl in H.
  destruct (len =? 0) eqn:Hz; [discriminate|]. apply Z.eqb_neq in Hz.
  destruct (size p <? off) eqn:Ho; [discriminate|]. apply Z.ltb_ge in Ho.
  pose proof (u32_range (size p + len)) as Hr.
  destruct (capacity p <? add32 (size p) len) eqn:Hc.
  - (* the reallocating path always leaves the block *)
    exfalso. apply Z.ltb_lt in Hc.
    unfold packet_buffer_resize in H. rewrite Hv, Hi, Hd in H. simpl in H.
    destruct (add32 (size p) len =? 0) eqn:Hn0; [discriminate|].
    destruct (add32 (size p) len <=? capacity p) eqn:Hle;
      [apply Z.leb_le in Hle; lia|].
    destruct (realloc h d (add32 (size p) len)) as [nd|] eqn:Hre; [|discriminate].
    simpl in H. apply realloc_length in Hre; [|lia].
    assert ((off <? add32 (size p) len) = true) as Hlt by (apply Z.ltb_lt; lia).
    rewrite Hlt in H. unfold add32 in *.
    destruct (mem_move nd (off + len) off (sub32 (u32 (size p + len)) off))
      as [d2|] eqn:Hm; [|discriminate].
    apply mem_move_Some in Hm as (_ & _ & _ & _ & Hdst & _).
    unfold sub32 in Hdst. rewrite u32_small in Hdst by lia. lia.
  - apply Z.ltb_ge in Hc. rewrite Hd in H.
    destruct (off <? size p) eqn:Hlt.
    + apply Z.ltb_lt in Hlt.
      destruct (mem_move d (off + len) off (sub32 (size p) off)) as [d2|] eqn:Hm;
        [|discriminate].
      destruct (mem_read s 0 len) as [bytes|] eqn:Hrd; [|discriminate].
      destruct (mem_write d2 off bytes) as [d3|] eqn:Hw; [|discriminate].
      injection H as <-.
      unfold sub32 in Hm. rewrite u32_small in Hm by lia.
      apply mem_move_Some in Hm as (_ & _ & _ & _ & Hdst & -> & Hl2).
      apply mem_read_Some in Hrd as (_ & _ & Hsl & -> & Hbl).
      apply mem_write_Some in Hw as (_ & _ & -> & _).
      assert (add32 (size p) len = size p + len) as Hadd
        by (unfold add32; apply u32_small; lia).
      exists d. simpl. rewrite Hadd. repeat split; try done; try lia.
      f_equal. rewrite Hbl. simpl.
      rewrite take_app_le by (rewrite length_take; lia).
      rewrite take_take. rewrite Nat.min_l by lia.
      f_equal. f_equal.
      rewrite drop_app_ge by (rewrite length_take; lia).
      rewrite length_take. rewrite Nat.min_l by lia.
      replace (Z.to_nat off + Z.to_nat len - Z.to_nat (off + len))%nat with 0%nat by lia.
      rewrite drop_0. f_equal. f_equal. clear -Hoff Hlen Hlt. lia.
    + apply Z.ltb_ge in Hlt. assert (off = size p) as -> by lia.
      destruct (mem_read s 0 len) as [bytes|] eqn:Hrd; [|discriminate].
      destruct (mem_write d (size p) bytes) as [d3|] eqn:Hw; [|discriminate].
      injection H as <-.
      apply mem_read_Some in Hrd as (_ & _ & Hsl & -> & Hbl).
      apply mem_write_Some in Hw as (_ & Hwr & -> & _).
      rewrite Hbl in Hwr.
      assert (add32 (size p) len = size p + len) as Hadd
        by (unfold add32; apply u32_small; lia).
      exists d. simpl. rewrite Hadd. repeat split; try done; try lia.
      f_equal. rewrite Hbl. simpl. f_equal. f_equal.
      replace (Z.to_nat (size p - size p)) with 0%nat by lia. simpl.
      f_equal. lia.
Qed.

Lemma insert_failure h st p off s len status q :
  buffer_inv p ->
  packet_insert h st (Some p) off (Some s) len = Ret (status, Some q) ->
  status <> STATUS_SUCCESS -> q = p.
Proof.
  intros Hp H Hne. pose proof Hp as (d & Hd & Hcap & Hs & Hmax).
  pose proof (is_valid_of_inv p Hp) as Hv.
  unfold packet_insert in H. rewrite Hv in H.
  destruct (negb (g_initialized st)) eqn:Hi; [by simplify_eq|]. simpl in H.
  destruct (len =? 0); [by simplify_eq|].
  destruct (size p <? off); [by simplify_eq|].
  destruct (capacity p <? add32 (size p) len).
  - unfold packet_buffer_resize in H. rewrite Hv, Hi, Hd in H. simpl in H.
    destruct (add32 (size p) len =? 0); [by simplify_eq|].
    destruct (add32 (size p) len <=? capacity p).
    + simpl in H. repeat case_match; simplify_eq.
    + destruct (realloc h d (add32 (size p) len)); [|by simplify_eq].
      simpl in H. repeat case_match; simplify_eq.
  - rewrite Hd in H. repeat case_match; simplify_eq.
Qed.

Lemma insert_inv h st p off s len status q :
  buffer_inv p -> in_u32 off -> in_u32 len ->
  packet_insert h st (Some p) off (Some s) len = Ret (status, Some q) ->
  buffer_inv q.
Proof.
  intros Hp Hoff Hlen H.
  destruct (decide (status = STATUS_SUCCESS)) as [->|Hne].
  - pose proof Hp as (d & Hd & Hcap & Hs & Hmax).
    apply insert_success in H as (d' & Hd' & ? & ? & ? & ? & Hsz & Hc & _ & _ & Hq);
      [|done|done|unfold in_u32 in *; lia].
    assert (d' = d) as -> by congruence.
    eexists. split; [exact Hq|].
    unfold in_u32 in *.
    rewrite !length_app, !length_take, !length_drop.
    repeat split; lia.
  - by rewrite (insert_failure _ _ _ _ _ _ _ _ Hp H Hne).
Qed.

Lemma clone_inv h st p q :
  buffer_inv p -> packet_buffer_clone h st (Some p) = Ret (Some q) ->
  buffer_inv q /\ capacity q = capacity p /\ size q = size p
  /\ packet_bytes q = packet_bytes p /\ metadata q = metadata p
  /\ user_data q = None.
Proof.
  intros Hp H. pose proof Hp as (d & Hd & Hcap & Hs & Hmax).
  pose proof (is_valid_of_inv p Hp) as Hv.
  unfold packet_buffer_clone in H. rewrite Hv, Hd in H.
  destruct (negb (g_initialized st)); [discriminate|]. simpl in H.
  destruct (packet_buffer_alloc h st (capacity p)) as [c|] eqn:Ha; [|discriminate].
  apply alloc_inv in Ha as (Hpos & Hcc & Hcs & (cd & Hcd & Hcl & _)); [|unfold in_u32; lia].
  rewrite Hcd in H.
  destruct (mem_read d 0 (size p)) as [bytes|] eqn:Hr; [|discriminate].
  destruct (mem_write cd 0 bytes) as [cd'|] eqn:Hw; [|discriminate].
  injection H as <-.
  apply mem_read_Some in Hr as (_ & _ & _ & -> & Hbl).
  apply mem_write_Some in Hw as (_ & _ & -> & Hl).
  unfold packet_bytes, buffer_inv. simpl. rewrite Hd.
  repeat split; try done; try lia.
  - eexists. split; [reflexivity|]. simpl in Hl. rewrite Hl. lia.
  - rewrite take_app_length' by (symmetry; exact Hbl). reflexivity.
Qed.

(** What the operations leave of a well-formed buffer. *)
Lemma apply_op_inv h st op p status q :
  buffer_inv p -> op_args_ok op ->
  apply_op h st op p = Ret (status, Some q) -> buffer_inv q.
Proof.
  intros Hp Hargs H. destruct op; simpl in *.
  - eauto using append_inv.
  - injection H as H. eauto using resize_inv.
  - destruct Hargs. eauto using insert_inv.
  - destruct Hargs as (? & ? & ?). eauto using remove_inv.
  - destruct (packet_reset st (Some p)) as [r|] eqn:Hr; [|discriminate].
    simplify_eq. eauto using reset_inv.
Qed.

(** ** Insertion followed by removal *)


(** ** Reads *)

Lemma mem_read_in_range (d : list byte) off n :
  0 <= off -> 0 <= n -> off + n <= Z.of_nat (length d) ->
  mem_read d off n = Some (take (Z.to_nat n) (drop (Z.to_nat off) d)).
Proof.
  intros. unfold mem_read.
  replace (0 <=? off) with true by (symmetry; apply Z.leb_le; lia).
  replace (0 <=? n) with true by (symmetry; apply Z.leb_le; lia).
  replace (off + n <=? Z.of_nat (length d)) with true
    by (symmetry; apply Z.leb_le; lia).
  done.
Qed.

(** C8. On an initialized subsystem and a well-formed buffer, with [off + n]
    representable in 32 bits: [packet_peek_byte] fails exactly when
    [off + 1 > size], [packet_peek_data] exactly when [off + n > size], and
    [packet_copy_data] exactly when [n <> 0] and [off + n > size]. The
    failure is [ERROR_PACKET_OPERATION_FAILED], a success reads inside the
    block, and a copy of zero bytes succeeds for all arguments. *)
Theorem read_bounds st p off n :
  g_initialized st = true -> buffer_inv p ->
  in_u32 off -> in_u32 n -> off + n < 2 ^ 32 ->
  exists d, data p = Some d
    /\ packet_peek_byte st (Some p) off true
       = (if size p <? off + 1 then Ret (ERROR_PACKET_OPERATION_FAILED, None)
          else Ret (STATUS_SUCCESS, d !! Z.to_nat off))
    /\ (off + 1 <= size p -> is_Some (d !! Z.to_nat off))
    /\ packet_peek_data st (Some p) off true n
       = (if size p <? off + n then Ret (ERROR_PACKET_OPERATION_FAILED, None)
          else Ret (STATUS_SUCCESS,
                    Some (take (Z.to_nat n) (drop (Z.to_nat off) d))))
    /\ packet_copy_data st (Some p) off true n
       = (if n =? 0 then Ret (STATUS_SUCCESS, None)
          else if size p <? off + n
          then Ret (ERROR_PACKET_OPERATION_FAILED, None)
          else Ret (STATUS_SUCCESS,
                    Some (take (Z.to_nat n) (drop (Z.to_nat off) d))))
    /\ (forall st' pkt off' dest,
          packet_copy_data st' pkt off' dest 0 = Ret (STATUS_SUCCESS, None)).
Proof.
  intros Hi (d & Hd & Hcap & Hs & Hmax) Hoff Hn Hsum. unfold in_u32 in *.
  assert (packet_peek_data st (Some p) off true n
          = (if size p <? off + n then Ret (ERROR_PACKET_OPERATION_FAILED, None)
             else Ret (STATUS_SUCCESS,
                       Some (take (Z.to_nat n) (drop (Z.to_nat off) d))))) as Hpeek.
  { unfold packet_peek_data. rewrite Hi, Hd. simpl.
    unfold add32. rewrite u32_small by lia.
    destruct (size p <? off + n) eqn:Hlt; [done|]. apply Z.ltb_ge in Hlt.
    by rewrite mem_read_in_range by lia. }
  exists d. split; [done|]. split; [|split; [|split; [done|split]]].
  - unfold packet_peek_byte. rewrite Hi, Hd. simpl.
    destruct (size p <? off + 1) eqn:Hlt.
    + apply Z.ltb_lt in Hlt.
      by replace (size p <=? off) with true by (symmetry; apply Z.leb_le; lia).
    + apply Z.ltb_ge in Hlt.
      replace (size p <=? off) with false by (symmetry; apply Z.leb_gt; lia).
      rewrite mem_read_in_range by lia.
      destruct (d !! Z.to_nat off) as [b|] eqn:Hb.
      * by rewrite (drop_S _ _ _ Hb).
      * apply lookup_ge_None in Hb. lia.
  - intros Hle. apply lookup_lt_is_Some. lia.
  - unfold packet_copy_data. destruct (n =? 0); [done|]. exact Hpeek.
  - done.
Qed.

(** ** Sorting the processor array *)

Section InsertionSort.
Context {A : Type} (cmp : A -> A -> Z).

Lemma insert_sorted_perm x l : insert_sorted cmp x l ≡ₚ x :: l.
Proof.
  induction l as [|y l IH]; simpl; [done|].
  destruct (cmp x y <=? 0); [done|].
  rewrite IH. apply Permutation_swap.
Qed.

Lemma insertion_sort_perm l : insertion_sort A cmp l ≡ₚ l.
Proof.
  induction l as [|x l IH]; simpl; [done|].
  unfold insertion_sort in *. simpl.
  rewrite insert_sorted_perm. by rewrite IH.
Qed.

Lemma cmp_consistent_sub l l' :
  cmp_consistent cmp l -> (forall x, x ∈ l' -> x ∈ l) ->
  cmp_consistent cmp l'.
Proof. intros [Ha Ht] Hsub. split; eauto 10. Qed.

Lemma insert_sorted_sorted x l :
  cmp_consistent cmp (x :: l) ->
  StronglySorted (cmp_le cmp) l -> StronglySorted (cmp_le cmp) (insert_sorted cmp x l).
Proof.
  intros Hc Hs. induction Hs as [|y l Hs IH Hall]; simpl.
  - repeat constructor.
  - destruct Hc as [Hanti Htrans].
    destruct (cmp x y <=? 0) eqn:Hxy.
    + apply Z.leb_le in Hxy. constructor; [by constructor|].
      constructor; [done|].
      rewrite Forall_forall in Hall |- *. intros z Hz.
      apply (Htrans x y z); try done; set_solver.
    + apply Z.leb_gt in Hxy. constructor.
      * apply IH. apply (cmp_consistent_sub (x :: y :: l)); [done|].
    intros z [->|Hz]%elem_of_cons; [left|right; by right].
      * rewrite (insert_sorted_perm x l). constructor; [|done].
        unfold cmp_le. specialize (Hanti x y). 
        assert (Z.sgn (cmp x y) = - Z.sgn (cmp y x)) as Hsg
          by (apply Hanti; set_solver). lia.
Qed.

Lemma insertion_sort_sorted l :
  cmp_consistent cmp l -> StronglySorted (cmp_le cmp) (insertion_sort A cmp l).
Proof.
  induction l as [|x l IH]; intros Hc; [constructor|].
  unfold insertion_sort in *. simpl. apply insert_sorted_sorted.
  - apply (cmp_consistent_sub (x :: l)); [done|].
    intros z Hz. apply elem_of_cons in Hz as [->|Hz]; [set_solver|].
    apply elem_of_cons. right. by rewrite <- (insertion_sort_perm l).
  - apply IH. apply (cmp_consistent_sub (x :: l)); [done|set_solver].
Qed.
End InsertionSort.

(** The insertion sort meets the contract of [qsort]. *)
Lemma reference_qsort_conforms : qsort_conforms reference_qsort.
Proof.
  intros A cmp l Hc. split.
  - apply insertion_sort_perm.
  - by apply insertion_sort_sorted.
Qed.

Lemma to_int32_small x : - 2 ^ 31 <= x < 2 ^ 31 -> to_int32 x = x.
Proof.
  intros Hx. unfold to_int32, u32.
  destruct (decide (0 <= x)).
  - rewrite Z.mod_small by lia.
    by replace (x <? 2 ^ 31) with true by (symmetry; apply Z.ltb_lt; lia).
  - replace (x mod 2 ^ 32) with (x + 2 ^ 32).
    + replace (x + 2 ^ 32 <? 2 ^ 31) with false by (symmetry; apply Z.ltb_ge; lia).
      lia.
    + apply (Z.mod_unique_pos _ _ (-1)); lia.
Qed.

Lemma compare_in_range a b :
  prio_ok a -> prio_ok b ->
  compare_processors a b = proc_priority a - proc_priority b.
Proof.
  unfold prio_ok, compare_processors. intros Ha Hb.
  rewrite (to_int32_small (proc_priority a)), (to_int32_small (proc_priority b)) by lia.
  apply to_int32_small. lia.
Qed.

Lemma compare_consistent l :
  Forall prio_ok l -> cmp_consistent compare_processors l.
Proof.
  rewrite Forall_forall. intros Hl. split.
  - intros a b Ha Hb. rewrite !compare_in_range by auto. lia.
  - intros a b c Ha Hb Hc. rewrite !compare_in_range by auto. lia.
Qed.

Lemma StronglySorted_weaken {A} (R R' : A -> A -> Prop) (P : A -> Prop) l :
  StronglySorted R l -> Forall P l ->
  (forall a b, P a -> P b -> R a b -> R' a b) ->
  StronglySorted R' l.
Proof.
  intros Hs Hp HR. induction Hs as [|x l Hs IH Hall]; [constructor|].
  apply Forall_cons in Hp as [Hx Hp]. constructor; [by apply IH|].
  rewrite Forall_forall in Hall, Hp |- *. eauto.
Qed.

Section Registry.
Context `{Q : Qsort}.
Hypothesis Hq : qsort_conforms Q.

Lemma qsort_permutation A (cmp : A -> A -> Z) l :
  cmp_consistent cmp l -> qsort A cmp l ≡ₚ l.
Proof. intros Hc. apply (Hq A cmp l Hc). Qed.

Lemma qsort_sorted A (cmp : A -> A -> Z) l :
  cmp_consistent cmp l -> StronglySorted (cmp_le cmp) (qsort A cmp l).
Proof. intros Hc. apply (Hq A cmp l Hc). Qed.

Lemma snapshot_sort st :
  Forall prio_ok (g_processors st) ->
  snapshot (sort_processors st)
  = qsort _ compare_processors (snapshot st).
Proof.
  intros Hp. unfold snapshot, sort_processors. simpl.
  set (n := Z.to_nat (g_processor_count st)).
  assert (cmp_consistent compare_processors (take n (g_processors st))) as Hc
    by (apply compare_consistent, Forall_take, Hp).
  pose proof (Permutation_length (qsort_permutation _ _ _ Hc)) as Hlen.
  rewrite length_take in Hlen.
  destruct (decide (n <= length (g_processors st))%nat).
  - rewrite take_app_length'; [done|]. lia.
  - rewrite (drop_ge (g_processors st)) by lia.
    rewrite app_nil_r. apply take_ge. lia.
Qed.

Lemma sort_processors_inv st :
  Forall prio_ok (g_processors st) -> registry_inv (sort_processors st).
Proof.
  intros Hp.
  assert (cmp_consistent compare_processors (snapshot st)) as Hc
    by (apply compare_consistent, Forall_take, Hp).
  split.
  - unfold sort_processors. simpl. apply Forall_app. split.
    + rewrite (qsort_permutation _ _ _ Hc). by apply Forall_take.
    + by apply Forall_drop.
  - rewrite snapshot_sort by done.
    eapply (StronglySorted_weaken _ _ prio_ok).
    + by apply qsort_sorted.
    + rewrite (qsort_permutation _ _ _ Hc). by apply Forall_take.
    + intros a b Ha Hb Hab. unfold cmp_le in Hab.
      rewrite compare_in_range in Hab by done.
      unfold by_priority. lia.
Qed.

Lemma api_reachable_inv st : api_reachable st -> registry_inv st.
Proof.
  induction 1 as [|st cb prio udata st' handle _ [IHp _] Hprio Hreg
                  |st handle st' _ [IHp _] Hun].
  - split.
    + apply Forall_forall. intros x Hx.
      apply elem_of_replicate in Hx as [-> _]. unfold prio_ok. simpl. lia.
    + constructor.
  - unfold packet_register_processor in Hreg.
    repeat case_match; simplify_eq.
    all: apply sort_processors_inv; simpl.
    all: apply Forall_insert; [done|]; unfold prio_ok; simpl; lia.
  - unfold packet_unregister_processor in Hun.
    repeat case_match; simplify_eq.
    all: apply sort_processors_inv; simpl.
    all: apply Forall_insert; [done|].
    all: match goal with Hl : g_processors _ !! _ = Some ?p |- _ =>
           apply (Forall_lookup_1 _ _ _ _ IHp) in Hl; exact Hl end.
Qed.
End Registry.

(** ** The pipeline *)

Lemma leave_enter st : leave (enter st) = st.
Proof. destruct st. unfold leave, enter. simpl. f_equal. lia. Qed.

Lemma snapshot_enter st : snapshot (enter st) = snapshot st.
Proof. done. Qed.

Lemma callable_spec pr :
  callable pr = true <-> exists cb, (if active pr then callback pr else None) = Some cb.
Proof.
  unfold callable. destruct (active pr), (callback pr); simpl;
    split; try done; try (intros [? ?]; done); eauto.
Qed.

Lemma traversal_cons_same e tr :
  traversal (inv_depth e) (e :: tr) = inv_proc e :: traversal (inv_depth e) tr.
Proof. unfold traversal. by rewrite filter_cons_True. Qed.

Lemma traversal_cons_other k e tr :
  inv_depth e <> k -> traversal k (e :: tr) = traversal k tr.
Proof. intros. unfold traversal. by rewrite filter_cons_False. Qed.

Lemma traversal_deeper k tr :
  Forall (fun e => k < inv_depth e) tr -> traversal k tr = [].
Proof.
  induction 1 as [|e tr He _ IH]; [done|].
  rewrite traversal_cons_other by lia. done.
Qed.

Lemma stops_nil r : stops_at_verdict r [].
Proof. intros tr1 e tr2 Heq. by destruct tr1. Qed.

Lemma stops_single e : stops_at_verdict (inv_result e) [e].
Proof.
  intros tr1 x tr2 Heq _.
  destruct tr1 as [|? [|? ?]]; simpl in Heq; by simplify_eq.
Qed.

Lemma stops_cons e r tr :
  inv_result e <> PACKET_RESULT_DROP -> inv_result e <> PACKET_RESULT_CONSUME ->
  stops_at_verdict r tr -> stops_at_verdict r (e :: tr).
Proof.
  intros Hd Hc Hs tr1 x tr2 Heq Hv.
  destruct tr1 as [|y tr1]; simpl in Heq; simplify_eq.
  - by destruct Hv.
  - by apply (Hs tr1).
Qed.

Lemma drops_nil r : drops_at_limit r [].
Proof. intros e He. by apply elem_of_nil in He. Qed.

Lemma drops_cons e r tr :
  (inv_depth e = 16 -> inv_result e = PACKET_RESULT_RECIRCULATE ->
   r = PACKET_RESULT_DROP) ->
  drops_at_limit r tr -> drops_at_limit r (e :: tr).
Proof.
  intros He Htr x Hx. apply elem_of_cons in Hx as [->|Hx]; [done|].
  by apply Htr.
Qed.

(** The loop at depth [recursion_depth st], given what is known of the
    nested call. *)
Lemma process_loop_ok recur snap processors st p result r q st' tr :
  (forall p' r q st' tr, recur st p' = Some (r, q, st', tr) ->
     st' = st
     /\ Forall (fun e => recursion_depth st < inv_depth e <= 16) tr
     /\ (forall k, traversal k tr `prefix_of` snap)
     /\ stops_at_verdict r tr
     /\ drops_at_limit r tr
     /\ (16 <= recursion_depth st -> r = PACKET_RESULT_DROP /\ tr = [])) ->
  recursion_depth st <= 16 ->
  process_loop recur processors st p result = Some (r, q, st', tr) ->
  st' = leave st
  /\ Forall (fun e => recursion_depth st <= inv_depth e <= 16) tr
  /\ traversal (recursion_depth st) tr `prefix_of` filter callable processors
  /\ (forall k, k <> recursion_depth st -> traversal k tr `prefix_of` snap)
  /\ stops_at_verdict r tr
  /\ drops_at_limit r tr.
Proof.
  intros Hrec Hd. revert p result r q st' tr.
  induction processors as [|pr rest IH]; intros p result r q st' tr H; simpl in H.
  - simplify_eq. split_and!; try done.
    + intros. apply prefix_nil.
    + apply stops_nil.
    + apply drops_nil.
  - destruct (if active pr then callback pr else None) as [cb|] eqn:Hcb.
    2:{ apply IH in H as (? & ? & Hpre & ? & ? & ?). split_and!; try done.
        rewrite filter_cons_False; [done|].
        intros Hc%Is_true_true%callable_spec. destruct Hc as [? Hc]. congruence. }
    assert (callable pr = true) as Hcall by (apply callable_spec; eauto).
    destruct (cb p (proc_user_data pr)) as [r0 p'] eqn:Hr0.
    set (here := {| inv_depth := recursion_depth st; inv_proc := pr;
                    inv_result := r0 |}) in *.
    assert (forall tl, traversal (recursion_depth st) (here :: tl)
                       = pr :: traversal (recursion_depth st) tl) as Hsame
      by (intros; apply (traversal_cons_same here)).
    assert (forall k tl, k <> recursion_depth st ->
                         traversal k (here :: tl) = traversal k tl) as Hother
      by (intros; apply traversal_cons_other; simpl; lia).
    rewrite filter_cons_True by (by apply Is_true_true).
    destruct r0.
    + (* forward: the loop goes on *)
      destruct (process_loop recur rest st p' PACKET_RESULT_FORWARD)
        as [[[[r1 q1] st1] tr1]|] eqn:Hloop; [|discriminate].
      simplify_eq. apply IH in Hloop as (? & ? & Hpre & Hoth & Hstop & Hlim).
      split_and!; try done.
      * constructor; [simpl; lia|done].
      * rewrite Hsame. by apply prefix_cons.
      * intros k Hk. rewrite Hother by done. auto.
      * by apply stops_cons.
      * by apply drops_cons.
    + simplify_eq. split_and!; try done.
      all: try apply (stops_single here).
      all: try (apply drops_cons; [done|apply drops_nil]).
      all: try (repeat constructor; simpl; lia).
      all: try (rewrite Hsame; apply prefix_cons, prefix_nil).
      intros k Hk. rewrite Hother by done. apply prefix_nil.
    + simplify_eq. split_and!; try done.
      all: try apply (stops_single here).
      all: try (apply drops_cons; [done|apply drops_nil]).
      all: try (repeat constructor; simpl; lia).
      all: try (rewrite Hsame; apply prefix_cons, prefix_nil).
      intros k Hk. rewrite Hother by done. apply prefix_nil.
    + (* recirculate: the nested call decides *)
      destruct (recur st p') as [[[[r1 q1] st1] tr1]|] eqn:Hnest; [|discriminate].
      simplify_eq.
      apply Hrec in Hnest as (-> & Hall & Hpre & Hstop & Hlim & Hfull).
      split_and!; try done.
      * constructor; [simpl; lia|].
        eapply Forall_impl; [exact Hall|]. simpl. intros; lia.
      * rewrite Hsame, traversal_deeper.
        -- apply prefix_cons, prefix_nil.
        -- eapply Forall_impl; [exact Hall|]. simpl. intros; lia.
      * intros k Hk. rewrite Hother by done. auto.
      * by apply stops_cons.
      * apply drops_cons; [|done]. simpl. intros Hde _. apply Hfull. lia.
    + (* a value outside the enumeration: the loop goes on *)
      destruct (process_loop recur rest st p' PACKET_RESULT_OTHER)
        as [[[[r1 q1] st1] tr1]|] eqn:Hloop; [|discriminate].
      simplify_eq. apply IH in Hloop as (? & ? & Hpre & Hoth & Hstop & Hlim).
      split_and!; try done.
      * constructor; [simpl; lia|done].
      * rewrite Hsame. by apply prefix_cons.
      * intros k Hk. rewrite Hother by done. auto.
      * by apply stops_cons.
      * by apply drops_cons.
Qed.

Lemma packet_process_S fuel st packet :
  packet_process (S fuel) st packet
  = if negb (g_initialized st) then Some (PACKET_RESULT_DROP, packet, st, [])
    else if negb (packet_buffer_is_valid packet)
    then Some (PACKET_RESULT_DROP, packet, st, [])
    else match packet with
         | None => Some (PACKET_RESULT_DROP, packet, st, [])
         | Some p =>
             if 16 <? recursion_depth (enter st)
             then Some (PACKET_RESULT_DROP, packet, leave (enter st), [])
             else process_loop (fun s q => packet_process fuel s (Some q))
                    (snapshot (enter st)) (enter st) p PACKET_RESULT_FORWARD
         end.
Proof. reflexivity. Qed.

Lemma packet_process_ok fuel st packet r q st' tr :
  packet_process fuel st packet = Some (r, q, st', tr) -> call_ok st r st' tr.
Proof.
  revert st packet r q st' tr.
  induction fuel as [|fuel IH]; intros st packet r q st' tr H; [done|].
  rewrite packet_process_S in H.
  assert (call_ok st PACKET_RESULT_DROP st []) as Hrefused.
  { unfold call_ok. split_and!; try done.
    all: try apply stops_nil; try apply drops_nil.
    all: intros; apply prefix_nil. }
  destruct (negb (g_initialized st)); [by simplify_eq|].
  destruct (negb (packet_buffer_is_valid packet)); [by simplify_eq|].
  destruct packet as [p|]; [|by simplify_eq].
  destruct (16 <? recursion_depth (enter st)) eqn:Hdeep.
  { simplify_eq. by rewrite leave_enter. }
  apply Z.ltb_ge in Hdeep. simpl in Hdeep.
  eapply (process_loop_ok _ (filter callable (snapshot st))) in H.
  - destruct H as (-> & Hall & Hpre & Hoth & Hstop & Hlim).
    unfold call_ok. split_and!; try done.
    + apply leave_enter.
    + eapply Forall_impl; [exact Hall|]. simpl. intros; lia.
    + intros k. destruct (decide (k = recursion_depth (enter st))) as [->|Hk]; auto.
    + intros; lia.
  - intros p' r' q' st1 tr1 Hnest. apply IH in Hnest. exact Hnest.
  - simpl. lia.
Qed.

Lemma process_loop_total recur processors st p result :
  (forall p', is_Some (recur st p')) ->
  is_Some (process_loop recur processors st p result).
Proof.
  intros Hrec. revert p result.
  induction processors as [|pr rest IH]; intros p result; simpl; [done|].
  destruct (if active pr then callback pr else None) as [cb|]; [|done].
  destruct (cb p (proc_user_data pr)) as [[] p'].
  - destruct (IH p' PACKET_RESULT_FORWARD) as [[[[? ?] ?] ?] ->]. done.
  - done.
  - done.
  - destruct (Hrec p') as [[[[? ?] ?] ?] ->]. done.
  - destruct (IH p' PACKET_RESULT_OTHER) as [[[[? ?] ?] ?] ->]. done.
Qed.

Lemma packet_process_total fuel st packet :
  Z.max 1 (17 - recursion_depth st) <= Z.of_nat fuel ->
  is_Some (packet_process fuel st packet).
Proof.
  revert st packet. induction fuel as [|fuel IH]; intros st packet Hf; [lia|].
  rewrite packet_process_S.
  destruct (negb (g_initialized st)); [done|].
  destruct (negb (packet_buffer_is_valid packet)); [done|].
  destruct packet as [p|]; [|done].
  destruct (16 <? recursion_depth (enter st)) eqn:Hdeep; [done|].
  apply Z.ltb_ge in Hdeep. simpl in Hdeep.
  apply process_loop_total. intros p'. apply IH. simpl. lia.
Qed.

Lemma packet_process_enough st packet :
  is_Some (packet_process (enough_fuel st) st packet).
Proof. apply packet_process_total. unfold enough_fuel. lia. Qed.

Lemma StronglySorted_filter {A} (R : A -> A -> Prop) (P : A -> Prop)
    `{!forall x, Decision (P x)} l :
  StronglySorted R l -> StronglySorted R (filter P l).
Proof.
  induction 1 as [|x l Hs IH Hall]; [constructor|].
  destruct (decide (P x)).
  - rewrite filter_cons_True by done. constructor; [done|].
    rewrite Forall_forall in Hall |- *.
    intros y [_ Hy]%list_elem_of_filter. by apply Hall.
  - by rewrite filter_cons_False.
Qed.

Lemma StronglySorted_lookup {A} (R : A -> A -> Prop) l i j a b :
  StronglySorted R l -> (i < j)%nat ->
  l !! i = Some a -> l !! j = Some b -> R a b.
Proof.
  intros Hs. revert i j. induction Hs as [|x l Hs IH Hall]; intros i j Hij Hi Hj.
  - done.
  - destruct j as [|j]; [lia|]. destruct i as [|i]; simpl in *.
    + simplify_eq. rewrite Forall_forall in Hall. apply Hall.
      by eapply list_elem_of_lookup_2.
    + apply (IH i j); [lia|done..].
Qed.

(** C2. [packet_process] returns for every state, every packet and every set
    of processors. Each processor it calls runs at a depth of at most 16; when
    a processor called at depth 16 asks for recirculation the result is
    [PACKET_RESULT_DROP]; and a call entered at depth 16 or more drops the
    packet without calling any processor. *)
Theorem recirculation_bounded st packet :
  exists r q tr,
    packet_process (enough_fuel st) st packet = Some (r, q, st, tr)
    /\ Forall (fun e => recursion_depth st < inv_depth e <= 16) tr
    /\ drops_at_limit r tr
    /\ (16 <= recursion_depth st -> r = PACKET_RESULT_DROP /\ tr = []).
Proof.
  destruct (packet_process_enough st packet) as [[[[r q] st'] tr] Hrun].
  pose proof (packet_process_ok _ _ _ _ _ _ _ Hrun) as (-> & Hall & _ & _ & Hlim & Hfull).
  by exists r, q, tr.
Qed.

(** C10. [packet_process] returns on every input. When the subsystem is not
    initialized, or the packet is null, has no data block, or has a size
    above its capacity, it returns [PACKET_RESULT_DROP] with the packet and
    the state untouched, and has called no processor. *)
Theorem process_refuses_unusable_input st packet :
  is_Some (packet_process (enough_fuel st) st packet)
  /\ (g_initialized st = false
      \/ packet = None
      \/ (exists p, packet = Some p /\ (data p = None \/ capacity p < size p)) ->
      forall fuel,
        packet_process (S fuel) st packet
        = Some (PACKET_RESULT_DROP, packet, st, [])).
Proof.
  split; [apply packet_process_enough|].
  intros Hbad fuel. rewrite packet_process_S.
  destruct (g_initialized st) eqn:Hi; [|done]. simpl.
  destruct Hbad as [?|[->|(p & -> & Hp)]]; [done|done|].
  simpl. destruct Hp as [->|Hlt]; [done|].
  destruct (data p); [|done].
  by replace (capacity p <? size p) with true by (symmetry; apply Z.ltb_lt; lia).
Qed.

(** ** Concrete runs of the buffer operations and of the pipeline *)

Lemma sample_buffer_inv : buffer_inv sample_buffer.
Proof. exists sample_bytes. simpl. repeat split; try reflexivity; lia. Defined.

(** C1, the bound that does not hold: an allocation of 9217 bytes succeeds
    and its capacity exceeds [MAX_PACKET_SIZE]. *)
Lemma alloc_above_max_packet_size :
  exists p, packet_buffer_alloc heap_ok init_state 9217 = Some p
            /\ MAX_PACKET_SIZE < capacity p.
Proof. eexists. split; [vm_compute; reflexivity|]. vm_compute. reflexivity. Qed.

(** C8, where the two halves of the sentence part: a peek of zero bytes at
    offset 5 of a 4-byte packet fails. *)
Lemma zero_length_peek_beyond_length_fails :
  packet_peek_data init_state (Some sample_buffer) 5 true 0
  = Ret (ERROR_PACKET_OPERATION_FAILED, None).
Proof. vm_compute. reflexivity. Qed.

Example peek_with_wrapping_range_leaves_block :
  packet_peek_data init_state (Some sample_buffer) (2 ^ 32 - 1) true 2
  = Undefined.
Proof. vm_compute. reflexivity. Qed.

Example remove_with_wrapping_range_breaks_length :
  exists q, packet_remove init_state
              (Some (set_size sample_buffer 1)) (2 ^ 32 - 1) 2
            = Ret (STATUS_SUCCESS, Some q)
            /\ capacity q < size q.
Proof. eexists. split; [vm_compute; reflexivity|]. vm_compute. reflexivity. Qed.

(** C9, the insertion that has to grow the buffer: five bytes inserted at
    offset 2 of a 4-byte packet whose block has 8 bytes.  [realloc] grants
    the 9 bytes, and the shift then writes past them. *)
Example insert_that_grows_leaves_block :
  packet_insert heap_ok init_state (Some sample_buffer) 2
    (Some [Byte.xff; Byte.xff; Byte.xff; Byte.xff; Byte.xff]) 5
  = Undefined.
Proof. vm_compute. reflexivity. Qed.

(** C6, the order of equal priorities: a processor registered last into a
    slot that an unregistration has freed runs before one registered
    earlier, even under a stable sort. *)
Lemma ties_follow_slots_not_insertion :
  (proc_user_data ∘ inv_proc) <$>
    trace_of (registry_after [Register cb_forward 1 1; Register cb_forward 1 2;
                              Unregister 0; Register cb_forward 1 3])
      sample_buffer
  = [Some 3; Some 2].
Proof. vm_compute. reflexivity. Qed.

(** The comparison goes through [int]: a priority of [2 ^ 32 - 1] sorts
    before priority 5. *)
Example large_priority_runs_first :
  (proc_priority ∘ inv_proc) <$>
    trace_of (registry_after [Register cb_forward 5 1;
                              Register cb_forward 4294967295 2])
      sample_buffer
  = [4294967295; 5].
Proof. vm_compute. reflexivity. Qed.

(** ** Handles *)

Lemma fmap_NoDup_inj {A B} (f : A -> B) l a b :
  NoDup (f <$> l) -> a ∈ l -> b ∈ l -> f a = f b -> a = b.
Proof.
  induction l as [|x l IH]; [by intros _ ?%elem_of_nil|].
  rewrite fmap_cons, NoDup_cons. intros [Hx Hnd] Ha Hb Hf.
  apply elem_of_cons in Ha as [->|Ha], Hb as [->|Hb]; [done| | |by apply IH].
  - destruct Hx. rewrite Hf. by apply list_elem_of_fmap_2.
  - destruct Hx. rewrite <- Hf. by apply list_elem_of_fmap_2.
Qed.

Lemma prio_ok_check l :
  forallb (fun p => (0 <=? proc_priority p) && (proc_priority p <? 2 ^ 31)) l = true ->
  Forall prio_ok l.
Proof.
  rewrite forallb_forall, Forall_forall. intros Hl p Hp.
  apply list_elem_of_In, Hl, andb_true_iff in Hp as [?%Z.leb_le ?%Z.ltb_lt].
  by split.
Qed.

(** With priorities that are pairwise distinct the result of [qsort] is
    determined, and the registry behaves as with the insertion sort. *)
Section AnyQsort.
Context `{Q : Qsort}.
Hypothesis Hq : qsort_conforms Q.

Lemma qsort_distinct (l : list packet_processor_t) :
  Forall prio_ok l -> NoDup (proc_priority <$> l) ->
  qsort _ compare_processors l = insertion_sort _ compare_processors l.
Proof.
  intros Hp Hnd.
  pose proof (compare_consistent l Hp) as Hc.
  destruct (Hq _ compare_processors l Hc) as [Hperm Hsorted].
  apply (StronglySorted_unique_strong (cmp_le compare_processors));
    [|done|by apply insertion_sort_sorted|by rewrite Hperm, insertion_sort_perm].
  intros a b Ha Hb Hab Hba. rewrite Hperm in Ha. rewrite insertion_sort_perm in Hb.
  apply (fmap_NoDup_inj proc_priority l); try done.
  rewrite Forall_forall in Hp.
  unfold cmp_le in *. rewrite compare_in_range in Hab, Hba by auto. lia.
Qed.

Lemma sort_processors_agree st :
  Forall prio_ok (g_processors st) ->
  NoDup (proc_priority <$> snapshot (@sort_processors reference_qsort st)) ->
  @sort_processors Q st = @sort_processors reference_qsort st.
Proof.
  intros Hp Hnd.
  rewrite (snapshot_sort reference_qsort_conforms) in Hnd by done.
  cbn [qsort reference_qsort] in Hnd. rewrite insertion_sort_perm in Hnd.
  unfold sort_processors. fold (snapshot st).
  rewrite qsort_distinct; [done| |done]. by apply Forall_take.
Qed.

Lemma sorted_prio_ok st :
  Forall prio_ok (g_processors (@sort_processors reference_qsort st)) ->
  Forall prio_ok (g_processors st).
Proof.
  unfold sort_processors. cbn. rewrite insertion_sort_perm, take_drop. done.
Qed.

Lemma register_agree st cb prio ud h s st' ho :
  @packet_register_processor reference_qsort st cb prio ud h = Ret (s, st', ho) ->
  Forall prio_ok (g_processors st') -> NoDup (proc_priority <$> snapshot st') ->
  @packet_register_processor Q st cb prio ud h = Ret (s, st', ho).
Proof.
  unfold packet_register_processor. intros Hr Hp Hnd.
  repeat case_match; try done. all: simplify_eq.
  all: rewrite sort_processors_agree; [done| |done]; by apply sorted_prio_ok.
Qed.

Lemma unregister_agree st handle s st' :
  @packet_unregister_processor reference_qsort st handle = (s, st') ->
  Forall prio_ok (g_processors st') -> NoDup (proc_priority <$> snapshot st') ->
  @packet_unregister_processor Q st handle = (s, st').
Proof.
  unfold packet_unregister_processor. intros Hr Hp Hnd.
  repeat case_match; try done. all: simplify_eq.
  all: rewrite sort_processors_agree; [done| |done]; by apply sorted_prio_ok.
Qed.

End AnyQsort.

(** C7. The handle is the index of the slot chosen before the array is
    sorted. With any [qsort] that keeps its contract, after the registration
    of a processor of priority 10 (handle 0) and of one of priority 5
    (handle 1), unregistering handle 1 deactivates the processor of
    priority 10, and the processor registered under handle 1 stays
    active. *)
Theorem unregister_deactivates_another_processor `{Q : Qsort} :
  qsort_conforms Q ->
  exists st1 st2 st3,
    packet_register_processor init_state (Some cb_forward) 10 (Some 1) true
      = Ret (STATUS_SUCCESS, st1, Some 0)
    /\ packet_register_processor st1 (Some cb_forward) 5 (Some 2) true
      = Ret (STATUS_SUCCESS, st2, Some 1)
    /\ packet_unregister_processor st2 1 = (STATUS_SUCCESS, st3)
    /\ proc_user_data <$> filter (fun pr => active pr = true) (g_processors st3)
       = [Some 2].
Proof.
  intros Hq. do 3 eexists. split_and!.
  - apply (register_agree Hq); [vm_compute; reflexivity| |].
    + apply prio_ok_check. vm_compute. reflexivity.
    + apply (bool_decide_eq_true_1 _). vm_compute. reflexivity.
  - apply (register_agree Hq); [vm_compute; reflexivity| |].
    + apply prio_ok_check. vm_compute. reflexivity.
    + apply (bool_decide_eq_true_1 _). vm_compute. reflexivity.
  - apply (unregister_agree Hq); [vm_compute; reflexivity| |].
    + apply prio_ok_check. vm_compute. reflexivity.
    + apply (bool_decide_eq_true_1 _). vm_compute. reflexivity.
  - vm_compute. reflexivity.
Qed.

Lemma unregister_deactivates_another_processor_witness :
  exists st1 st2 st3,
    packet_register_processor init_state (Some cb_forward) 10 (Some 1) true
      = Ret (STATUS_SUCCESS, st1, Some 0)
    /\ packet_register_processor st1 (Some cb_forward) 5 (Some 2) true
      = Ret (STATUS_SUCCESS, st2, Some 1)
    /\ packet_unregister_processor st2 1 = (STATUS_SUCCESS, st3)
    /\ proc_user_data <$> filter (fun pr => active pr = true) (g_processors st3)
       = [Some 2].
Proof.
  apply (unregister_deactivates_another_processor (Q := reference_qsort)).
  exact reference_qsort_conforms.
Defined.

Example recirculation_forever_is_dropped :
  let st := registry_after [Register cb_recirculate 7 1] in
  result_of st sample_buffer = Some PACKET_RESULT_DROP
  /\ length (trace_of st sample_buffer) = 16%nat.
Proof. vm_compute. done. Qed.

(** ** The invariant of the buffers, and instances of the theorems *)

(** C1. Every buffer that the buffer operations hand back keeps
    [0 <= size <= capacity] over a block of [capacity] bytes.
    [packet_buffer_alloc] succeeds only for a positive size and returns an
    empty buffer of exactly that capacity; [packet_create] returns one of
    capacity [MAX_PACKET_SIZE]; [packet_buffer_clone] keeps size and capacity;
    append, resize, insert, remove and reset preserve the invariant whenever
    they return a buffer. [MAX_PACKET_SIZE] bounds nothing here: no operation
    compares a size or a capacity with it. *)
Theorem buffer_invariant h st :
  (forall len p, in_u32 len -> packet_buffer_alloc h st len = Some p ->
     0 < len /\ capacity p = len /\ size p = 0 /\ buffer_inv p)
  /\ (forall p, packet_create h st = (STATUS_SUCCESS, Some p) ->
        capacity p = MAX_PACKET_SIZE /\ buffer_inv p)
  /\ (forall p q, buffer_inv p ->
        packet_buffer_clone h st (Some p) = Ret (Some q) ->
        buffer_inv q /\ capacity q = capacity p /\ size q = size p)
  /\ (forall op p status q, buffer_inv p -> op_args_ok op ->
        apply_op h st op p = Ret (status, Some q) -> buffer_inv q).
Proof.
  split_and!.
  - apply alloc_inv.
  - intros p Hc. unfold packet_create in Hc.
    destruct (packet_buffer_alloc h st MAX_PACKET_SIZE) as [pkt|] eqn:Ha;
      simplify_eq.
    apply alloc_inv in Ha as (_ & ? & _ & ?); [done|].
    unfold in_u32, MAX_PACKET_SIZE. lia.
  - intros p q Hp Hc. apply clone_inv in Hc; [|done]. tauto.
  - intros op p status q. apply apply_op_inv.
Qed.

Lemma buffer_invariant_witness : buffer_inv appended.
Proof.
  destruct (buffer_invariant heap_ok init_state) as (_ & _ & _ & Hop).
  apply (Hop (OpAppend [Byte.x0a; Byte.x0b] 2) sample_buffer STATUS_SUCCESS).
  - exact sample_buffer_inv.
  - unfold op_args_ok, in_u32. lia.
  - vm_compute. reflexivity.
Defined.

Lemma read_bounds_witness :
  exists d, data sample_buffer = Some d
    /\ packet_peek_byte init_state (Some sample_buffer) 1 true
       = (if size sample_buffer <? 1 + 1
          then Ret (ERROR_PACKET_OPERATION_FAILED, None)
          else Ret (STATUS_SUCCESS, d !! Z.to_nat 1))
    /\ (1 + 1 <= size sample_buffer -> is_Some (d !! Z.to_nat 1))
    /\ packet_peek_data init_state (Some sample_buffer) 1 true 2
       = (if size sample_buffer <? 1 + 2
          then Ret (ERROR_PACKET_OPERATION_FAILED, None)
          else Ret (STATUS_SUCCESS,
                    Some (take (Z.to_nat 2) (drop (Z.to_nat 1) d))))
    /\ packet_copy_data init_state (Some sample_buffer) 1 true 2
       = (if 2 =? 0 then Ret (STATUS_SUCCESS, None)
          else if size sample_buffer <? 1 + 2
          then Ret (ERROR_PACKET_OPERATION_FAILED, None)
          else Ret (STATUS_SUCCESS,
                    Some (take (Z.to_nat 2) (drop (Z.to_nat 1) d))))
    /\ (forall st' pkt off' dest,
          packet_copy_data st' pkt off' dest 0 = Ret (STATUS_SUCCESS, None)).
Proof.
  apply (read_bounds init_state sample_buffer 1 2).
  - reflexivity.
  - exact sample_buffer_inv.
  - unfold in_u32. lia.
  - unfold in_u32. lia.
  - lia.
Defined.

Lemma two_processors_reachable : api_reachable two_processors.
Proof.
  eapply (reach_register _ (Some cb_forward) 10 (Some 2)).
  - eapply (reach_register _ (Some cb_forward) 20 (Some 1)).
    + apply reach_init.
    + lia.
    + vm_compute. reflexivity.
  - lia.
  - vm_compute. reflexivity.
Defined.

Lemma process_refuses_unusable_input_witness :
  packet_process 1 boot_state (Some sample_buffer)
  = Some (PACKET_RESULT_DROP, Some sample_buffer, boot_state, []).
Proof.
  apply (proj2 (process_refuses_unusable_input boot_state (Some sample_buffer))).
  left. reflexivity.
Defined.

Lemma recirculation_bounded_witness :
  exists r q tr,
    packet_process (enough_fuel (registry_after [Register cb_recirculate 7 1]))
      (registry_after [Register cb_recirculate 7 1]) (Some sample_buffer)
    = Some (r, q, registry_after [Register cb_recirculate 7 1], tr)
    /\ Forall (fun e =>
                 recursion_depth (registry_after [Register cb_recirculate 7 1])
                 < inv_depth e <= 16) tr
    /\ drops_at_limit r tr
    /\ (16 <= recursion_depth (registry_after [Register cb_recirculate 7 1]) ->
        r = PACKET_RESULT_DROP /\ tr = []).
Proof.
  apply (recirculation_bounded (registry_after [Register cb_recirculate 7 1])
           (Some sample_buffer)).
Defined.

End PacketTheory.

(** * Properties of the ARP cache *)

Module ArpTheory.
Import Arp.

(** ** Chains *)

Lemma chain_find_Some a c e :
  chain_find a c = Some e -> e ∈ c /\ ip e = a.
Proof.
  unfold chain_find. induction c as [|x c IH]; simpl; [done|].
  destruct (ip x =? a) eqn:Hx.
  - intros [= ->]. apply Z.eqb_eq in Hx. split; [left|done].
  - intros [Hin Hip]%IH. split; [by right|done].
Qed.

Lemma chain_find_None a c :
  chain_find a c = None <-> forall e, e ∈ c -> ip e <> a.
Proof.
  unfold chain_find. induction c as [|x c IH]; simpl.
  - split; [|done]. intros _ e He. by apply elem_of_nil in He.
  - destruct (ip x =? a) eqn:Hx.
    + apply Z.eqb_eq in Hx. split; [done|]. intros Hall.
      exfalso. apply (Hall x); [left|done].
    + apply Z.eqb_neq in Hx. rewrite IH. split.
      * intros Hall e [->|He]%elem_of_cons; auto.
      * intros Hall e He. apply Hall. by right.
Qed.

Lemma chain_find_unique a c e :
  NoDup (ip <$> c) -> e ∈ c -> ip e = a -> chain_find a c = Some e.
Proof.
  unfold chain_find. induction c as [|x c IH]; simpl; intros Hnd He Hip.
  - by apply elem_of_nil in He.
  - apply NoDup_cons in Hnd as [Hx Hnd].
    apply elem_of_cons in He as [->|He].
    + by replace (ip x =? a) with true by (symmetry; by apply Z.eqb_eq).
    + destruct (ip x =? a) eqn:Hxa; [|by apply IH].
      apply Z.eqb_eq in Hxa. exfalso. apply Hx.
      apply list_elem_of_fmap. exists e. split; [congruence|done].
Qed.

Lemma chain_step_find a c c' :
  NoDup (ip <$> c) -> chain_step c c' ->
  arp_step (state <$> chain_find a c) (state <$> chain_find a c').
Proof.
  intros Hnd [Hnd' Hstep].
  destruct (chain_find a c') as [e'|] eqn:Hf'; [|apply step_evict].
  apply chain_find_Some in Hf' as [Hin' Hip'].
  destruct (Hstep e' Hin') as [(e & Hin & Hip & Hst)|[Hnew Hst]].
  - rewrite (chain_find_unique a c e) by (done || congruence). simpl.
    destruct Hst as [->|[->|[-> ->]]]; constructor.
  - assert (chain_find a c = None) as ->.
    { apply chain_find_None. intros e He. rewrite <- Hip'. by apply Hnew. }
    simpl. destruct Hst as [->| ->]; constructor.
Qed.

Lemma chain_step_refl c : NoDup (ip <$> c) -> chain_step c c.
Proof.
  intros Hnd. split; [done|]. intros e He. left. exists e.
  split_and!; try done. by left.
Qed.

Lemma chain_step_sublist c c' :
  NoDup (ip <$> c) -> sublist c' c -> chain_step c c'.
Proof.
  intros Hnd Hsub. split.
  - apply (sublist_NoDup (ip <$> c') (ip <$> c)); [done|]. by apply fmap_sublist.
  - intros e He. left. exists e. split_and!; try done.
    + by eapply elem_of_sublist.
    + by left.
Qed.

Lemma chain_step_push c c' e :
  NoDup (ip <$> c) -> sublist c' c ->
  (forall x, x ∈ c -> ip x <> ip e) ->
  state e = ARP_STATE_INCOMPLETE \/ state e = ARP_STATE_REACHABLE ->
  chain_step c (e :: c').
Proof.
  intros Hnd Hsub Hnew Hst.
  destruct (chain_step_sublist c c' Hnd Hsub) as [Hnd' Hold]. split.
  - simpl. apply NoDup_cons. split; [|done].
    intros (x & Hip & Hx)%list_elem_of_fmap.
    apply (Hnew x); [by eapply elem_of_sublist|done].
  - intros x [->|Hx]%elem_of_cons; [by right|by apply Hold].
Qed.

Lemma update_first_ips a g c :
  (forall e, ip (g e) = ip e) -> ip <$> update_first a g c = ip <$> c.
Proof.
  intros Hg. induction c as [|x c IH]; [done|]. cbn [update_first].
  destruct (ip x =? a); rewrite !fmap_cons; [by rewrite Hg|by rewrite IH].
Qed.

Lemma update_first_elem a g c e' :
  e' ∈ update_first a g c -> e' ∈ c \/ exists e, e ∈ c /\ e' = g e.
Proof.
  induction c as [|x c IH]; simpl; [by left|].
  destruct (ip x =? a).
  - intros [->|He]%elem_of_cons.
    + right. exists x. split; [left|done].
    + left. by right.
  - intros [->|He]%elem_of_cons; [left; left|].
    destruct (IH He) as [?|(e & ? & ->)]; [left; by right|].
    right. exists e. split; [by right|done].
Qed.

Lemma chain_step_update a g c :
  NoDup (ip <$> c) ->
  (forall e, ip (g e) = ip e) ->
  (forall e, entry_step (state e) (state (g e))) ->
  chain_step c (update_first a g c).
Proof.
  intros Hnd Hip Hst. split; [by rewrite update_first_ips|].
  intros e' He'. left.
  apply update_first_elem in He' as [He'|(e & He & ->)].
  - exists e'. split_and!; try done. by left.
  - exists e. by split_and!.
Qed.

Lemma remove_first_sublist a c : sublist (remove_first a c) c.
Proof.
  induction c as [|x c IH]; simpl; [done|].
  destruct (ip x =? a); [by apply sublist_cons|by apply sublist_skip].
Qed.

Lemma remove_first_gone a c :
  NoDup (ip <$> c) -> chain_find a (remove_first a c) = None.
Proof.
  intros Hnd. apply chain_find_None.
  induction c as [|x c IH]; simpl; [intros e He; by apply elem_of_nil in He|].
  apply NoDup_cons in Hnd as [Hx Hnd].
  destruct (ip x =? a) eqn:Hxa.
  - apply Z.eqb_eq in Hxa. intros e He Hip. apply Hx.
    apply list_elem_of_fmap. exists e. split; [congruence|done].
  - apply Z.eqb_neq in Hxa. intros e [->|He]%elem_of_cons; [done|by apply IH].
Qed.

#[local] Arguments bucket_of : simpl never.
#[local] Arguments hash_ipv4 : simpl never.
#[local] Arguments u16 : simpl never.
#[local] Arguments u64 : simpl never.
#[local] Arguments u32 : simpl never.
#[local] Arguments add32 : simpl never.
#[local] Arguments sub32 : simpl never.
#[local] Arguments ARP_CACHE_SIZE : simpl never.
#[local] Arguments arp_send_request : simpl never.
#[local] Arguments arp_allocate_entry : simpl never.
#[local] Arguments arp_find_entry : simpl never.
#[local] Arguments push_entry : simpl never.

(** ** The hash table *)

Lemma bucket_lt a : (bucket_of a < Z.to_nat ARP_CACHE_SIZE)%nat.
Proof.
  unfold bucket_of, ARP_CACHE_SIZE.
  pose proof (Z.mod_pos_bound (hash_ipv4 a) 1024). lia.
Qed.

Lemma lookup_chain_nodup cs k : chains_inv cs -> NoDup (ip <$> lookup_chain cs k).
Proof.
  intros [_ Hall]. unfold lookup_chain.
  destruct (cs !! k) as [c|] eqn:Hc; cbn; [|constructor].
  by apply (Forall_lookup_1 _ _ _ _ Hall Hc).
Qed.

Lemma chains_step_refl cs : chains_inv cs -> chains_step cs cs.
Proof.
  intros Hinv. split; [done|]. intros k.
  by apply chain_step_refl, lookup_chain_nodup.
Qed.

Lemma lookup_chain_insert cs i c k :
  (i < length cs)%nat ->
  lookup_chain (<[i := c]> cs) k = if decide (i = k) then c else lookup_chain cs k.
Proof.
  intros Hi. unfold lookup_chain. destruct (decide (i = k)) as [->|Hne].
  - by rewrite list_lookup_insert_eq.
  - by rewrite list_lookup_insert_ne.
Qed.

Lemma lookup_chain_alter f cs i k :
  f [] = [] ->
  lookup_chain (alter f i cs) k
  = if decide (i = k) then f (lookup_chain cs k) else lookup_chain cs k.
Proof.
  intros Hf. unfold lookup_chain. destruct (decide (i = k)) as [->|Hne].
  - rewrite list_lookup_alter_eq. by destruct (cs !! k).
  - by rewrite list_lookup_alter_ne.
Qed.

(** Replacing one chain by a chain that steps from it. *)
Lemma chains_step_insert cs i c :
  chains_inv cs -> (i < length cs)%nat ->
  chain_step (lookup_chain cs i) c ->
  chains_step cs (<[i := c]> cs).
Proof.
  intros [Hlen Hall] Hi Hc. split; [split|].
  - by rewrite length_insert.
  - apply Forall_insert; [done|]. by destruct Hc.
  - intros k. rewrite lookup_chain_insert by done.
    destruct (decide (i = k)) as [->|]; [done|].
    by apply chain_step_refl, lookup_chain_nodup.
Qed.

Lemma hash_table_bump f w : hash_table (table (bump f w)) = hash_table (table w).
Proof. done. Qed.

Lemma entry_state_chain w a :
  entry_state w a
  = state <$> chain_find a (lookup_chain (hash_table (table w)) (bucket_of a)).
Proof. done. Qed.

Lemma chains_step_entry_state w w' a :
  chains_inv (hash_table (table w)) ->
  chains_step (hash_table (table w)) (hash_table (table w')) ->
  arp_step (entry_state w a) (entry_state w' a).
Proof.
  intros Hinv [_ Hstep]. rewrite !entry_state_chain.
  apply chain_step_find; [by apply lookup_chain_nodup|done].
Qed.

(** Recycling only unlinks. *)
Lemma allocate_sublist t t1 :
  arp_allocate_entry t = Some t1 ->
  length (hash_table t1) = length (hash_table t)
  /\ forall k, sublist (lookup_chain (hash_table t1) k)
                       (lookup_chain (hash_table t) k).
Proof.
  unfold arp_allocate_entry. intros H.
  destruct (ARP_CACHE_SIZE <=? entry_count t).
  - destruct (find_oldest t) as [[i j]|]; [|done]. simplify_eq. cbn.
    split; [apply length_alter|]. intros k.
    rewrite lookup_chain_alter by done.
    destruct (decide (i = k)); [apply sublist_delete|done].
  - destruct (total_entries t <? ARP_CACHE_SIZE); by simplify_eq.
Qed.

Lemma chains_inv_sublists cs cs' :
  chains_inv cs -> length cs' = length cs ->
  (forall k, sublist (lookup_chain cs' k) (lookup_chain cs k)) ->
  chains_inv cs'.
Proof.
  intros Hinv Hlen Hsub. split; [destruct Hinv; congruence|].
  apply Forall_lookup. intros k c Hk.
  assert (c = lookup_chain cs' k) as -> by (unfold lookup_chain; by rewrite Hk).
  apply (sublist_NoDup _ (ip <$> lookup_chain cs k));
    [by apply lookup_chain_nodup|]. apply fmap_sublist, Hsub.
Qed.

Lemma chain_at_lookup t k : chain_at t k = lookup_chain (hash_table t) k.
Proof. reflexivity. Qed.

Lemma hash_table_push t e :
  hash_table (push_entry t e)
  = <[bucket_of (ip e) := e :: lookup_chain (hash_table t) (bucket_of (ip e))]>
      (hash_table t).
Proof. reflexivity. Qed.

(** Linking a fresh entry for an address that the table does not hold, after
    the allocation. *)
Lemma chains_step_push t t1 e :
  chains_inv (hash_table t) ->
  arp_allocate_entry t = Some t1 ->
  arp_find_entry t (ip e) = None ->
  state e = ARP_STATE_INCOMPLETE \/ state e = ARP_STATE_REACHABLE ->
  chains_step (hash_table t) (hash_table (push_entry t1 e))
  /\ arp_find_entry (push_entry t1 e) (ip e) = Some e.
Proof.
  intros Hinv Halloc Hnone Hst.
  apply allocate_sublist in Halloc as [Hlen Hsub].
  pose proof (chains_inv_sublists _ _ Hinv Hlen Hsub) as Hinv1.
  pose proof Hinv as [Hlen0 Hall].
  pose proof (bucket_lt (ip e)) as Hb.
  assert (chain_step (lookup_chain (hash_table t) (bucket_of (ip e)))
            (e :: lookup_chain (hash_table t1) (bucket_of (ip e)))) as Hpush.
  { eapply chain_step_push; [by apply lookup_chain_nodup|apply Hsub| |done].
    by apply chain_find_None. }
  rewrite hash_table_push. split.
  - split; [split|].
    + rewrite length_insert. lia.
    + apply Forall_insert; [by destruct Hinv1|by destruct Hpush].
    + intros k. rewrite lookup_chain_insert by lia.
      destruct (decide (bucket_of (ip e) = k)) as [<-|]; [done|].
      apply chain_step_sublist; [by apply lookup_chain_nodup|apply Hsub].
  - unfold arp_find_entry.
    rewrite chain_at_lookup, hash_table_push, lookup_chain_insert by lia.
    rewrite decide_True by done. cbn [find]. by rewrite Z.eqb_refl.
Qed.

Lemma add_entry_step w a hw port :
  chains_inv (hash_table (table w)) ->
  chains_step (hash_table (table w))
    (hash_table (table (snd (arp_add_entry w (Some a) (Some hw) port)))).
Proof.
  intros Hinv. unfold arp_add_entry.
  destruct (negb (initialized (table w))); [by apply chains_step_refl|].
  destruct (arp_find_entry (table w) a) as [e0|] eqn:Hf.
  - cbn. apply chains_step_insert; [done| |].
    + destruct Hinv as [-> _]. apply bucket_lt.
    + apply chain_step_update; [by apply lookup_chain_nodup|done|].
      intros e. right. by left.
  - destruct (arp_allocate_entry (table w)) as [t1|] eqn:Ha;
      [|by apply chains_step_refl].
    cbn.
    set (e := {| ip := a; mac := hw; state := ARP_STATE_REACHABLE;
                 created_time := time_counter w;
                 updated_time := time_counter w; port_index := port;
                 retry_count := 0 |}).
    by destruct (chains_step_push (table w) t1 e Hinv Ha Hf) as [? _]; [right|].
Qed.

Lemma lookup_step E w a :
  chains_inv (hash_table (table w)) ->
  chains_step (hash_table (table w))
    (hash_table (table (run_op E w (OpLookup a)))).
Proof.
  intros Hinv. unfold run_op, arp_lookup. cbn.
  destruct (negb (initialized (table w))); [by apply chains_step_refl|].
  destruct (arp_find_entry (table w) a) as [e0|] eqn:Hf.
  - destruct (state e0); by apply chains_step_refl.
  - destruct (arp_allocate_entry (table w)) as [t1|] eqn:Ha;
      [|by apply chains_step_refl].
    cbn. destruct (arp_send_request E (Some a) 0) as [? evs]. cbn.
    set (e := {| ip := a; mac := 0; state := ARP_STATE_INCOMPLETE;
                 created_time := time_counter w;
                 updated_time := time_counter w; port_index := 0;
                 retry_count := 0 |}).
    by destruct (chains_step_push (table w) t1 e Hinv Ha Hf) as [? _]; [left|].
Qed.

Lemma remove_step w a :
  chains_inv (hash_table (table w)) ->
  chains_step (hash_table (table w))
    (hash_table (table (snd (arp_remove_entry w (Some a))))).
Proof.
  intros Hinv. unfold arp_remove_entry.
  destruct (negb (initialized (table w))); [by apply chains_step_refl|].
  destruct (arp_find_entry (table w) a); [|by apply chains_step_refl].
  cbn. apply chains_step_insert; [done| |].
  - destruct Hinv as [-> _]. apply bucket_lt.
  - apply chain_step_sublist; [by apply lookup_chain_nodup|].
    apply remove_first_sublist.
Qed.

Lemma flush_step w :
  chains_inv (hash_table (table w)) ->
  chains_step (hash_table (table w)) (hash_table (table (snd (arp_flush w)))).
Proof.
  intros Hinv. unfold arp_flush.
  destruct (negb (initialized (table w))); [by apply chains_step_refl|].
  cbn. split; [split|].
  - rewrite length_replicate. by destruct Hinv.
  - apply Forall_forall. intros c [-> _]%elem_of_replicate. constructor.
  - intros k. apply chain_step_sublist; [by apply lookup_chain_nodup|].
    unfold lookup_chain at 1.
    destruct (replicate _ _ !! k) as [c|] eqn:Hc; cbn; [|apply sublist_nil_l].
    apply lookup_replicate in Hc as [-> _]. apply sublist_nil_l.
Qed.

Lemma age_chain_fst E now limit c acc :
  fst (age_chain E now limit c acc) = aged_chain now limit c.
Proof.
  revert acc. induction c as [|e c IH]; intros acc; [done|].
  cbn [age_chain aged_chain omap list_omap].
  destruct (age_entry now limit e) as [[e'|] sent]; cbn.
  - destruct (age_chain E now limit c _) as [rest acc'] eqn:Hrest. cbn.
    f_equal. etrans; [|apply IH]. by rewrite Hrest.
  - apply IH.
Qed.

Lemma age_buckets_fst E now limit cs acc :
  fst (age_buckets E now limit cs acc) = aged_chain now limit <$> cs.
Proof.
  revert acc. induction cs as [|c cs IH]; intros acc; [done|].
  cbn [age_buckets]. rewrite fmap_cons.
  destruct (age_chain E now limit c acc) as [c' acc'] eqn:Hc.
  destruct (age_buckets E now limit cs acc') as [rest acc''] eqn:Hrest. cbn.
  f_equal.
  - by rewrite <- (age_chain_fst E now limit c acc), Hc.
  - by rewrite <- (IH acc'), Hrest.
Qed.

Lemma age_entry_step now limit e e' sent :
  age_entry now limit e = (Some e', sent) ->
  ip e' = ip e /\ entry_step (state e) (state e').
Proof.
  unfold age_entry. intros H.
  repeat case_match; simplify_eq; cbn; split; try done; try (by left).
  right. right. split; [|done].
  match goal with
  | Hc : _ && _ = true |- _ =>
      apply andb_true_iff in Hc as [Hc _]; by apply bool_decide_eq_true in Hc
  end.
Qed.

Lemma aged_chain_ips now limit c :
  sublist (ip <$> aged_chain now limit c) (ip <$> c).
Proof.
  induction c as [|e c IH]; [done|].
  cbn [aged_chain omap list_omap]. rewrite fmap_cons.
  destruct (age_entry now limit e) as [[e'|] sent] eqn:He; cbn.
  - apply age_entry_step in He as [-> _]. by apply sublist_skip.
  - by apply sublist_cons.
Qed.

Lemma aged_chain_step now limit c :
  NoDup (ip <$> c) -> chain_step c (aged_chain now limit c).
Proof.
  intros Hnd. split.
  - eapply sublist_NoDup; [exact Hnd|apply aged_chain_ips].
  - intros e' (e & He & Hage)%list_elem_of_omap. left. exists e.
    destruct (age_entry now limit e) as [o sent] eqn:Ha. cbn in Hage. subst o.
    apply age_entry_step in Ha as [? ?]. by split_and!.
Qed.

Lemma age_step E w :
  chains_inv (hash_table (table w)) ->
  chains_step (hash_table (table w))
    (hash_table (table (snd (arp_age_entries E w)))).
Proof.
  intros Hinv. unfold arp_age_entries.
  destruct (negb (initialized (table w))); [by apply chains_step_refl|].
  cbn [get_current_time table].
  destruct (age_buckets E (time_counter w) (timeout (table w))
              (hash_table (table w)) _) as [chains acc] eqn:Hb.
  assert (chains = aged_chain (time_counter w) (timeout (table w))
                     <$> hash_table (table w)) as ->
    by (etrans; [|apply (age_buckets_fst E)]; by rewrite Hb).
  destruct (0 <? aged_count acc); cbn.
  all: split; [split|].
  all: try (rewrite length_fmap; by destruct Hinv).
  all: try (apply Forall_fmap, Forall_forall; intros c Hc; cbn;
            apply aged_chain_step;
            destruct Hinv as [_ Hall]; by apply (proj1 (Forall_forall _ _) Hall)).
  all: intros k; unfold lookup_chain at 2; rewrite list_lookup_fmap;
       fold (lookup_chain (hash_table (table w)) k).
  all: unfold lookup_chain at 1;
       destruct (hash_table (table w) !! k) as [c|] eqn:Hc; cbn.
  all: try (apply aged_chain_step;
            destruct Hinv as [_ Hall]; by apply (Forall_lookup_1 _ _ _ _ Hall Hc)).
  all: apply chain_step_refl; constructor.
Qed.

(** ** Sequences of operations *)

Lemma run_op_step E w op :
  table_inv (table w) ->
  chains_step (hash_table (table w)) (hash_table (table (run_op E w op))).
Proof.
  intros Hinv. destruct op.
  - by apply add_entry_step.
  - by apply lookup_step.
  - by apply age_step.
  - by apply flush_step.
  - by apply remove_step.
Qed.

Lemma arp_step_keeps_unused s s' x :
  arp_step s s' -> s' = Some x ->
  x = ARP_STATE_STALE \/ x = ARP_STATE_DELAY \/ x = ARP_STATE_PROBE ->
  s = Some x.
Proof. intros Hs -> Hx. destruct Hx as [-> | [-> | ->]]; by inversion Hs. Qed.

Lemma run_ops_snoc E w ops op :
  run_ops E w (ops ++ [op]) = run_op E (run_ops E w ops) op.
Proof. unfold run_ops. by rewrite foldl_snoc. Qed.

Lemma run_ops_inv E w ops :
  table_inv (table w) -> table_inv (table (run_ops E w ops)).
Proof.
  revert w. induction ops as [|op ops IH]; intros w Hinv; [done|].
  apply (IH (run_op E w op)). by destruct (run_op_step E w op Hinv).
Qed.

Lemma run_ops_keep_unused E w ops a x :
  table_inv (table w) ->
  entry_state (run_ops E w ops) a = Some x ->
  x = ARP_STATE_STALE \/ x = ARP_STATE_DELAY \/ x = ARP_STATE_PROBE ->
  entry_state w a = Some x.
Proof.
  revert w. induction ops as [|op ops IH]; intros w Hinv Hx Hkind; [done|].
  pose proof (run_op_step E w op Hinv) as Hstep.
  eapply arp_step_keeps_unused; [|eapply (IH (run_op E w op))|done]; try done.
  - by apply chains_step_entry_state.
  - by destruct Hstep.
Qed.

(** ** Lookup *)

Lemma send_request_events E a port :
  exists evs, snd (arp_send_request E (Some a) port) = evs
    /\ (length evs <= 1)%nat
    /\ wire_requests evs = (if transmit_ready E port then 1 else 0)%nat
    /\ Forall (fun ev => exists status on_wire,
                 ev = RequestTransmit port (request_frame E a) status on_wire) evs.
Proof.
  eexists. split; [reflexivity|].
  unfold arp_send_request, transmit_ready, Packet.packet_buffer_alloc, malloc.
  unfold sizeof_ethernet_header_t, sizeof_arp_packet_t.
  change (14 + 32) with 46. change (46 =? 0) with false. cbv iota.
  destruct (Packet.g_initialized (env_packet E)) eqn:Hi; cbn;
    [|split_and!; [lia|done|constructor]].
  destruct (heap_grant_header (env_heap E)); cbn;
    [|split_and!; [lia|done|constructor]].
  destruct (heap_grant (env_heap E) _); cbn;
    [|split_and!; [lia|done|constructor]].
  unfold Packet.packet_transmit. rewrite Hi. cbn.
  destruct (Packet.port_is_valid (env_ports E) port); cbn.
  2:{ split_and!; [cbn; lia|done|]. repeat constructor. eauto. }
  destruct (Packet.port_get_state (env_ports E) port) as [[] []]; cbn.
  all: split_and!; [cbn; lia|done|]; repeat constructor; eauto.
Qed.

Lemma allocate_stats t t1 :
  arp_allocate_entry t = Some t1 -> stats t1 = stats t.
Proof.
  unfold arp_allocate_entry. intros H.
  destruct (ARP_CACHE_SIZE <=? entry_count t).
  - destruct (find_oldest t) as [[i j]|]; [|done]. by simplify_eq.
  - destruct (total_entries t <? ARP_CACHE_SIZE); by simplify_eq.
Qed.

(** C3. On an initialized table whose chains hold every address at most once,
    [arp_lookup] answers [STATUS_SUCCESS] with the MAC and the port of a
    Reachable entry and counts a cache hit; it answers [ARP_STATUS_PENDING]
    for an Incomplete entry and [STATUS_NOT_FOUND] for a Failed one, and
    leaves the cache as it was. For an absent address it answers
    [STATUS_RESOURCE_EXHAUSTED] when no entry can be allocated; otherwise it
    links an Incomplete entry with a zero MAC, adds one to [requests_sent]
    and answers [ARP_STATUS_PENDING] after at most one call to
    [packet_transmit], and the request reaches the hardware exactly when the
    packet subsystem is up, the buffer is granted and port 0 is valid and
    up. *)
Theorem arp_lookup_outcomes E w a :
  initialized (table w) = true -> table_inv (table w) ->
  (forall e, arp_find_entry (table w) a = Some e ->
     state e = ARP_STATE_REACHABLE ->
     arp_lookup E w (Some a) true true
     = (STATUS_SUCCESS, bump inc_cache_hits w, Some (mac e), Some (port_index e)))
  /\ (forall e, arp_find_entry (table w) a = Some e ->
        state e = ARP_STATE_INCOMPLETE ->
        arp_lookup E w (Some a) true true = (ARP_STATUS_PENDING, w, None, None))
  /\ (forall e, arp_find_entry (table w) a = Some e ->
        state e = ARP_STATE_FAILED ->
        arp_lookup E w (Some a) true true = (STATUS_NOT_FOUND, w, None, None))
  /\ (arp_find_entry (table w) a = None ->
      arp_allocate_entry (table w) = None ->
      arp_lookup E w (Some a) true true
      = (STATUS_RESOURCE_EXHAUSTED, w, None, None))
  /\ (arp_find_entry (table w) a = None ->
      forall t1, arp_allocate_entry (table w) = Some t1 ->
      exists w' e evs,
        arp_lookup E w (Some a) true true = (ARP_STATUS_PENDING, w', None, None)
        /\ arp_find_entry (table w') a = Some e
        /\ state e = ARP_STATE_INCOMPLETE /\ mac e = 0 /\ retry_count e = 0
        /\ requests_sent (stats (table w'))
           = u64 (requests_sent (stats (table w)) + 1)
        /\ events w' = events w ++ evs
        /\ (length evs <= 1)%nat
        /\ wire_requests evs = (if transmit_ready E 0 then 1 else 0)%nat
        /\ Forall (fun ev => exists status on_wire,
                     ev = RequestTransmit 0 (request_frame E a) status on_wire)
             evs).
Proof.
  intros Hi Hinv. unfold arp_lookup. rewrite Hi. cbn [negb].
  split_and!.
  - by intros e -> ->.
  - by intros e -> ->.
  - by intros e -> ->.
  - by intros -> ->.
  - intros Hf t1 Ha. rewrite Hf, Ha.
    cbn [get_current_time with_table table time_counter events].
    destruct (send_request_events E a 0) as (evs & Hevs & Hlen & Hwire & Hall).
    destruct (arp_send_request E (Some a) 0) as [status evs0]. cbn in Hevs. subst evs0.
    set (e := {| ip := a; mac := 0; state := ARP_STATE_INCOMPLETE;
                 created_time := time_counter w;
                 updated_time := time_counter w; port_index := 0;
                 retry_count := 0 |}).
    destruct (chains_step_push (table w) t1 e Hinv Ha Hf) as [_ Hfound]; [by left|].
    eexists _, e, evs. split; [reflexivity|].
    split_and!; try done.
    cbn. unfold push_entry. cbn. by rewrite (allocate_stats _ _ Ha).
Qed.

(** ** Received frames *)

Lemma chain_find_update a g c e :
  (forall x, ip (g x) = ip x) ->
  chain_find a c = Some e -> chain_find a (update_first a g c) = Some (g e).
Proof.
  intros Hg. unfold chain_find. induction c as [|x c IH]; [done|].
  cbn [find update_first]. destruct (ip x =? a) eqn:Hx.
  - intros [= ->]. cbn [find]. by rewrite Hg, Hx.
  - cbn [find]. rewrite Hx. apply IH.
Qed.

Lemma find_entry_insert t a c n :
  (bucket_of a < length (hash_table t))%nat ->
  arp_find_entry (with_chains t (<[bucket_of a := c]> (hash_table t)) n) a
  = chain_find a c.
Proof.
  intros Hlt. unfold arp_find_entry. rewrite chain_at_lookup. cbn.
  rewrite lookup_chain_insert by done. by rewrite decide_True.
Qed.

Lemma find_entry_with_stats t s a :
  arp_find_entry (with_stats t s) a = arp_find_entry t a.
Proof. reflexivity. Qed.

(** What [arp_add_entry] leaves behind when it reports success. *)
Lemma add_entry_learns w a hw port w' :
  table_inv (table w) ->
  arp_add_entry w (Some a) (Some hw) port = (STATUS_SUCCESS, w') ->
  exists e, arp_find_entry (table w') a = Some e
            /\ mac e = hw /\ state e = ARP_STATE_REACHABLE
            /\ port_index e = port.
Proof.
  intros Hinv. unfold arp_add_entry.
  destruct (negb (initialized (table w))); [done|].
  destruct (arp_find_entry (table w) a) as [e0|] eqn:Hf.
  - intros Heq. apply (f_equal snd) in Heq. cbn [snd] in Heq. subst w'. cbn.
    eexists. split.
    { rewrite find_entry_with_stats, (find_entry_insert (table w)).
      2:{ destruct Hinv as [-> _]. apply bucket_lt. }
      rewrite chain_at_lookup.
      unfold arp_find_entry in Hf. rewrite chain_at_lookup in Hf.
      by apply (chain_find_update a _ _ e0). }
    done.
  - destruct (arp_allocate_entry (table w)) as [t1|] eqn:Ha; [|done].
    intros Heq. apply (f_equal snd) in Heq. cbn [snd] in Heq. subst w'. cbn.
    set (e := {| ip := a; mac := hw; state := ARP_STATE_REACHABLE;
                 created_time := time_counter w;
                 updated_time := time_counter w; port_index := port;
                 retry_count := 0 |}).
    destruct (chains_step_push (table w) t1 e Hinv Ha Hf) as [_ Hfound];
      [by right|].
    exists e. split; [|done].
    by rewrite find_entry_with_stats.
Qed.

Lemma add_entry_quiet w a hw port :
  exists evs,
    events (snd (arp_add_entry w a hw port)) = events w ++ evs /\ quiet evs
    /\ replies_sent (stats (table (snd (arp_add_entry w a hw port))))
       = replies_sent (stats (table w)).
Proof.
  unfold arp_add_entry. destruct a as [a|], hw as [hw|];
    try (exists []; split_and!; [by rewrite app_nil_r|constructor|done]).
  destruct (negb (initialized (table w)));
    [exists []; split_and!; [by rewrite app_nil_r|constructor|done]|].
  destruct (arp_find_entry (table w) a) as [e0|] eqn:Hf.
  - cbn. eexists. split_and!; [done|by repeat constructor|done].
  - destruct (arp_allocate_entry (table w)) as [t1|] eqn:Ha;
      [|exists []; split_and!; [by rewrite app_nil_r|constructor|done]].
    cbn. eexists. split_and!; [done|by repeat constructor|].
    unfold push_entry. cbn. by rewrite (allocate_stats _ _ Ha).
Qed.

(** C5. [arp_handle_frame] never answers: for every frame on which it
    returns, the calls it has added hold no [port_send_packet_ext] and
    [replies_sent] is unchanged. The test for a local target address is the
    constant [false] in [arp_process_packet]. *)
Theorem request_is_never_answered E w p st w' :
  arp_handle_frame E w (Some p) = Ret (st, w') ->
  exists evs, events w' = events w ++ evs /\ quiet evs
              /\ replies_sent (stats (table w')) = replies_sent (stats (table w)).
Proof.
  unfold arp_handle_frame, arp_process_packet.
  set (port := Packet.port (Packet.metadata p)).
  destruct (negb (initialized (table w)));
    [intros [= <- <-]; exists []; split_and!; [by rewrite app_nil_r|constructor|done]|].
  destruct (Packet.size p <? sizeof_arp_packet_t);
    [intros [= <- <-]; exists []; split_and!; [by rewrite app_nil_r|constructor|done]|].
  destruct (Packet.data p) as [d|]; [|done].
  destruct (mem_read d 0 sizeof_arp_packet_t) as [bytes|]; [|done].
  set (a := env_arp_view E bytes).
  destruct (negb (arp_packet_well_formed a));
    [intros [= <- <-]; exists []; split_and!; [by rewrite app_nil_r|constructor|done]|].
  destruct (add_entry_quiet w (Some (sender_ip a)) (Some (sender_mac a)) port)
    as (evs & Hev & Hq & Hr).
  set (w1 := snd (arp_add_entry w (Some (sender_ip a)) (Some (sender_mac a)) port)) in *.
  clearbody w1.
  destruct (operation a =? ARP_OP_REQUEST); [|destruct (operation a =? ARP_OP_REPLY)];
    intros [= <- <-]; exists evs; by split_and!.
Qed.

(** The learning step of [arp_process_packet]: a well-formed request or
    reply leaves its sender in the cache, Reachable, whenever the inner
    [arp_add_entry] succeeds. *)
Lemma handle_frame_learns_sender E w p d bytes st w' :
  table_inv (table w) ->
  Packet.data p = Some d ->
  mem_read d 0 sizeof_arp_packet_t = Some bytes ->
  arp_packet_well_formed (env_arp_view E bytes) = true ->
  fst (arp_add_entry w (Some (sender_ip (env_arp_view E bytes)))
         (Some (sender_mac (env_arp_view E bytes)))
         (Packet.port (Packet.metadata p))) = STATUS_SUCCESS ->
  arp_handle_frame E w (Some p) = Ret (st, w') ->
  st = STATUS_SUCCESS ->
  exists e,
    arp_find_entry (table w') (sender_ip (env_arp_view E bytes)) = Some e
    /\ mac e = sender_mac (env_arp_view E bytes)
    /\ state e = ARP_STATE_REACHABLE
    /\ port_index e = Packet.port (Packet.metadata p).
Proof.
  intros Hinv Hd Hb Hwf Hadd. unfold arp_handle_frame, arp_process_packet.
  rewrite Hd, Hb, Hwf. cbn [negb].
  set (a := env_arp_view E bytes) in *.
  set (port := Packet.port (Packet.metadata p)) in *.
  destruct (arp_add_entry w (Some (sender_ip a)) (Some (sender_mac a)) port)
    as [s1 w1] eqn:Hw1.
  cbn [fst snd] in *. subst s1.
  apply (add_entry_learns _ _ _ _ _ Hinv) in Hw1 as (e & Hfind & Hrest).
  destruct (negb (initialized (table w))); [by intros [= <- <-] [=]|].
  destruct (Packet.size p <? sizeof_arp_packet_t); [by intros [= <- <-] [=]|].
  destruct (operation a =? ARP_OP_REQUEST); [|destruct (operation a =? ARP_OP_REPLY)].
  - intros [= <- <-] _. exists e. unfold bump. cbn [table with_table].
    by rewrite find_entry_with_stats.
  - intros [= <- <-] _. exists e. unfold bump. cbn [table with_table].
    by rewrite find_entry_with_stats.
  - by intros [= <- <-] [=].
Qed.

(** ** Concrete runs of the cache *)

Lemma init_world_inv : table_inv (table init_world).
Proof.
  split; [reflexivity|]. apply Forall_replicate. constructor.
Defined.

(** C3, the part that does not hold: with port 0 down, a lookup of an absent
    address answers [ARP_STATUS_PENDING] and counts a request in
    [requests_sent], and no request has reached the hardware. *)
Example lookup_counts_a_request_that_was_not_sent :
  let E := sample_env true false in
  exists w',
    arp_lookup E init_world (Some 0x0a000002) true true
    = (ARP_STATUS_PENDING, w', None, None)
    /\ requests_sent (stats (table w')) = 1
    /\ events w'
       = [RequestTransmit 0 (request_frame E 0x0a000002)
            STATUS_RESOURCE_UNAVAILABLE false]
    /\ wire_requests (events w') = 0%nat.
Proof. eexists. split; [vm_compute; reflexivity|]. vm_compute. done. Qed.

(** With the packet subsystem not initialized, [packet_transmit] is not even
    called. *)
Example lookup_without_packet_layer_sends_nothing :
  exists w',
    arp_lookup (sample_env false true) init_world (Some 0x0a000002) true true
    = (ARP_STATUS_PENDING, w', None, None)
    /\ requests_sent (stats (table w')) = 1
    /\ events w' = [].
Proof. eexists. split; [vm_compute; reflexivity|]. vm_compute. done. Qed.

(** C4, the transitions that the code performs outside the relation of the
    specification: an address whose resolution has failed becomes Reachable
    when a mapping for it is added, and a flush unlinks the entry instead of
    making it Incomplete. *)
Example failed_entry_becomes_reachable :
  entry_state failed_world 0x0a000002 = Some ARP_STATE_FAILED
  /\ entry_state
       (run_op (sample_env true true) failed_world
          (OpAddOrUpdate 0x0a000002 0x020000000002 3))
       0x0a000002
     = Some ARP_STATE_REACHABLE
  /\ spec_transition ARP_STATE_FAILED ARP_STATE_REACHABLE = false
  /\ entry_state (run_op (sample_env true true) failed_world OpFlush) 0x0a000002
     = None.
Proof. vm_compute. done. Qed.

(** A well-formed request from 10.0.0.2 for our address 10.0.0.1, received on
    port 3: the sender is learned, the request is counted, and nothing is
    sent back. *)
Example request_for_our_address_gets_no_reply :
  let E := sample_env true true in
  let a := host_view request_bytes in
  arp_packet_well_formed a = true
  /\ operation a = ARP_OP_REQUEST
  /\ target_ip a = env_our_ip E
  /\ exists w',
       arp_handle_frame E init_world (Some request_packet)
       = Ret (STATUS_SUCCESS, w')
       /\ events w' = [MacTableAdd (sender_mac a) 3 VLAN_ID_DEFAULT false]
       /\ replies_sent (stats (table w')) = 0
       /\ requests_received (stats (table w')) = 1
       /\ (mac <$> arp_find_entry (table w') (sender_ip a))
          = Some (sender_mac a).
Proof.
  split_and!; [vm_compute; reflexivity..|].
  eexists. split; [vm_compute; reflexivity|]. vm_compute. done.
Qed.

Lemma arp_lookup_outcomes_witness :
  exists w' e evs,
    arp_lookup (sample_env true true) init_world (Some 0x0a000002) true true
    = (ARP_STATUS_PENDING, w', None, None)
    /\ arp_find_entry (table w') 0x0a000002 = Some e
    /\ state e = ARP_STATE_INCOMPLETE /\ mac e = 0 /\ retry_count e = 0
    /\ requests_sent (stats (table w'))
       = u64 (requests_sent (stats (table init_world)) + 1)
    /\ events w' = events init_world ++ evs
    /\ (length evs <= 1)%nat
    /\ wire_requests evs
       = (if transmit_ready (sample_env true true) 0 then 1 else 0)%nat
    /\ Forall (fun ev => exists status on_wire,
                 ev = RequestTransmit 0
                        (request_frame (sample_env true true) 0x0a000002)
                        status on_wire) evs.
Proof.
  destruct (arp_lookup_outcomes (sample_env true true) init_world 0x0a000002)
    as (_ & _ & _ & _ & Hnew).
  - reflexivity.
  - exact init_world_inv.
  - apply (Hnew ltac:(vm_compute; reflexivity) (table init_world)).
    vm_compute. reflexivity.
Defined.

Lemma request_is_never_answered_witness :
  exists evs,
    events (world_after (arp_handle_frame (sample_env true true) init_world
                           (Some request_packet)))
    = events init_world ++ evs
    /\ quiet evs
    /\ replies_sent
         (stats (table (world_after
                          (arp_handle_frame (sample_env true true) init_world
                             (Some request_packet)))))
       = replies_sent (stats (table init_world)).
Proof.
  apply (request_is_never_answered (sample_env true true) init_world
           request_packet STATUS_SUCCESS).
  vm_compute. reflexivity.
Defined.

End ArpTheory.

(** * Properties of the packet buffers, the registry and the pipeline, continued *)

Module PacketBehaviour.
Import Packet PacketTheory.

(** ** Contents of a buffer after the operations that write it *)

Lemma packet_bytes_data p d :
  data p = Some d -> packet_bytes p = take (Z.to_nat (size p)) d.
Proof. unfold packet_bytes. by intros ->. Qed.

Lemma u32_add_small a b : 0 <= a -> 0 <= b -> a + b < 2 ^ 32 -> add32 a b = a + b.
Proof. intros. unfold add32. apply u32_small. lia. Qed.

Lemma mem_write_in_range (d : list byte) off src :
  0 <= off -> off + Z.of_nat (length src) <= Z.of_nat (length d) ->
  mem_write d off src
  = Some (take (Z.to_nat off) d ++ src
          ++ drop (Z.to_nat off + length src)%nat d).
Proof.
  intros Ho Hl. unfold mem_write.
  replace (0 <=? off) with true by (symmetry; apply Z.leb_le; lia).
  by replace (off + Z.of_nat (length src) <=? Z.of_nat (length d)) with true
    by (symmetry; apply Z.leb_le; lia).
Qed.

Lemma mem_write_is_Some (d : list byte) off src :
  0 <= off -> off + Z.of_nat (length src) <= Z.of_nat (length d) ->
  exists d', mem_write d off src = Some d' /\ length d' = length d.
Proof.
  intros Ho Hl. rewrite mem_write_in_range by done. eexists. split; [done|].
  rewrite !length_app, length_take, length_drop. lia.
Qed.

Lemma mem_move_is_Some (d : list byte) dst src n :
  0 <= src -> 0 <= n -> src + n <= Z.of_nat (length d) ->
  0 <= dst -> dst + n <= Z.of_nat (length d) ->
  exists d', mem_move d dst src n = Some d' /\ length d' = length d.
Proof.
  intros. unfold mem_move. rewrite mem_read_in_range by done.
  apply mem_write_is_Some; [done|].
  rewrite length_take, length_drop. lia.
Qed.

Lemma mem_read_all (s : list byte) :
  mem_read s 0 (Z.of_nat (length s)) = Some s.
Proof.
  rewrite mem_read_in_range by lia. by rewrite Nat2Z.id, drop_0, firstn_all.
Qed.

Lemma mem_write_outside (d : list byte) off src :
  Z.of_nat (length d) < off + Z.of_nat (length src) -> mem_write d off src = None.
Proof.
  intros Hout. unfold mem_write.
  replace (off + Z.of_nat (length src) <=? Z.of_nat (length d)) with false
    by (symmetry; apply Z.leb_gt; lia).
  by rewrite andb_false_r.
Qed.

Lemma mem_read_outside (d : list byte) off n :
  Z.of_nat (length d) < off + n -> mem_read d off n = None.
Proof.
  intros Hout. unfold mem_read.
  replace (off + n <=? Z.of_nat (length d)) with false
    by (symmetry; apply Z.leb_gt; lia).
  by rewrite andb_false_r.
Qed.

Lemma add32_wraps a b :
  0 <= a < 2 ^ 32 -> 0 <= b < 2 ^ 32 -> 2 ^ 32 <= a + b ->
  add32 a b = a + b - 2 ^ 32.
Proof.
  intros Ha Hb Hw. unfold add32, u32.
  symmetry. apply Z.mod_unique_pos with (q := 1); lia.
Qed.

Lemma insert_fits h st p off s :
  g_initialized st = true -> buffer_inv p -> 0 <= off <= size p ->
  0 < Z.of_nat (length s) -> size p + Z.of_nat (length s) <= capacity p ->
  exists q,
    packet_insert h st (Some p) off (Some s) (Z.of_nat (length s))
    = Ret (STATUS_SUCCESS, Some q).
Proof.
  intros Hi Hp Hoff Hlen Hfit. pose proof Hp as (d & Hd & Hcap & Hs & Hmax).
  pose proof (is_valid_of_inv p Hp) as Hv.
  assert ((Z.of_nat (length s) =? 0) = false) as Hz by (apply Z.eqb_neq; lia).
  unfold packet_insert. rewrite Hi, Hv, Hz. cbn [negb].
  replace (size p <? off) with false by (symmetry; apply Z.ltb_ge; lia).
  rewrite u32_add_small by lia.
  replace (capacity p <? size p + Z.of_nat (length s)) with false
    by (symmetry; apply Z.ltb_ge; lia).
  rewrite Hd, mem_read_all.
  destruct (off <? size p) eqn:Hlt.
  - apply Z.ltb_lt in Hlt. unfold sub32. rewrite u32_small by lia.
    destruct (mem_move_is_Some d (off + Z.of_nat (length s)) off (size p - off))
      as (d2 & -> & Hl2); try lia.
    destruct (mem_write_is_Some d2 off s) as (d3 & -> & Hl3); try lia.
    by eexists.
  - destruct (mem_write_is_Some d off s) as (d3 & -> & Hl3); try lia.
    by eexists.
Qed.


(** X1. [packet_insert] of a non-empty block [s], its length given as
    [len], at a 32-bit offset into a buffer that satisfies the invariant, on
    an initialized subsystem. When the offset is within the packet and the
    capacity has room for [size + len], the call succeeds and the packet
    holds the bytes before the offset, then [s], then the bytes from the
    offset on; the size grows by the length of [s], capacity and metadata
    stay, and the invariant holds. An offset past the size is refused with
    [STATUS_OUT_OF_BOUNDS] and the packet is unchanged. (An insertion for
    which the capacity lacks room is not covered here.) *)
Theorem insert_places_bytes h st p off s :
  g_initialized st = true -> buffer_inv p -> in_u32 off ->
  0 < Z.of_nat (length s) ->
  (off <= size p -> size p + Z.of_nat (length s) <= capacity p ->
     exists q,
       packet_insert h st (Some p) off (Some s) (Z.of_nat (length s))
       = Ret (STATUS_SUCCESS, Some q)
       /\ packet_bytes q = splice off s (packet_bytes p)
       /\ size q = size p + Z.of_nat (length s)
       /\ capacity q = capacity p /\ metadata q = metadata p
       /\ buffer_inv q)
  /\ (size p < off ->
        packet_insert h st (Some p) off (Some s) (Z.of_nat (length s))
        = Ret (STATUS_OUT_OF_BOUNDS, Some p)).
Proof.
  intros Hi Hp Hoff Hlen. pose proof Hp as (d & Hd & Hcap & Hs & Hmax).
  pose proof (is_valid_of_inv p Hp) as Hv. unfold in_u32 in Hoff.
  assert ((Z.of_nat (length s) =? 0) = false) as Hz by (apply Z.eqb_neq; lia).
  split.
  - intros Hle Hfit.
    destruct (insert_fits h st p off s) as [q Hq]; try done; try lia.
    exists q. split; [done|].
    assert (in_u32 off) as Hou by (unfold in_u32; lia).
    assert (in_u32 (Z.of_nat (length s))) as Hlu by (unfold in_u32; lia).
    pose proof (insert_inv _ _ _ _ _ _ _ _ Hp Hou Hlu Hq) as Hinv.
    apply insert_success in Hq as (d' & Hd' & _ & _ & _ & _ & Hsz & Hc & Hm & _ & Hdq);
      [|done|done|lia].
    rewrite Hd in Hd'. injection Hd' as <-.
    split_and!; try done.
    rewrite (packet_bytes_data q _ Hdq), (packet_bytes_data p _ Hd), Hsz.
    unfold splice. rewrite Nat2Z.id, firstn_all.
    rewrite take_take, Nat.min_l by lia.
    rewrite take_drop_commute.
    replace (Z.to_nat off + Z.to_nat (size p - off))%nat with (Z.to_nat (size p)) by lia.
    rewrite !app_assoc. rewrite take_app_length'; [done|].
    rewrite !length_app, length_drop, !length_take. lia.
  - intros Hlt. unfold packet_insert. rewrite Hi, Hv, Hz. cbn [negb].
    by replace (size p <? off) with true by (symmetry; apply Z.ltb_lt; lia).
Qed.

Lemma insert_places_bytes_witness :
  exists q,
    packet_insert heap_ok init_state (Some sample_buffer) 1
      (Some [Byte.x0a; Byte.x0b]) 2
    = Ret (STATUS_SUCCESS, Some q)
    /\ packet_bytes q
       = [Byte.x01; Byte.x0a; Byte.x0b; Byte.x02; Byte.x03; Byte.x04].
Proof.
  destruct (insert_places_bytes heap_ok init_state sample_buffer 1
              [Byte.x0a; Byte.x0b]) as (Hfit & _).
  - reflexivity.
  - exact sample_buffer_inv.
  - unfold in_u32. lia.
  - simpl. lia.
  - destruct Hfit as (q & Hq & Hbytes & _); [simpl; lia|simpl; lia|].
    exists q. split; [exact Hq|]. rewrite Hbytes. reflexivity.
Defined.

(** X2. [packet_remove] on a buffer that satisfies the invariant, with
    [offset + len] below [2^32]: a zero length is refused with
    [STATUS_INVALID_PARAMETER], a range that passes the size with
    [STATUS_OUT_OF_BOUNDS], both leaving the packet unchanged; a range within
    the packet is cut out, the bytes after it moving down, the size shrinking
    by [len], capacity and metadata staying. *)
Theorem remove_cuts_range st p off len :
  g_initialized st = true -> buffer_inv p ->
  in_u32 off -> in_u32 len -> off + len < 2 ^ 32 ->
  (len = 0 ->
     packet_remove st (Some p) off len = Ret (STATUS_INVALID_PARAMETER, Some p))
  /\ (0 < len -> size p < off + len ->
        packet_remove st (Some p) off len = Ret (STATUS_OUT_OF_BOUNDS, Some p))
  /\ (0 < len -> off + len <= size p ->
        exists q,
          packet_remove st (Some p) off len = Ret (STATUS_SUCCESS, Some q)
          /\ packet_bytes q = cut off len (packet_bytes p)
          /\ size q = size p - len
          /\ capacity q = capacity p /\ metadata q = metadata p
          /\ buffer_inv q).
Proof.
  intros Hi Hp Hoff Hlen Hsum. pose proof Hp as (d & Hd & Hcap & Hs & Hmax).
  pose proof (is_valid_of_inv p Hp) as Hv. unfold in_u32 in *.
  unfold packet_remove. rewrite Hi, Hv. cbn [negb].
  rewrite u32_add_small by lia.
  split_and!.
  - by intros ->.
  - intros Hpos Hbig.
    replace (len =? 0) with false by (symmetry; apply Z.eqb_neq; lia).
    by replace (size p <? off + len) with true by (symmetry; apply Z.ltb_lt; lia).
  - intros Hpos Hfit.
    replace (len =? 0) with false by (symmetry; apply Z.eqb_neq; lia).
    replace (size p <? off + len) with false by (symmetry; apply Z.ltb_ge; lia).
    rewrite Hd. unfold sub32. rewrite !u32_small by lia.
    assert (forall d', length d' = length d ->
              buffer_inv (set_size (set_data p d') (size p - len))) as Hinv.
    { intros d' Hl. exists d'. cbn. split_and!; try done; lia. }
    destruct (off + len <? size p) eqn:Hlt.
    + apply Z.ltb_lt in Hlt.
      destruct (mem_move_is_Some d off (off + len) (size p - (off + len)))
        as (d2 & Hmv & Hl2); try lia.
      rewrite Hmv. eexists. split; [done|].
      split_and!; try done; [|by apply Hinv].
      apply mem_move_Some in Hmv as (_ & _ & _ & _ & _ & -> & _).
      unfold packet_bytes. cbn. rewrite Hd. unfold cut.
      rewrite take_app_ge by (rewrite length_take; lia).
      rewrite length_take, Nat.min_l by lia.
      rewrite take_take, Nat.min_l by lia. f_equal.
      rewrite take_app_ge by (rewrite length_take, length_drop; lia).
      rewrite length_take, length_drop, Nat.min_l by lia.
      replace (Z.to_nat (size p - len) - Z.to_nat off
               - Z.to_nat (size p - (off + len)))%nat with 0%nat by lia.
      rewrite take_0, app_nil_r.
      rewrite take_drop_commute.
      by replace (Z.to_nat (off + len) + Z.to_nat (size p - (off + len)))%nat
        with (Z.to_nat (size p)) by lia.
    + apply Z.ltb_ge in Hlt. eexists. split; [done|].
      split_and!; try done; [|by apply Hinv].
      unfold packet_bytes. cbn. rewrite Hd. unfold cut.
      rewrite take_take, Nat.min_l by lia.
      rewrite drop_ge by (rewrite length_take; lia).
      rewrite app_nil_r. f_equal. lia.
Qed.

Lemma remove_cuts_range_witness :
  exists q,
    packet_remove init_state (Some sample_buffer) 1 2
    = Ret (STATUS_SUCCESS, Some q)
    /\ packet_bytes q = [Byte.x01; Byte.x04].
Proof.
  destruct (remove_cuts_range init_state sample_buffer 1 2) as (_ & _ & Hcut).
  - reflexivity.
  - exact sample_buffer_inv.
  - unfold in_u32. lia.
  - unfold in_u32. lia.
  - lia.
  - destruct Hcut as (q & Hq & Hbytes & _); [lia|simpl; lia|].
    exists q. split; [exact Hq|]. rewrite Hbytes. reflexivity.
Defined.

(** X3. [packet_append_data] of the first [len] bytes of a block [s]
    that holds at least [len] bytes, [len] a 32-bit value, to a buffer that
    satisfies the invariant, on an initialized subsystem. A zero length
    succeeds and changes nothing. When [size + len] is below [2^32] and
    passes the capacity, the call is refused with
    [ERROR_PACKET_OPERATION_FAILED], the packet unchanged (the buffer is
    never grown). When [size + len] is within the capacity, the bytes are put
    after the packet, whose size grows by [len]. When [size + len] reaches
    [2^32], the 32-bit sum of the check wraps below the capacity, the copy
    leaves the block, and the behaviour is undefined. *)
Theorem append_extends_bytes st p s len :
  g_initialized st = true -> buffer_inv p ->
  0 <= len <= Z.of_nat (length s) -> len < 2 ^ 32 ->
  (len = 0 ->
     packet_append_data st (Some p) (Some s) len = Ret (STATUS_SUCCESS, Some p))
  /\ (0 < len -> size p + len < 2 ^ 32 -> capacity p < size p + len ->
        packet_append_data st (Some p) (Some s) len
        = Ret (ERROR_PACKET_OPERATION_FAILED, Some p))
  /\ (0 < len -> size p + len <= capacity p ->
        exists q,
          packet_append_data st (Some p) (Some s) len
          = Ret (STATUS_SUCCESS, Some q)
          /\ packet_bytes q = packet_bytes p ++ take (Z.to_nat len) s
          /\ size q = size p + len
          /\ capacity q = capacity p /\ metadata q = metadata p
          /\ buffer_inv q)
  /\ (2 ^ 32 <= size p + len ->
        packet_append_data st (Some p) (Some s) len = Undefined).
Proof.
  intros Hi Hp Hlen Hu. pose proof Hp as (d & Hd & Hcap & Hs & Hmax).
  unfold packet_append_data. rewrite Hi, Hd. cbn [negb].
  split_and!.
  - by intros ->.
  - intros Hpos Hsum Hbig. rewrite u32_add_small by lia.
    replace (len =? 0) with false by (symmetry; apply Z.eqb_neq; lia).
    by replace (capacity p <? size p + len) with true
      by (symmetry; apply Z.ltb_lt; lia).
  - intros Hpos Hfit. rewrite u32_add_small by lia.
    replace (len =? 0) with false by (symmetry; apply Z.eqb_neq; lia).
    replace (capacity p <? size p + len) with false
      by (symmetry; apply Z.ltb_ge; lia).
    rewrite mem_read_in_range by lia. rewrite drop_0.
    assert (length (take (Z.to_nat len) s) = Z.to_nat len) as Hl
      by (rewrite length_take; lia).
    rewrite mem_write_in_range by lia.
    eexists. split; [done|]. split_and!; try done.
    + unfold packet_bytes. cbn. rewrite Hd.
      rewrite app_assoc, take_app_length'; [done|].
      rewrite length_app, !length_take. lia.
    + eexists. cbn. split; [done|].
      rewrite !length_app, length_take, length_drop. lia.
  - intros Hwrap. rewrite add32_wraps by lia.
    replace (len =? 0) with false by (symmetry; apply Z.eqb_neq; lia).
    replace (capacity p <? size p + len - 2 ^ 32) with false
      by (symmetry; apply Z.ltb_ge; lia).
    rewrite mem_read_in_range by lia. rewrite drop_0.
    rewrite mem_write_outside; [done|]. rewrite length_take. lia.
Qed.

Lemma append_extends_bytes_witness :
  exists q,
    packet_append_data init_state (Some sample_buffer)
      (Some [Byte.x0a; Byte.x0b]) 2
    = Ret (STATUS_SUCCESS, Some q)
    /\ packet_bytes q
       = [Byte.x01; Byte.x02; Byte.x03; Byte.x04; Byte.x0a; Byte.x0b].
Proof.
  destruct (append_extends_bytes init_state sample_buffer
              [Byte.x0a; Byte.x0b] 2) as (_ & _ & Happ & _).
  - reflexivity.
  - exact sample_buffer_inv.
  - simpl. lia.
  - lia.
  - destruct Happ as (q & Hq & Hbytes & _); [lia|simpl; lia|].
    exists q. split; [exact Hq|]. rewrite Hbytes. reflexivity.
Defined.

Lemma mem_write_read (d : list byte) off s d' :
  mem_write d off s = Some d' ->
  mem_read d' off (Z.of_nat (length s)) = Some s.
Proof.
  intros (Ho & Hl & -> & _)%mem_write_Some.
  rewrite (mem_read_at (take (Z.to_nat off) d)).
  - by rewrite Nat2Z.id, take_app_length.
  - rewrite length_take. lia.
  - rewrite length_app. lia.
Qed.

Lemma overwrite_prefix (d : list byte) off s n :
  0 <= off -> off + Z.of_nat (length s) <= n -> n <= Z.of_nat (length d) ->
  take (Z.to_nat n)
    (take (Z.to_nat off) d ++ s ++ drop (Z.to_nat off + length s)%nat d)
  = overwrite off s (take (Z.to_nat n) d).
Proof.
  intros Ho Hs Hn. unfold overwrite.
  rewrite take_take, Nat.min_l by lia.
  rewrite take_app_ge by (rewrite length_take; lia). f_equal.
  rewrite length_take, Nat.min_l by lia.
  rewrite take_app_ge by lia. f_equal.
  rewrite take_drop_commute. f_equal. f_equal. lia.
Qed.

(** X4. [packet_set_header] and [packet_get_header] of [|hdr|] bytes
    (below [2^32]) at a 32-bit offset of a buffer that satisfies the
    invariant, on an initialized subsystem. Both refuse with
    [STATUS_OUT_OF_BOUNDS] exactly the ranges whose 32-bit end
    [(offset + |hdr|) mod 2^32] passes the size. A range within the packet is
    overwritten with the header, the bytes around it, the size, the capacity
    and the metadata staying, and [packet_get_header] on the same range then
    returns the header that was written. When [offset + |hdr|] reaches [2^32]
    and its 32-bit value is within the size, the check passes, the copy
    leaves the block, and the behaviour of both is undefined. *)
Theorem header_write_then_read st p off hdr :
  g_initialized st = true -> buffer_inv p -> in_u32 off ->
  Z.of_nat (length hdr) < 2 ^ 32 ->
  (size p < add32 off (Z.of_nat (length hdr)) ->
     packet_set_header st (Some p) off (Some hdr) (Z.of_nat (length hdr))
     = Ret (STATUS_OUT_OF_BOUNDS, Some p)
     /\ packet_get_header st (Some p) off true (Z.of_nat (length hdr))
        = Ret (STATUS_OUT_OF_BOUNDS, None))
  /\ (off + Z.of_nat (length hdr) <= size p ->
        exists q,
          packet_set_header st (Some p) off (Some hdr) (Z.of_nat (length hdr))
          = Ret (STATUS_SUCCESS, Some q)
          /\ packet_get_header st (Some q) off true (Z.of_nat (length hdr))
             = Ret (STATUS_SUCCESS, Some hdr)
          /\ packet_bytes q = overwrite off hdr (packet_bytes p)
          /\ size q = size p /\ capacity q = capacity p
          /\ metadata q = metadata p /\ buffer_inv q)
  /\ (2 ^ 32 <= off + Z.of_nat (length hdr) ->
      add32 off (Z.of_nat (length hdr)) <= size p ->
        packet_set_header st (Some p) off (Some hdr) (Z.of_nat (length hdr))
        = Undefined
        /\ packet_get_header st (Some p) off true (Z.of_nat (length hdr))
           = Undefined).
Proof.
  intros Hi Hp Hoff Hlen. pose proof Hp as (d & Hd & Hcap & Hs & Hmax).
  pose proof (is_valid_of_inv p Hp) as Hv. unfold in_u32 in *.
  unfold packet_set_header, packet_get_header. rewrite Hi, Hv. cbn [negb orb].
  split_and!.
  - intros Hbig.
    by replace (size p <? add32 off (Z.of_nat (length hdr))) with true
      by (symmetry; apply Z.ltb_lt; lia).
  - intros Hfit. rewrite u32_add_small by lia.
    replace (size p <? off + Z.of_nat (length hdr)) with false
      by (symmetry; apply Z.ltb_ge; lia).
    rewrite Hd, mem_read_all.
    destruct (mem_write_is_Some d off hdr) as (d' & Hw & Hl); try lia.
    rewrite Hw. eexists. split; [done|].
    assert (buffer_inv (set_data p d')) as Hq.
    { exists d'. cbn. split_and!; try done; lia. }
    rewrite (is_valid_of_inv _ Hq). cbn [negb orb set_data size data].
    replace (size p <? off + Z.of_nat (length hdr)) with false
      by (symmetry; apply Z.ltb_ge; lia).
    rewrite (mem_write_read _ _ _ _ Hw).
    split_and!; try done.
    apply mem_write_Some in Hw as (_ & _ & -> & _).
    unfold packet_bytes. cbn. rewrite Hd. apply overwrite_prefix; lia.
  - intros Hwrap Hpass.
    replace (size p <? add32 off (Z.of_nat (length hdr))) with false
      by (symmetry; apply Z.ltb_ge; lia).
    rewrite Hd, mem_read_all.
    rewrite mem_write_outside by lia. by rewrite mem_read_outside by lia.
Qed.

Lemma header_write_then_read_witness :
  (exists q,
     packet_set_header init_state (Some sample_buffer) 1
       (Some [Byte.x0a; Byte.x0b]) 2
     = Ret (STATUS_SUCCESS, Some q)
     /\ packet_get_header init_state (Some q) 1 true 2
        = Ret (STATUS_SUCCESS, Some [Byte.x0a; Byte.x0b])
     /\ packet_bytes q = [Byte.x01; Byte.x0a; Byte.x0b; Byte.x04])
  /\ packet_set_header init_state (Some sample_buffer) (2 ^ 32 - 1)
       (Some [Byte.x0a; Byte.x0b]) 2
     = Undefined
  /\ packet_get_header init_state (Some sample_buffer) (2 ^ 32 - 1) true 2
     = Undefined.
Proof.
  split.
  - destruct (header_write_then_read init_state sample_buffer 1
                [Byte.x0a; Byte.x0b]) as (_ & Hok & _).
    + reflexivity.
    + exact sample_buffer_inv.
    + unfold in_u32. lia.
    + simpl. lia.
    + destruct Hok as (q & Hset & Hget & Hbytes & _); [simpl; lia|].
      exists q. split; [exact Hset|]. split; [exact Hget|].
      rewrite Hbytes. reflexivity.
  - destruct (header_write_then_read init_state sample_buffer (2 ^ 32 - 1)
                [Byte.x0a; Byte.x0b]) as (_ & _ & Hwrap).
    + reflexivity.
    + exact sample_buffer_inv.
    + unfold in_u32. lia.
    + simpl. lia.
    + apply Hwrap; [simpl; lia|vm_compute; discriminate].
Defined.

(** X5. [packet_update_data] of [|src|] bytes (below [2^32]) at a 32-bit
    offset of a buffer that satisfies the invariant, on an initialized
    subsystem. It refuses with [ERROR_PACKET_OPERATION_FAILED], the packet
    unchanged, exactly the ranges whose 32-bit end
    [(offset + |src|) mod 2^32] passes the size. A range within the packet is
    overwritten, everything else staying, and [packet_peek_data] on the same
    range then returns the bytes that were written. When [offset + |src|]
    reaches [2^32] and its 32-bit value is within the size, the check passes,
    the copy leaves the block, and the behaviour is undefined. *)
Theorem update_then_peek st p off src :
  g_initialized st = true -> buffer_inv p -> in_u32 off ->
  Z.of_nat (length src) < 2 ^ 32 ->
  (size p < add32 off (Z.of_nat (length src)) ->
     packet_update_data st (Some p) off (Some src) (Z.of_nat (length src))
     = Ret (ERROR_PACKET_OPERATION_FAILED, Some p))
  /\ (off + Z.of_nat (length src) <= size p ->
        exists q,
          packet_update_data st (Some p) off (Some src) (Z.of_nat (length src))
          = Ret (STATUS_SUCCESS, Some q)
          /\ packet_peek_data st (Some q) off true (Z.of_nat (length src))
             = Ret (STATUS_SUCCESS, Some src)
          /\ packet_bytes q = overwrite off src (packet_bytes p)
          /\ size q = size p /\ capacity q = capacity p
          /\ metadata q = metadata p /\ buffer_inv q)
  /\ (2 ^ 32 <= off + Z.of_nat (length src) ->
      add32 off (Z.of_nat (length src)) <= size p ->
        packet_update_data st (Some p) off (Some src) (Z.of_nat (length src))
        = Undefined).
Proof.
  intros Hi Hp Hoff Hlen. pose proof Hp as (d & Hd & Hcap & Hs & Hmax).
  unfold in_u32 in *.
  unfold packet_update_data, packet_peek_data. rewrite Hi, Hd. cbn [negb].
  split_and!.
  - intros Hbig.
    by replace (size p <? add32 off (Z.of_nat (length src))) with true
      by (symmetry; apply Z.ltb_lt; lia).
  - intros Hfit. rewrite u32_add_small by lia.
    replace (size p <? off + Z.of_nat (length src)) with false
      by (symmetry; apply Z.ltb_ge; lia).
    rewrite mem_read_all.
    destruct (mem_write_is_Some d off src) as (d' & Hw & Hl); try lia.
    rewrite Hw. eexists. split; [done|].
    cbn [negb set_data size data].
    replace (size p <? off + Z.of_nat (length src)) with false
      by (symmetry; apply Z.ltb_ge; lia).
    rewrite (mem_write_read _ _ _ _ Hw).
    split_and!; try done.
    + apply mem_write_Some in Hw as (_ & _ & -> & _).
      unfold packet_bytes. cbn. rewrite Hd. apply overwrite_prefix; lia.
    + exists d'. cbn. split_and!; try done; lia.
  - intros Hwrap Hpass.
    replace (size p <? add32 off (Z.of_nat (length src))) with false
      by (symmetry; apply Z.ltb_ge; lia).
    rewrite mem_read_all. by rewrite mem_write_outside by lia.
Qed.

Lemma update_then_peek_witness :
  (exists q,
     packet_update_data init_state (Some sample_buffer) 2
       (Some [Byte.x0a; Byte.x0b]) 2
     = Ret (STATUS_SUCCESS, Some q)
     /\ packet_peek_data init_state (Some q) 2 true 2
        = Ret (STATUS_SUCCESS, Some [Byte.x0a; Byte.x0b])
     /\ packet_bytes q = [Byte.x01; Byte.x02; Byte.x0a; Byte.x0b])
  /\ packet_update_data init_state (Some sample_buffer) (2 ^ 32 - 1)
       (Some [Byte.x0a; Byte.x0b]) 2
     = Undefined.
Proof.
  split.
  - destruct (update_then_peek init_state sample_buffer 2
                [Byte.x0a; Byte.x0b]) as (_ & Hok & _).
    + reflexivity.
    + exact sample_buffer_inv.
    + unfold in_u32. lia.
    + simpl. lia.
    + destruct Hok as (q & Hset & Hget & Hbytes & _); [simpl; lia|].
      exists q. split; [exact Hset|]. split; [exact Hget|].
      rewrite Hbytes. reflexivity.
  - destruct (update_then_peek init_state sample_buffer (2 ^ 32 - 1)
                [Byte.x0a; Byte.x0b]) as (_ & _ & Hwrap).
    + reflexivity.
    + exact sample_buffer_inv.
    + unfold in_u32. lia.
    + simpl. lia.
    + apply Hwrap; [simpl; lia|vm_compute; discriminate].
Defined.

(** X6. [packet_buffer_clone] of a buffer that satisfies the invariant:
    when the allocator grants the header and [capacity] bytes, the clone has
    the bytes, the size, the capacity and the metadata of the original, no
    user data, and satisfies the invariant; when the capacity is zero or the
    allocator refuses either block, the result is null. *)
Theorem clone_copies_packet h st p :
  g_initialized st = true -> buffer_inv p ->
  (0 < capacity p -> heap_grant_header h = true ->
   heap_grant h (capacity p) = true ->
     exists q,
       packet_buffer_clone h st (Some p) = Ret (Some q)
       /\ packet_bytes q = packet_bytes p
       /\ size q = size p /\ capacity q = capacity p
       /\ metadata q = metadata p /\ user_data q = None
       /\ buffer_inv q)
  /\ (capacity p = 0 \/ heap_grant_header h = false
      \/ heap_grant h (capacity p) = false ->
        packet_buffer_clone h st (Some p) = Ret None).
Proof.
  intros Hi Hp. pose proof Hp as (d & Hd & Hcap & Hs & Hmax).
  pose proof (is_valid_of_inv p Hp) as Hv.
  split.
  - intros Hpos Hh Hg.
    assert (exists q, packet_buffer_clone h st (Some p) = Ret (Some q)) as [q Hq].
    { unfold packet_buffer_clone, packet_buffer_alloc, malloc.
      rewrite Hi, Hv, Hd, Hh, Hg. cbn [negb].
      replace (capacity p =? 0) with false by (symmetry; apply Z.eqb_neq; lia).
      cbn [data]. rewrite mem_read_in_range by lia. rewrite drop_0.
      destruct (mem_write_is_Some
                  (map (heap_junk h) (seq 0 (Z.to_nat (capacity p)))) 0
                  (take (Z.to_nat (size p)) d)) as (cd & -> & _);
        [lia|rewrite length_take, length_map, length_seq; lia|].
      by eexists. }
    exists q. split; [done|]. apply clone_inv in Hq; [|done]. tauto.
  - intros Hbad. unfold packet_buffer_clone, packet_buffer_alloc, malloc.
    rewrite Hi, Hv, Hd. cbn [negb].
    destruct Hbad as [->|[->| ->]]; [done|by destruct (capacity p =? 0)|].
    by destruct (capacity p =? 0), (heap_grant_header h).
Qed.

Lemma clone_copies_packet_witness :
  exists q,
    packet_buffer_clone heap_ok init_state (Some sample_buffer) = Ret (Some q)
    /\ packet_bytes q = [Byte.x01; Byte.x02; Byte.x03; Byte.x04]
    /\ capacity q = 8.
Proof.
  destruct (clone_copies_packet heap_ok init_state sample_buffer) as (Hok & _).
  - reflexivity.
  - exact sample_buffer_inv.
  - destruct Hok as (q & Hq & Hbytes & _ & Hcap & _);
      [simpl; lia|reflexivity|reflexivity|].
    exists q. split; [exact Hq|]. split; [rewrite Hbytes; reflexivity|].
    rewrite Hcap. reflexivity.
Defined.

Lemma resize_within_capacity h st p n :
  g_initialized st = true -> buffer_inv p -> 0 < n <= capacity p ->
  packet_buffer_resize h st (Some p) n = (STATUS_SUCCESS, Some (set_size p n)).
Proof.
  intros Hi Hp Hn. pose proof (is_valid_of_inv p Hp) as Hv.
  unfold packet_buffer_resize. rewrite Hi, Hv. cbn [negb].
  replace (n =? 0) with false by (symmetry; apply Z.eqb_neq; lia).
  by replace (n <=? capacity p) with true by (symmetry; apply Z.leb_le; lia).
Qed.

(** X7. [packet_buffer_resize] to a non-zero size on a buffer that
    satisfies the invariant: within the capacity only the size changes, so
    that resizing back to the old size restores the packet; above the
    capacity, when [realloc] grants the block, size and capacity become the
    new size and the old bytes are the first bytes of the packet; when
    [realloc] refuses, the status is [STATUS_NO_MEMORY] and the packet is
    unchanged. *)
Theorem resize_keeps_bytes h st p n :
  g_initialized st = true -> buffer_inv p -> 0 < n < 2 ^ 32 ->
  (n <= capacity p ->
     packet_buffer_resize h st (Some p) n = (STATUS_SUCCESS, Some (set_size p n))
     /\ (0 < size p ->
         packet_buffer_resize h st (Some (set_size p n)) (size p)
         = (STATUS_SUCCESS, Some p)))
  /\ (capacity p < n -> heap_grant h n = true ->
        exists q,
          packet_buffer_resize h st (Some p) n = (STATUS_SUCCESS, Some q)
          /\ size q = n /\ capacity q = n
          /\ take (Z.to_nat (size p)) (packet_bytes q) = packet_bytes p
          /\ metadata q = metadata p /\ buffer_inv q)
  /\ (capacity p < n -> heap_grant h n = false ->
        packet_buffer_resize h st (Some p) n = (STATUS_NO_MEMORY, Some p)).
Proof.
  intros Hi Hp Hn. pose proof Hp as (d & Hd & Hcap & Hs & Hmax).
  pose proof (is_valid_of_inv p Hp) as Hv.
  assert ((n =? 0) = false) as Hz by (apply Z.eqb_neq; lia).
  split_and!.
  - intros Hfit.
    assert (buffer_inv (set_size p n)) as Hp'.
    { exists d. cbn. split_and!; try done; lia. }
    split; [apply resize_within_capacity; [done|done|lia]|]. intros Hpos.
    rewrite resize_within_capacity by (done || cbn; lia).
    by destruct p.
  - intros Hbig Hg.
    unfold packet_buffer_resize, realloc. rewrite Hi, Hv, Hz, Hd, Hg. cbn [negb].
    replace (n <=? capacity p) with false by (symmetry; apply Z.leb_gt; lia).
    eexists. split; [done|]. cbn [size capacity metadata].
    split_and!; try done.
    + unfold packet_bytes. cbn [data size].
      rewrite Hd. rewrite take_take, Nat.min_l by lia.
      rewrite take_app_le by (rewrite length_take; lia).
      rewrite take_take. f_equal. lia.
    + eexists. cbn. split; [done|].
      rewrite length_app, length_take, length_map, length_seq. lia.
  - intros Hbig Hg.
    unfold packet_buffer_resize, realloc. rewrite Hi, Hv, Hz, Hd, Hg. cbn [negb].
    by replace (n <=? capacity p) with false by (symmetry; apply Z.leb_gt; lia).
Qed.

Lemma resize_keeps_bytes_witness :
  packet_buffer_resize heap_ok init_state (Some sample_buffer) 6
  = (STATUS_SUCCESS, Some (set_size sample_buffer 6))
  /\ packet_buffer_resize heap_ok init_state (Some (set_size sample_buffer 6)) 4
     = (STATUS_SUCCESS, Some sample_buffer).
Proof.
  destruct (resize_keeps_bytes heap_ok init_state sample_buffer 6)
    as (Hfit & _).
  - reflexivity.
  - exact sample_buffer_inv.
  - lia.
  - destruct Hfit as [Hshrink Hback]; [simpl; lia|].
    split; [exact Hshrink|]. apply Hback. simpl. lia.
Defined.

(** X8. The data block of a buffer that [packet_buffer_alloc] returns is
    not cleared: resizing the fresh buffer to its capacity exposes the bytes
    that the allocator found in memory. After [packet_reset] the same resize
    exposes zero bytes. *)
Theorem alloc_leaves_bytes_unset h st n p :
  in_u32 n -> packet_buffer_alloc h st n = Some p ->
  (exists q,
     packet_buffer_resize h st (Some p) n = (STATUS_SUCCESS, Some q)
     /\ packet_bytes q = map (heap_junk h) (seq 0 (Z.to_nat n)))
  /\ (exists z q,
        packet_reset st (Some p) = Ret (Some z)
        /\ packet_buffer_resize h st (Some z) n = (STATUS_SUCCESS, Some q)
        /\ packet_bytes q = replicate (Z.to_nat n) zero_byte).
Proof.
  intros Hn Ha.
  assert (g_initialized st = true /\ data p = Some (map (heap_junk h) (seq 0 (Z.to_nat n))))
    as [Hi Hd].
  { unfold packet_buffer_alloc, malloc in Ha.
    destruct (g_initialized st); [|done]. cbn [negb] in Ha.
    repeat case_match; simplify_eq. done. }
  apply alloc_inv in Ha as (Hpos & Hc & Hs & Hp); [|done].
  unfold in_u32 in Hn.
  assert (0 < n <= capacity p) as Hfit by lia.
  pose proof (resize_within_capacity h st p n Hi Hp Hfit) as Hr.
  split.
  - eexists. split; [done|]. unfold packet_bytes. cbn. rewrite Hd.
    apply take_ge. rewrite length_map, length_seq. lia.
  - unfold packet_reset. rewrite Hi, Hd. cbn [negb].
    rewrite mem_write_in_range
      by (rewrite ?length_replicate, ?length_map, ?length_seq; lia).
    set (z := {| data := _ |}).
    assert (buffer_inv z) as Hz.
    { eexists. cbn. split; [done|].
      rewrite !length_app, length_take, length_drop, length_replicate,
        length_map, length_seq. lia. }
    assert (0 < n <= capacity z) as Hfitz by (cbn; lia).
    pose proof (resize_within_capacity h st z n Hi Hz Hfitz) as Hrz.
    exists z. eexists. split; [done|]. split; [done|].
    unfold packet_bytes. cbn. rewrite Hc, length_replicate.
    rewrite take_0, app_nil_l.
    rewrite take_app_le by (rewrite length_replicate; lia).
    apply take_ge. rewrite length_replicate. lia.
Qed.

Lemma alloc_leaves_bytes_unset_witness :
  (exists q,
     packet_buffer_resize heap_ok init_state (Some fresh_buffer) 4
     = (STATUS_SUCCESS, Some q)
     /\ packet_bytes q = [Byte.xaa; Byte.xaa; Byte.xaa; Byte.xaa])
  /\ (exists z q,
        packet_reset init_state (Some fresh_buffer) = Ret (Some z)
        /\ packet_buffer_resize heap_ok init_state (Some z) 4
           = (STATUS_SUCCESS, Some q)
        /\ packet_bytes q = [Byte.x00; Byte.x00; Byte.x00; Byte.x00]).
Proof.
  apply (alloc_leaves_bytes_unset heap_ok init_state 4 fresh_buffer).
  - unfold in_u32. lia.
  - vm_compute. reflexivity.
Defined.

(** ** Insertion that has to grow the buffer *)



(** ** The registry of processors *)

Section RegistryShape.

Context `{Q : Qsort}.

Hypothesis Hq : qsort_conforms Q.

Lemma sort_processors_perm st :
  Forall prio_ok (g_processors st) ->
  g_processors (sort_processors st) ≡ₚ g_processors st.
Proof.
  intros Hp. unfold sort_processors. cbn.
  rewrite (qsort_permutation Hq); [by rewrite take_drop|].
  by apply compare_consistent, Forall_take.
Qed.

Lemma sort_processors_tail st i :
  Forall prio_ok (g_processors st) ->
  (Z.to_nat (g_processor_count st) <= i)%nat ->
  (Z.to_nat (g_processor_count st) <= length (g_processors st))%nat ->
  g_processors (sort_processors st) !! i = g_processors st !! i.
Proof.
  intros Hp Hi Hlen. unfold sort_processors. cbn.
  assert (length (qsort _ compare_processors
                    (take (Z.to_nat (g_processor_count st)) (g_processors st)))
          = Z.to_nat (g_processor_count st)) as Hl.
  { rewrite (qsort_permutation Hq) by (by apply compare_consistent, Forall_take).
    rewrite length_take. lia. }
  rewrite lookup_app_r by lia. rewrite Hl, lookup_drop. f_equal. lia.
Qed.

Lemma sort_processors_wf st :
  Forall prio_ok (g_processors st) ->
  registry_wf st -> registry_wf (sort_processors st).
Proof.
  intros Hp (Hi & Hlen & Hc & Htail & Hcb).
  split_and!.
  - done.
  - by rewrite (sort_processors_perm st Hp).
  - apply Hc.
  - apply Hc.
  - intros i pr Hl Hge. cbn in Hge.
    rewrite sort_processors_tail in Hl; [by eapply Htail|done|done|].
    unfold MAX_PACKET_PROCESSORS in *. lia.
  - by rewrite (sort_processors_perm st Hp).
Qed.

Lemma find_unused_slot_spec procs c :
  length procs = Z.to_nat MAX_PACKET_PROCESSORS ->
  0 <= c < MAX_PACKET_PROCESSORS ->
  (forall i pr, procs !! i = Some pr -> (Z.to_nat c <= i)%nat -> active pr = false) ->
  exists slot pr,
    find_unused_slot procs = Z.of_nat slot /\ (slot <= Z.to_nat c)%nat
    /\ procs !! slot = Some pr /\ active pr = false.
Proof.
  intros Hlen Hc Htail. unfold find_unused_slot.
  rewrite take_ge by lia.
  destruct (lookup_lt_is_Some_2 procs (Z.to_nat c)) as [x Hx];
    [unfold MAX_PACKET_PROCESSORS in *; lia|].
  destruct (list_find (fun p => active p = false) procs) as [[slot pr]|] eqn:Hf.
  - apply list_find_Some in Hf as (Hl & Ha & Hmin).
    exists slot, pr. split_and!; try done.
    destruct (decide (slot <= Z.to_nat c)%nat) as [|Hgt]; [done|].
    destruct (Hmin (Z.to_nat c) x Hx); [lia|]. by eapply Htail.
  - apply list_find_None in Hf. rewrite Forall_forall in Hf.
    destruct (Hf x); [by eapply list_elem_of_lookup_2|]. by eapply Htail.
Qed.

Lemma active_insert procs slot old new :
  procs !! slot = Some old -> active old = false -> active new = true ->
  filter (fun pr => active pr = true) (<[slot := new]> procs)
  ≡ₚ new :: filter (fun pr => active pr = true) procs.
Proof.
  intros Hl Ho Hn.
  rewrite <- (take_drop_middle procs slot old Hl) at 2.
  rewrite insert_take_drop by (by eapply lookup_lt_Some).
  rewrite !filter_app, !filter_cons.
  destruct (decide (active new = true)); [|done].
  destruct (decide (active old = true)); [congruence|].
  by rewrite Permutation_middle.
Qed.

Lemma active_clear procs slot old new :
  procs !! slot = Some old -> active old = true -> active new = false ->
  filter (fun pr => active pr = true) procs
  ≡ₚ old :: filter (fun pr => active pr = true) (<[slot := new]> procs).
Proof.
  intros Hl Ho Hn.
  rewrite <- (take_drop_middle procs slot old Hl) at 1.
  rewrite insert_take_drop by (by eapply lookup_lt_Some).
  rewrite !filter_app, !filter_cons.
  destruct (decide (active new = true)); [congruence|].
  destruct (decide (active old = true)); [|done].
  by rewrite Permutation_middle.
Qed.

Lemma trim_count_spec procs c :
  (trim_count procs c <= c)%nat
  /\ forall i pr, procs !! i = Some pr ->
       (trim_count procs c <= i < c)%nat -> active pr = false.
Proof.
  induction c as [|c [IH1 IH2]]; [split; [done|intros; lia]|].
  cbn [trim_count]. destruct (procs !! c) as [p|] eqn:Hc.
  - destruct (active p) eqn:Ha.
    + split; [done|intros; lia].
    + split; [lia|]. intros i pr Hi Hr.
      destruct (decide (i = c)) as [->|]; [congruence|].
      apply (IH2 i pr Hi). lia.
  - split; [lia|]. intros i pr Hi Hr.
    destruct (decide (i = c)) as [->|]; [congruence|].
    apply (IH2 i pr Hi). lia.
Qed.

Lemma register_shape st cb prio ud :
  registry_wf st -> Forall prio_ok (g_processors st) -> 0 <= prio < 2 ^ 31 ->
  g_processor_count st < MAX_PACKET_PROCESSORS ->
  exists st' slot,
    packet_register_processor st (Some cb) prio ud true
    = Ret (STATUS_SUCCESS, st', Some slot)
    /\ 0 <= slot <= g_processor_count st
    /\ registry_wf st' /\ Forall prio_ok (g_processors st')
    /\ active_processors st'
       ≡ₚ {| callback := Some cb; proc_priority := prio;
             proc_user_data := ud; active := true |}
          :: active_processors st.
Proof.
  intros (Hi & Hlen & Hc & Htail & Hcb) Hp Hprio Hroom.
  destruct (find_unused_slot_spec (g_processors st) (g_processor_count st))
    as (slot & old & Hslot & Hle & Hold & Hinactive); [done|lia|done|].
  unfold packet_register_processor. rewrite Hi, Hslot. cbn [negb].
  replace (MAX_PACKET_PROCESSORS <=? g_processor_count st) with false
    by (symmetry; apply Z.leb_gt; lia).
  replace (Z.of_nat (length (g_processors st)) <=? Z.of_nat slot) with false
    by (symmetry; apply Z.leb_gt; unfold MAX_PACKET_PROCESSORS in *; lia).
  rewrite Nat2Z.id.
  set (new := {| callback := Some cb; proc_priority := prio;
                 proc_user_data := ud; active := true |}).
  set (count := if g_processor_count st <=? Z.of_nat slot
                then Z.of_nat slot + 1 else g_processor_count st).
  set (mid := with_processors st (<[slot := new]> (g_processors st)) count).
  assert (Forall prio_ok (g_processors mid)) as Hpm.
  { cbn. apply Forall_insert; [done|]. by unfold prio_ok. }
  assert (g_processor_count st <= count <= g_processor_count st + 1
          /\ Z.of_nat slot < count) as Hcount.
  { unfold count. destruct (g_processor_count st <=? Z.of_nat slot) eqn:E;
      [apply Z.leb_le in E|apply Z.leb_gt in E]; lia. }
  assert (registry_wf mid) as Hwm.
  { split_and!; cbn.
    - done.
    - by rewrite length_insert.
    - lia.
    - unfold MAX_PACKET_PROCESSORS in *. lia.
    - intros i pr Hl Hge. rewrite list_lookup_insert_ne in Hl by lia.
      apply (Htail i pr Hl). lia.
    - apply Forall_insert; [done|]. by intros _. }
  exists (sort_processors mid), (Z.of_nat slot). split_and!; try done; try lia.
  - by apply sort_processors_wf.
  - by rewrite (sort_processors_perm mid Hpm).
  - unfold active_processors. rewrite (sort_processors_perm mid Hpm). cbn.
    by apply (active_insert _ _ old).
Qed.

Lemma unregister_shape st handle st' :
  registry_wf st -> Forall prio_ok (g_processors st) ->
  packet_unregister_processor st handle = (STATUS_SUCCESS, st') ->
  exists pr,
    g_processors st !! Z.to_nat handle = Some pr /\ active pr = true
    /\ handle < g_processor_count st
    /\ registry_wf st' /\ Forall prio_ok (g_processors st')
    /\ active_processors st ≡ₚ pr :: active_processors st'.
Proof.
  intros (Hi & Hlen & Hc & Htail & Hcb) Hp.
  unfold packet_unregister_processor. rewrite Hi. cbn [negb].
  destruct (MAX_PACKET_PROCESSORS <=? handle) eqn:Hh; [done|].
  apply Z.leb_gt in Hh.
  destruct (g_processors st !! Z.to_nat handle) as [pr|] eqn:Hl; [|done].
  destruct (active pr) eqn:Ha; [|done]. cbn [negb].
  set (new := {| callback := None; proc_priority := proc_priority pr;
                 proc_user_data := None; active := false |}).
  set (cleared := <[Z.to_nat handle := new]> (g_processors st)).
  set (count := if handle =? sub32 (g_processor_count st) 1
                then Z.of_nat (trim_count cleared (Z.to_nat (g_processor_count st)))
                else g_processor_count st).
  set (mid := with_processors st cleared count).
  intros [= <-].
  assert (Z.to_nat handle < Z.to_nat (g_processor_count st))%nat as Hlt.
  { destruct (decide (Z.to_nat handle < Z.to_nat (g_processor_count st))%nat);
      [done|]. rewrite (Htail _ _ Hl) in Ha by lia. done. }
  assert (Forall prio_ok (g_processors mid)) as Hpm.
  { cbn. apply Forall_insert; [done|].
    apply (Forall_lookup_1 _ _ _ _ Hp Hl). }
  destruct (trim_count_spec cleared (Z.to_nat (g_processor_count st)))
    as [Ht1 Ht2].
  assert (0 <= count <= g_processor_count st
          /\ forall i p, cleared !! i = Some p ->
               (Z.to_nat count <= i)%nat -> active p = false) as [Hcount Htail'].
  { unfold count. destruct (handle =? sub32 (g_processor_count st) 1).
    - split; [lia|]. intros i p Hi' Hge. rewrite Nat2Z.id in Hge.
      destruct (decide (i < Z.to_nat (g_processor_count st))%nat).
      + apply (Ht2 i p Hi'). lia.
      + unfold cleared in Hi'.
        rewrite list_lookup_insert_ne in Hi' by lia.
        apply (Htail i p Hi'). lia.
    - split; [lia|]. intros i p Hi' Hge. unfold cleared in Hi'.
      rewrite list_lookup_insert_ne in Hi' by lia.
      apply (Htail i p Hi'). lia. }
  assert (registry_wf mid) as Hwm.
  { split_and!; cbn.
    - done.
    - unfold cleared. by rewrite length_insert.
    - lia.
    - lia.
    - done.
    - apply Forall_insert; [done|]. by intros [=]. }
  exists pr. split_and!; try done.
  - destruct (decide (handle < 0)); lia.
  - by apply sort_processors_wf.
  - by rewrite (sort_processors_perm mid Hpm).
  - unfold active_processors. rewrite (sort_processors_perm mid Hpm). cbn.
    by apply (active_clear _ _ pr).
Qed.

Lemma api_reachable_wf st :
  api_reachable st -> registry_wf st /\ Forall prio_ok (g_processors st).
Proof.
  induction 1 as [|st cb prio udata st' handle _ [IHw IHp] Hprio Hreg
                  |st handle st' _ [IHw IHp] Hun].
  - split.
    + split_and!; try done.
      * intros i pr Hl _. by apply lookup_replicate in Hl as [-> _].
      * apply Forall_forall. intros x Hx.
        by apply elem_of_replicate in Hx as [-> _].
    + apply Forall_forall. intros x Hx.
      apply elem_of_replicate in Hx as [-> _]. unfold prio_ok. cbn. lia.
  - destruct cb as [cb|].
    2:{ unfold packet_register_processor in Hreg.
        destruct (g_initialized st); simplify_eq. }
    destruct (decide (g_processor_count st < MAX_PACKET_PROCESSORS)) as [Hroom|Hfull].
    + destruct (register_shape st cb prio udata IHw IHp Hprio Hroom)
        as (st2 & slot & Heq & _ & Hw & Hp & _).
      rewrite Heq in Hreg. by simplify_eq.
    + unfold packet_register_processor in Hreg.
      destruct (g_initialized st); [|simplify_eq]. cbn [negb] in Hreg.
      replace (MAX_PACKET_PROCESSORS <=? g_processor_count st) with true in Hreg
        by (symmetry; apply Z.leb_le; lia).
      simplify_eq.
  - destruct (unregister_shape st handle st' IHw IHp Hun) as (? & ? & ? & ? & ? & ? & ?).
    done.
Qed.

End RegistryShape.

Lemma filter_callable_active (l : list packet_processor_t) :
  Forall (fun pr => active pr = true -> is_Some (callback pr)) l ->
  filter callable l = filter (fun pr => active pr = true) l.
Proof.
  induction 1 as [|x l Hx _ IH]; [done|].
  rewrite !filter_cons, IH.
  destruct (decide (callable x)) as [Hc|Hc], (decide (active x = true)) as [Ha|Ha];
    try done.
  - unfold callable in Hc. by destruct (active x).
  - destruct Hc. unfold callable. rewrite Ha. cbn.
    apply bool_decide_pack. by apply Hx.
Qed.

Lemma filter_inactive (l : list packet_processor_t) :
  Forall (fun pr => active pr = false) l ->
  filter (fun pr => active pr = true) l = [].
Proof.
  induction 1 as [|x l Hx _ IH]; [done|].
  rewrite filter_cons, IH. destruct (decide (active x = true)); [congruence|done].
Qed.

(** X9. In every state that the registration interface reaches, the array
    has its 64 slots, the count stays within them, every slot at or above the
    count is inactive, every active slot has a callback, and the processors
    that [packet_process] finds callable in its snapshot are the active
    processors of the array, in the order of the array. *)
Theorem registry_shape `{Q : Qsort} st :
  qsort_conforms Q -> api_reachable st ->
  registry_wf st
  /\ filter callable (snapshot st) = active_processors st.
Proof.
  intros Hq Hr. destruct (api_reachable_wf Hq st Hr) as [Hw _].
  split; [done|]. destruct Hw as (Hi & Hlen & Hc & Htail & Hcb).
  rewrite filter_callable_active by (by apply Forall_take).
  unfold active_processors, snapshot.
  trans (filter (fun pr => active pr = true)
           (take (Z.to_nat (g_processor_count st)) (g_processors st)
            ++ drop (Z.to_nat (g_processor_count st)) (g_processors st)));
    [|by rewrite take_drop].
  rewrite filter_app, (filter_inactive (drop _ _)); [by rewrite app_nil_r|].
  apply Forall_lookup. intros i pr Hl. rewrite lookup_drop in Hl.
  apply (Htail _ _ Hl). lia.
Qed.

Lemma registry_shape_witness :
  registry_wf two_processors
  /\ filter callable (snapshot two_processors)
     = active_processors two_processors.
Proof.
  apply registry_shape.
  - exact reference_qsort_conforms.
  - exact two_processors_reachable.
Defined.

(** X10. [packet_register_processor] in a reachable state, with a priority
    below [2^31]: while the count is below 64 the call succeeds, returns a
    slot not above the old count, and the active processors afterwards are
    the new processor and those that were active, in some order; when the
    count has reached 64 it answers [STATUS_RESOURCE_EXHAUSTED] and changes
    nothing. *)
Theorem register_adds_one `{Q : Qsort} st cb prio ud :
  qsort_conforms Q -> api_reachable st -> 0 <= prio < 2 ^ 31 ->
  (g_processor_count st < MAX_PACKET_PROCESSORS ->
     exists st' slot,
       packet_register_processor st (Some cb) prio ud true
       = Ret (STATUS_SUCCESS, st', Some slot)
       /\ 0 <= slot <= g_processor_count st
       /\ active_processors st'
          ≡ₚ {| callback := Some cb; proc_priority := prio;
                proc_user_data := ud; active := true |}
             :: active_processors st)
  /\ (MAX_PACKET_PROCESSORS <= g_processor_count st ->
        packet_register_processor st (Some cb) prio ud true
        = Ret (STATUS_RESOURCE_EXHAUSTED, st, None)).
Proof.
  intros Hq Hr Hprio. destruct (api_reachable_wf Hq st Hr) as [Hw Hp].
  split.
  - intros Hroom.
    destruct (register_shape Hq st cb prio ud Hw Hp Hprio Hroom)
      as (st' & slot & Heq & Hs & _ & _ & Hact).
    by exists st', slot.
  - intros Hfull. destruct Hw as (Hi & _).
    unfold packet_register_processor. rewrite Hi. cbn [negb].
    by replace (MAX_PACKET_PROCESSORS <=? g_processor_count st) with true
      by (symmetry; apply Z.leb_le; lia).
Qed.

Lemma register_adds_one_witness :
  exists st' slot,
    packet_register_processor two_processors (Some cb_recirculate) 5 None true
    = Ret (STATUS_SUCCESS, st', Some slot)
    /\ 0 <= slot <= g_processor_count two_processors
    /\ active_processors st'
       ≡ₚ {| callback := Some cb_recirculate; proc_priority := 5;
             proc_user_data := None; active := true |}
          :: active_processors two_processors.
Proof.
  destruct (register_adds_one two_processors cb_recirculate 5 None)
    as (Hroom & _).
  - exact reference_qsort_conforms.
  - exact two_processors_reachable.
  - lia.
  - apply Hroom. vm_compute. reflexivity.
Defined.

(** X11. [packet_unregister_processor] in a reachable state: when the slot
    of the handle is active the call succeeds and the active processors
    afterwards are those that were active without the processor of that
    slot; when the slot is inactive the call answers
    [STATUS_INVALID_PARAMETER] and changes nothing. *)
Theorem unregister_removes_one `{Q : Qsort} st handle :
  qsort_conforms Q -> api_reachable st -> 0 <= handle ->
  (forall pr, g_processors st !! Z.to_nat handle = Some pr ->
     active pr = true ->
     exists st',
       packet_unregister_processor st handle = (STATUS_SUCCESS, st')
       /\ active_processors st ≡ₚ pr :: active_processors st')
  /\ ((forall pr, g_processors st !! Z.to_nat handle = Some pr ->
         active pr = false) ->
      packet_unregister_processor st handle = (STATUS_INVALID_PARAMETER, st)).
Proof.
  intros Hq Hr Hh. destruct (api_reachable_wf Hq st Hr) as [Hw Hp].
  pose proof Hw as (Hi & Hlen & Hc & Htail & Hcb).
  split.
  - intros pr Hl Ha.
    assert (handle < MAX_PACKET_PROCESSORS) as Hlt.
    { apply lookup_lt_Some in Hl. unfold MAX_PACKET_PROCESSORS in *. lia. }
    destruct (packet_unregister_processor st handle) as [status st'] eqn:Hun.
    assert (status = STATUS_SUCCESS) as ->.
    { unfold packet_unregister_processor in Hun. rewrite Hi, Hl, Ha in Hun.
      cbn [negb] in Hun.
      replace (MAX_PACKET_PROCESSORS <=? handle) with false in Hun
        by (symmetry; apply Z.leb_gt; lia).
      by simplify_eq. }
    destruct (unregister_shape Hq st handle st' Hw Hp Hun)
      as (pr' & Hl' & _ & _ & _ & _ & Hact).
    exists st'. split; [done|]. by simplify_eq.
  - intros Hin. unfold packet_unregister_processor. rewrite Hi. cbn [negb].
    destruct (MAX_PACKET_PROCESSORS <=? handle); [done|].
    destruct (g_processors st !! Z.to_nat handle) as [pr|]; [|done].
    by rewrite (Hin pr).
Qed.

Lemma unregister_removes_one_witness :
  exists st',
    packet_unregister_processor two_processors 0 = (STATUS_SUCCESS, st')
    /\ active_processors two_processors
       ≡ₚ {| callback := Some cb_forward; proc_priority := 10;
             proc_user_data := Some 2; active := true |}
          :: active_processors st'.
Proof.
  destruct (unregister_removes_one two_processors 0) as (Hactive & _).
  - exact reference_qsort_conforms.
  - exact two_processors_reachable.
  - lia.
  - apply Hactive; vm_compute; reflexivity.
Defined.

(** X12. When the count is 64, a successful unregistration of a handle
    other than 63 leaves the count at 64, and every registration that follows
    is refused with [STATUS_RESOURCE_EXHAUSTED] although a slot is free. *)
Theorem full_registry_stays_full `{Q : Qsort} st handle st' cb prio ud :
  g_processor_count st = MAX_PACKET_PROCESSORS ->
  handle <> MAX_PACKET_PROCESSORS - 1 ->
  packet_unregister_processor st handle = (STATUS_SUCCESS, st') ->
  g_processor_count st' = MAX_PACKET_PROCESSORS
  /\ packet_register_processor st' (Some cb) prio ud true
     = Ret (STATUS_RESOURCE_EXHAUSTED, st', None).
Proof.
  intros Hfull Hh. unfold packet_unregister_processor.
  destruct (g_initialized st) eqn:Hi; [|done]. cbn [negb].
  destruct (MAX_PACKET_PROCESSORS <=? handle) eqn:Hlt; [done|].
  destruct (g_processors st !! Z.to_nat handle) as [pr|]; [|done].
  destruct (active pr); [|done]. cbn [negb].
  rewrite Hfull.
  replace (handle =? sub32 MAX_PACKET_PROCESSORS 1) with false
    by (symmetry; apply Z.eqb_neq; vm_compute (sub32 _ _);
        unfold MAX_PACKET_PROCESSORS in Hh; lia).
  intros [= <-]. split; [done|].
  unfold packet_register_processor. cbn. by rewrite Hi.
Qed.

Lemma full_registry_stays_full_witness :
  g_processor_count (snd (packet_unregister_processor full_registry 0))
  = MAX_PACKET_PROCESSORS
  /\ packet_register_processor
       (snd (packet_unregister_processor full_registry 0))
       (Some cb_forward) 0 None true
     = Ret (STATUS_RESOURCE_EXHAUSTED,
            snd (packet_unregister_processor full_registry 0), None).
Proof.
  apply (full_registry_stays_full full_registry 0).
  - vm_compute. reflexivity.
  - unfold MAX_PACKET_PROCESSORS. lia.
  - vm_compute. reflexivity.
Defined.

(** ** The traversal of the pipeline *)

(** *** Callbacks that use the registration interface *)

Lemma after_callback_depth fx pr p st :
  recursion_depth (after_callback fx pr p st) = recursion_depth st.
Proof. done. Qed.

Lemma after_no_effect pr p st : after_callback no_effect pr p st = st.
Proof. by destruct st. Qed.

(** Callbacks without effect on the registry give the pipeline of the
    first model. *)
Lemma process_loop_no_effect recur recur' processors st p result :
  (forall s q, recur s q = recur' s q) ->
  process_loop_reentrant no_effect recur processors st p result
  = process_loop recur' processors st p result.
Proof.
  intros Hrec. revert p result.
  induction processors as [|pr rest IH]; intros p result; [done|].
  cbn [process_loop_reentrant process_loop].
  destruct (if active pr then callback pr else None) as [cb|]; [|done].
  destruct (cb p (proc_user_data pr)) as [r p'].
  rewrite after_no_effect. by destruct r; rewrite ?IH, ?Hrec.
Qed.

Lemma packet_process_no_effect fuel st packet :
  packet_process_reentrant no_effect fuel st packet
  = packet_process fuel st packet.
Proof.
  revert st packet. induction fuel as [|fuel IH]; intros st packet; [done|].
  cbn [packet_process_reentrant packet_process].
  destruct (negb (g_initialized st)); [done|].
  destruct (negb (packet_buffer_is_valid packet)); [done|].
  destruct packet as [p|]; [|done].
  destruct (16 <? recursion_depth (enter st)); [done|].
  apply process_loop_no_effect. intros s q. apply IH.
Qed.

Lemma spec_invocations_skip k pr rest p :
  callable pr = false ->
  spec_invocations k (filter callable (pr :: rest)) p
  = spec_invocations k (filter callable rest) p.
Proof.
  intros Hc. rewrite filter_cons_False; [done|].
  intros H%Is_true_true. congruence.
Qed.

Lemma spec_invocations_call k pr rest p cb :
  (if active pr then callback pr else None) = Some cb ->
  spec_invocations k (filter callable (pr :: rest)) p
  = {| inv_depth := k; inv_proc := pr;
       inv_result := fst (cb p (proc_user_data pr)) |}
    :: match fst (cb p (proc_user_data pr)) with
       | PACKET_RESULT_FORWARD | PACKET_RESULT_OTHER =>
           spec_invocations k (filter callable rest)
             (snd (cb p (proc_user_data pr)))
       | _ => []
       end.
Proof.
  intros Hcb.
  assert (callable pr = true) as Hc by (apply callable_spec; eauto).
  rewrite filter_cons_True by (by apply Is_true_true).
  cbn [spec_invocations].
  destruct (active pr); [|done]. rewrite Hcb.
  by destruct (cb p (proc_user_data pr)) as [r p'].
Qed.

(** Invocations of the traversal are at its depth. *)
Lemma spec_invocations_depth k procs p :
  Forall (fun e => inv_depth e = k) (spec_invocations k procs p).
Proof.
  revert p. induction procs as [|pr rest IH]; intros p; [constructor|].
  cbn [spec_invocations]. destruct (callback pr) as [cb|]; [|done].
  destruct (cb p (proc_user_data pr)) as [r p'].
  constructor; [done|]. destruct r; done || constructor.
Qed.

(** The processors invoked are the first ones of the list. *)
Lemma spec_invocations_prefix k procs p :
  Forall (fun pr => is_Some (callback pr)) procs ->
  inv_proc <$> spec_invocations k procs p `prefix_of` procs.
Proof.
  intros Hall. revert p.
  induction Hall as [|pr rest [cb Hcb] _ IH]; intros p; [done|].
  cbn [spec_invocations]. rewrite Hcb.
  destruct (cb p (proc_user_data pr)) as [r p']. cbn [fmap list_fmap].
  apply prefix_cons. destruct r; first [apply IH | apply prefix_nil].
Qed.

(** Every processor of the list is invoked when every result lets the loop
    go on. *)
Lemma spec_invocations_all k procs p :
  Forall (fun pr => is_Some (callback pr)) procs ->
  Forall goes_on (spec_invocations k procs p) ->
  inv_proc <$> spec_invocations k procs p = procs.
Proof.
  intros Hall. revert p.
  induction Hall as [|pr rest [cb Hcb] _ IH]; intros p; [done|].
  cbn [spec_invocations]. rewrite Hcb.
  destruct (cb p (proc_user_data pr)) as [r p'].
  intros Hgo. apply Forall_cons in Hgo as [[Hr|Hr] Hgo]; cbn in Hr; subst r.
  all: cbn [fmap list_fmap]; f_equal; by apply IH.
Qed.

(** A result that ends the traversal is the last one. *)
Lemma spec_invocations_ends k procs p l1 e l2 :
  spec_invocations k procs p = l1 ++ e :: l2 -> ~ goes_on e -> l2 = [].
Proof.
  revert p l1. induction procs as [|pr rest IH]; intros p l1 Heq Hstop.
  { by destruct l1. }
  cbn [spec_invocations] in Heq. destruct (callback pr) as [cb|]; [|by eauto].
  destruct (cb p (proc_user_data pr)) as [r p'].
  destruct l1 as [|x l1]; cbn in Heq.
  - injection Heq as <- Hl2. unfold goes_on in Hstop. cbn in Hstop.
    destruct r; first [done | by exfalso; apply Hstop; eauto].
  - injection Heq as <- Hl2.
    destruct r; first [by eapply IH | by destruct l1].
Qed.

Lemma stops_at_verdict_cons e r tr :
  goes_on e \/ inv_result e = PACKET_RESULT_RECIRCULATE ->
  stops_at_verdict r tr -> stops_at_verdict r (e :: tr).
Proof.
  intros He. apply stops_cons.
  all: destruct He as [[He|He]|He]; rewrite He; done.
Qed.

(** The loop at depth [d], when the nested call returns. *)
Lemma process_loop_reentrant_spec fx recur d processors :
  (forall s p', recursion_depth s = d ->
     exists out, recur s p' = Some out /\ nested_ok d out) ->
  forall st p result, recursion_depth st = d ->
  exists r q st' nested,
    process_loop_reentrant fx recur processors st p result
    = Some (r, q, st',
            spec_invocations d (filter callable processors) p ++ nested)
    /\ recursion_depth st' = d - 1
    /\ Forall (fun e => d < inv_depth e) nested
    /\ (nested <> [] ->
        exists e, last (spec_invocations d (filter callable processors) p)
                  = Some e
                  /\ inv_result e = PACKET_RESULT_RECIRCULATE)
    /\ stops_at_verdict r
         (spec_invocations d (filter callable processors) p ++ nested)
    /\ match last (spec_invocations d (filter callable processors) p) with
       | None => r = result
       | Some e =>
           inv_result e <> PACKET_RESULT_RECIRCULATE -> r = inv_result e
       end.
Proof.
  intros Hrec. induction processors as [|pr rest IH]; intros st p result Hd.
  { exists result, (Some p), (leave st), []. cbn.
    split_and!; try done; [lia|apply stops_nil]. }
  cbn [process_loop_reentrant].
  destruct (if active pr then callback pr else None) as [cb|] eqn:Hcb.
  2:{ rewrite spec_invocations_skip; [by apply IH|].
      destruct (callable pr) eqn:Hc; [|done].
      apply callable_spec in Hc as [? Hc]. congruence. }
  rewrite (spec_invocations_call d pr rest p cb Hcb).
  destruct (cb p (proc_user_data pr)) as [r0 p'] eqn:Hr0. cbn [fst snd].
  set (here := {| inv_depth := d; inv_proc := pr; inv_result := r0 |}).
  rewrite Hd. fold here.
  assert (recursion_depth (after_callback fx pr p st) = d) as Hd1 by done.
  assert (forall (tl : list invocation) r,
            match last tl with
            | None => r = r0
            | Some e => inv_result e <> PACKET_RESULT_RECIRCULATE ->
                        r = inv_result e
            end ->
            match last (here :: tl) with
            | None => r = result
            | Some e => inv_result e <> PACKET_RESULT_RECIRCULATE ->
                        r = inv_result e
            end) as Hlast.
  { intros tl r Hr. destruct tl as [|x tl]; [by intros _|].
    rewrite last_cons_cons.
    destruct (last (x :: tl)) eqn:Hl; [exact Hr|]. by apply last_None in Hl. }
  destruct r0.
  - destruct (IH (after_callback fx pr p st) p' PACKET_RESULT_FORWARD Hd1)
      as (r & q & st' & nested & -> & ? & ? & Hnest & Hstop & Hres).
    exists r, q, st', nested. split_and!; try done.
    + intros Hne. destruct (Hnest Hne) as (e & He & Hre). exists e.
      split; [|done].
      destruct (spec_invocations d (filter callable rest) p'); [done|].
      by rewrite last_cons_cons.
    + apply stops_at_verdict_cons; [left; by left|done].
    + by apply Hlast.
  - exists PACKET_RESULT_DROP, (Some p'),
      (leave (after_callback fx pr p st)), [].
    cbn. split_and!; try done; [lia|apply (stops_single here)].
  - exists PACKET_RESULT_CONSUME, (Some p'),
      (leave (after_callback fx pr p st)), [].
    cbn. split_and!; try done; [lia|apply (stops_single here)].
  - destruct (Hrec (after_callback fx pr p st) p' Hd1)
      as ([[[r q] st'] tr] & -> & Hd' & Hdeep & Hstop).
    exists r, q, (leave st'), tr. cbn. split_and!; try done.
    + lia.
    + intros _. by exists here.
    + apply stops_at_verdict_cons; [by right|done].
  - destruct (IH (after_callback fx pr p st) p' PACKET_RESULT_OTHER Hd1)
      as (r & q & st' & nested & -> & ? & ? & Hnest & Hstop & Hres).
    exists r, q, st', nested. split_and!; try done.
    + intros Hne. destruct (Hnest Hne) as (e & He & Hre). exists e.
      split; [|done].
      destruct (spec_invocations d (filter callable rest) p'); [done|].
      by rewrite last_cons_cons.
    + apply stops_at_verdict_cons; [left; by right|done].
    + by apply Hlast.
Qed.

(** Every call returns when the fuel covers the depths that are left. *)
Lemma packet_process_reentrant_returns fx fuel st packet :
  Z.max 1 (17 - recursion_depth st) <= Z.of_nat fuel ->
  exists out,
    packet_process_reentrant fx fuel st packet = Some out
    /\ nested_ok (recursion_depth st) out.
Proof.
  revert st packet. induction fuel as [|fuel IH]; intros st packet Hf; [lia|].
  cbn [packet_process_reentrant].
  assert (nested_ok (recursion_depth st) (PACKET_RESULT_DROP, packet, st, []))
    as Hrefused by (split_and!; [done|constructor|apply stops_nil]).
  destruct (negb (g_initialized st)); [by eexists|].
  destruct (negb (packet_buffer_is_valid packet)); [by eexists|].
  destruct packet as [p|]; [|by eexists].
  destruct (16 <? recursion_depth (enter st)) eqn:Hdeep.
  { eexists. split; [done|]. by rewrite leave_enter. }
  apply Z.ltb_ge in Hdeep. cbn in Hdeep.
  destruct (process_loop_reentrant_spec fx
              (fun s q => packet_process_reentrant fx fuel s (Some q))
              (recursion_depth st + 1) (snapshot (enter st)))
    with (st := enter st) (p := p) (result := PACKET_RESULT_FORWARD)
    as (r & q & st' & nested & -> & Hd' & Hdeeper & _ & Hstop & _).
  - intros s p' Hs. rewrite <- Hs. apply IH. lia.
  - done.
  - eexists. split; [done|]. split_and!; [lia| |done].
    apply Forall_app. split.
    + eapply Forall_impl; [apply spec_invocations_depth|]. cbn. intros; lia.
    + eapply Forall_impl; [exact Hdeeper|]. cbn. intros; lia.
Qed.

(** C6. One call of [packet_process] on a valid packet, at a depth below
    16, in a registry that the registration interface has built with
    priorities below [2^31] and a [qsort] that keeps its contract, whatever
    the callbacks do to the registry while they run ([fx]). The call returns.
    Its invocations are, first, those of its own traversal, which are exactly
    [spec_invocations] of the callable processors of the array as it was on
    entry: each of them in the order of the array, on the packet as the one
    before left it, up to and including the first whose result is Drop,
    Consume or Recirculate; all of them when every result lets the loop go
    on. Then come the invocations of the nested call, deeper, and only after
    a Recirculate. The snapshot is in ascending order of priority: of two
    callable processors the one of lower priority has the lower index, and
    it has been invoked before whenever the other one is invoked. An
    invocation that returns Drop or Consume is the last of the call and
    gives its result; a traversal that does not recirculate returns the
    result of its last invocation, Forward when there is none; the depth
    counter is back at its value on entry. *)
Theorem priority_order `{Q : Qsort} (fx : callback_effect) st p :
  qsort_conforms Q ->
  api_reachable (at_rest st) ->
  recursion_depth st < 16 ->
  packet_buffer_is_valid (Some p) = true ->
  let snap := filter callable (snapshot st) in
  let own := spec_invocations (recursion_depth st + 1) snap p in
  exists r q st' nested,
    packet_process_reentrant fx (enough_fuel st) st (Some p)
    = Some (r, q, st', own ++ nested)
    /\ recursion_depth st' = recursion_depth st
    /\ Forall (fun e => recursion_depth st + 1 < inv_depth e) nested
    /\ (nested <> [] ->
        exists e, last own = Some e
                  /\ inv_result e = PACKET_RESULT_RECIRCULATE)
    /\ inv_proc <$> own `prefix_of` snap
    /\ (Forall goes_on own -> inv_proc <$> own = snap)
    /\ (forall i j a b, snap !! i = Some a -> snap !! j = Some b ->
          proc_priority a < proc_priority b -> (i < j)%nat)
    /\ (forall a b before after, a ∈ snap ->
          proc_priority a < proc_priority b ->
          inv_proc <$> own = before ++ b :: after -> a ∈ before)
    /\ (forall before e after, own ++ nested = before ++ e :: after ->
          inv_result e = PACKET_RESULT_DROP
          \/ inv_result e = PACKET_RESULT_CONSUME ->
          after = [] /\ r = inv_result e)
    /\ match last own with
       | None => r = PACKET_RESULT_FORWARD
       | Some e =>
           inv_result e <> PACKET_RESULT_RECIRCULATE -> r = inv_result e
       end.
Proof.
  intros Hq Hreach Hdepth Hvalid. cbv zeta.
  destruct (api_reachable_wf Hq _ Hreach) as [(Hi & _ & _ & _ & Hcb) _].
  apply (api_reachable_inv Hq) in Hreach as [_ Hsorted].
  change (snapshot (at_rest st)) with (snapshot st) in Hsorted.
  cbn [at_rest g_initialized g_processors] in Hi, Hcb.
  assert (StronglySorted by_priority (filter callable (snapshot st)))
    as Hsnap by (by apply StronglySorted_filter).
  assert (Forall (fun pr => is_Some (callback pr))
            (filter callable (snapshot st))) as Hsome.
  { apply Forall_forall. intros pr [Hc _]%list_elem_of_filter.
    unfold callable in Hc. destruct (active pr); [|done].
    by apply bool_decide_unpack in Hc. }
  set (snap := filter callable (snapshot st)) in *.
  set (d := recursion_depth st) in *.
  assert (exists n, enough_fuel st = S n
                    /\ Z.max 1 (17 - (d + 1)) <= Z.of_nat n) as (n & -> & Hn).
  { exists (Z.to_nat (16 - d)). unfold enough_fuel. fold d. split; lia. }
  cbn [packet_process_reentrant]. rewrite Hi, Hvalid. cbn [negb].
  replace (16 <? recursion_depth (enter st)) with false
    by (symmetry; apply Z.ltb_ge; cbn; lia).
  destruct (process_loop_reentrant_spec fx
              (fun s q => packet_process_reentrant fx n s (Some q))
              (d + 1) (snapshot (enter st)))
    with (st := enter st) (p := p) (result := PACKET_RESULT_FORWARD)
    as (r & q & st' & nested & -> & Hd' & Hdeeper & Hnest & Hstop & Hres).
  { intros s p' Hs. rewrite <- Hs.
    apply packet_process_reentrant_returns. lia. }
  { done. }
  rewrite snapshot_enter in *. fold snap in Hnest, Hstop, Hres |- *.
  exists r, q, st', nested. split_and!; try done.
  - lia.
  - by apply spec_invocations_prefix.
  - by apply spec_invocations_all.
  - intros i j a b Ha Hb Hlt.
    destruct (decide (i < j)%nat) as [|Hge]; [done|]. exfalso.
    destruct (decide (i = j)) as [->|Hne].
    + rewrite Ha in Hb. simplify_eq. lia.
    + assert (by_priority b a) as Hba
        by (apply (StronglySorted_lookup _ _ j i _ _ Hsnap); [lia|done..]).
      unfold by_priority in Hba. lia.
  - intros a b before after Ha Hlt Hcalled.
    destruct (spec_invocations_prefix (d + 1) snap p Hsome) as [rest Hrest].
    rewrite Hcalled in Hrest. rewrite Hrest in Ha, Hsnap.
    rewrite <- app_assoc in Ha, Hsnap. cbn [app] in Ha, Hsnap.
    apply elem_of_app in Ha as [Ha|Ha]; [done|]. exfalso.
    apply StronglySorted_app_1_r, StronglySorted_inv in Hsnap as [_ Hall].
    apply elem_of_cons in Ha as [->|Ha]; [lia|].
    rewrite Forall_forall in Hall. specialize (Hall a Ha).
    unfold by_priority in Hall. lia.
Qed.

Lemma priority_order_witness :
  (exists r q st' nested,
     packet_process_reentrant unregisters_next (enough_fuel two_processors)
       two_processors (Some sample_buffer)
     = Some (r, q, st',
             spec_invocations (recursion_depth two_processors + 1)
               (filter callable (snapshot two_processors)) sample_buffer
             ++ nested)
     /\ recursion_depth st' = recursion_depth two_processors
     /\ inv_proc
        <$> spec_invocations (recursion_depth two_processors + 1)
              (filter callable (snapshot two_processors)) sample_buffer
        `prefix_of` filter callable (snapshot two_processors))
  /\ (exists r q st' nested,
        packet_process (enough_fuel two_processors) two_processors
          (Some sample_buffer)
        = Some (r, q, st',
                spec_invocations (recursion_depth two_processors + 1)
                  (filter callable (snapshot two_processors)) sample_buffer
                ++ nested)
        /\ Forall (fun e => recursion_depth two_processors + 1 < inv_depth e)
             nested).
Proof.
  split.
  - destruct (priority_order (Q := reference_qsort) unregisters_next
                two_processors sample_buffer)
      as (r & q & st' & nested & Hrun & Hd & _ & _ & Hpre & _).
    + exact reference_qsort_conforms.
    + exact two_processors_reachable.
    + vm_compute. reflexivity.
    + reflexivity.
    + exists r, q, st', nested.
      split; [exact Hrun|]. split; [exact Hd|exact Hpre].
  - destruct (priority_order (Q := reference_qsort) no_effect
                two_processors sample_buffer)
      as (r & q & st' & nested & Hrun & _ & Hdeep & _).
    + exact reference_qsort_conforms.
    + exact two_processors_reachable.
    + vm_compute. reflexivity.
    + reflexivity.
    + rewrite packet_process_no_effect in Hrun.
      exists r, q, st', nested. split; [exact Hrun|exact Hdeep].
Defined.

(** The processor of priority 10 unregisters the one of priority 20 while it
    runs: the traversal still calls both, from its copy of the array, and the
    call that follows finds one processor. *)
Example unregistered_processor_still_runs :
  exists r q st' tr,
    packet_process_reentrant unregisters_next (enough_fuel two_processors)
      two_processors (Some sample_buffer) = Some (r, q, st', tr)
    /\ (fun e => (inv_depth e, proc_priority (inv_proc e))) <$> tr
       = [(1, 10); (1, 20)]
    /\ proc_priority <$> filter callable (snapshot two_processors) = [10; 20]
    /\ proc_priority <$> filter callable (snapshot st') = [10].
Proof. do 4 eexists. split; [vm_compute; reflexivity|]. vm_compute. done. Qed.

(** The recirculating processor of priority 10 unregisters itself while it
    runs: the nested call copies the array as it is by then, and calls the
    processor of priority 20 only. *)
Example nested_call_copies_anew :
  exists q st' tr,
    packet_process_reentrant unregisters_first (enough_fuel recirculating_pair)
      recirculating_pair (Some sample_buffer)
    = Some (PACKET_RESULT_FORWARD, q, st', tr)
    /\ (fun e => (inv_depth e, proc_priority (inv_proc e), inv_result e)) <$> tr
       = [(1, 10, PACKET_RESULT_RECIRCULATE); (2, 20, PACKET_RESULT_FORWARD)].
Proof. do 3 eexists. split; [vm_compute; reflexivity|]. vm_compute. done. Qed.

(** ** Entry points of the pipeline *)

Lemma process_loop_forward recur processors st p result :
  Forall always_forwards (filter callable processors) ->
  process_loop recur processors st p result
  = Some (match filter callable processors with
          | [] => result
          | _ => PACKET_RESULT_FORWARD
          end,
          Some (run_callbacks (filter callable processors) p), leave st,
          forwarded_at (recursion_depth st) <$> filter callable processors).
Proof.
  revert p result. induction processors as [|pr rest IH]; intros p result Hall.
  { done. }
  cbn [process_loop]. rewrite filter_cons in Hall |- *.
  destruct (decide (callable pr)) as [Hc|Hc].
  - apply Forall_cons in Hall as [Hpr Hrest].
    apply Is_true_true, callable_spec in Hc as [cb Hcb]. rewrite Hcb.
    assert (callback pr = Some cb) as Hcb' by (by destruct (active pr)).
    specialize (Hpr cb Hcb' p (proc_user_data pr)).
    destruct (cb p (proc_user_data pr)) as [r p'] eqn:Hrun. cbn in Hpr. subst r.
    rewrite IH by done. cbn [run_callbacks foldl fmap list_fmap]. rewrite Hcb', Hrun.
    by destruct (filter callable rest).
  - assert ((if active pr then callback pr else None) = None) as ->.
    { destruct (if active pr then callback pr else None) eqn:E; [|done].
      destruct Hc. apply Is_true_true, callable_spec. eauto. }
    by apply IH.
Qed.

(** X13. When every callable processor of the snapshot forwards whatever
    it is given, [packet_process] of a valid packet below the recursion limit
    calls each of them once, in the order of the snapshot, each on the packet
    that the one before left, returns [PACKET_RESULT_FORWARD] with the packet
    that the last one left, and restores the recursion depth. *)
Theorem forwarding_pipeline_calls_everyone st p fuel :
  g_initialized st = true -> packet_buffer_is_valid (Some p) = true ->
  recursion_depth st < 16 ->
  Forall always_forwards (filter callable (snapshot st)) ->
  packet_process (S fuel) st (Some p)
  = Some (PACKET_RESULT_FORWARD,
          Some (run_callbacks (filter callable (snapshot st)) p), st,
          forwarded_at (recursion_depth st + 1)
            <$> filter callable (snapshot st)).
Proof.
  intros Hi Hv Hd Hall. rewrite packet_process_S, Hi, Hv. cbn [negb].
  replace (16 <? recursion_depth (enter st)) with false
    by (symmetry; apply Z.ltb_ge; cbn; lia).
  rewrite process_loop_forward by done.
  rewrite leave_enter, snapshot_enter. cbn [recursion_depth enter].
  by destruct (filter callable (snapshot st)).
Qed.

Lemma forwarding_pipeline_calls_everyone_witness :
  packet_process 1 two_processors (Some sample_buffer)
  = Some (PACKET_RESULT_FORWARD,
          Some (run_callbacks (filter callable (snapshot two_processors))
                  sample_buffer),
          two_processors,
          forwarded_at (recursion_depth two_processors + 1)
            <$> filter callable (snapshot two_processors)).
Proof.
  apply forwarding_pipeline_calls_everyone.
  - reflexivity.
  - reflexivity.
  - vm_compute. reflexivity.
  - vm_compute. repeat constructor; intros cb [= <-] q u; reflexivity.
Defined.

(** X14. [packet_receive] returns, for every state, packet and port.
    When the subsystem is initialized, the packet is valid, the port is
    valid and its state is read as up, the pipeline has run once, on the
    packet with its port set to the receiving port, its direction to RX and
    its timestamp to zero; the status is [STATUS_SUCCESS] when the pipeline
    returned one of the four enumerators (a drop included) and
    [STATUS_UNKNOWN_ERROR] when it returned any other value. In every other
    case the status is not [STATUS_SUCCESS], no processor has run and the
    packet is as it was. *)
Theorem receive_status_follows_port_and_result env st packet port_id :
  exists status q tr,
    packet_receive (enough_fuel st) env st packet port_id
    = Some (status, q, st, tr)
    /\ (g_initialized st = true /\ packet_buffer_is_valid packet = true
        /\ port_is_valid env port_id = true
        /\ port_get_state env port_id = (STATUS_SUCCESS, PORT_STATE_UP) ->
        exists p r,
          packet = Some p
          /\ packet_process (enough_fuel st) st
               (Some (set_rx_metadata p port_id))
             = Some (r, q, st, tr)
          /\ status = match r with
                      | PACKET_RESULT_OTHER => STATUS_UNKNOWN_ERROR
                      | _ => STATUS_SUCCESS
                      end)
    /\ (~ (g_initialized st = true /\ packet_buffer_is_valid packet = true
           /\ port_is_valid env port_id = true
           /\ port_get_state env port_id = (STATUS_SUCCESS, PORT_STATE_UP)) ->
        status <> STATUS_SUCCESS /\ q = packet /\ tr = []).
Proof.
  unfold packet_receive.
  destruct (g_initialized st) eqn:Hi; cbn [negb].
  2:{ do 3 eexists. split; [done|]. split; [by intros [? _]|done]. }
  destruct (packet_buffer_is_valid packet) eqn:Hv; cbn [negb].
  2:{ do 3 eexists. split; [done|]. split; [by intros (_ & ? & _)|done]. }
  destruct packet as [p|]; [|done].
  destruct (port_is_valid env port_id) eqn:Hpv; cbn [negb].
  2:{ do 3 eexists. split; [done|]. split; [by intros (_ & _ & ? & _)|done]. }
  destruct (port_get_state env port_id) as [s ps] eqn:Hps.
  assert (forall status, s <> STATUS_SUCCESS \/ ps <> PORT_STATE_UP ->
            status <> STATUS_SUCCESS ->
            exists status0 q tr,
              Some (status, Some p, st, @nil invocation)
              = Some (status0, q, st, tr)
              /\ (true = true /\ true = true /\ true = true
                  /\ (s, ps) = (STATUS_SUCCESS, PORT_STATE_UP) ->
                  exists p0 r, Some p = Some p0
                    /\ packet_process (enough_fuel st) st
                         (Some (set_rx_metadata p0 port_id))
                       = Some (r, q, st, tr)
                    /\ status0 = match r with
                                 | PACKET_RESULT_OTHER => STATUS_UNKNOWN_ERROR
                                 | _ => STATUS_SUCCESS
                                 end)
              /\ (~ (true = true /\ true = true /\ true = true
                     /\ (s, ps) = (STATUS_SUCCESS, PORT_STATE_UP)) ->
                  status0 <> STATUS_SUCCESS /\ q = Some p /\ tr = [])) as Hfail.
  { intros status Hne Hst. do 3 eexists. split; [done|]. split; [|done].
    intros (_ & _ & _ & [= -> ->]). by destruct Hne. }
  destruct s; try (apply Hfail; [by left|done]).
  destruct ps; try (apply Hfail; [by right|done]).
  destruct (packet_process_enough st (Some (set_rx_metadata p port_id)))
    as [[[[r q] st'] tr] Hrun].
  pose proof (packet_process_ok _ _ _ _ _ _ _ Hrun) as (-> & _).
  rewrite Hrun. do 3 eexists. split; [done|]. split.
  - intros _. exists p, r. split; [done|]. split; [done|]. by destruct r.
  - intros Hnot. by destruct Hnot.
Qed.

(** X15. [packet_inject] returns, for every state and packet. When the
    subsystem is initialized and the packet is valid, the pipeline has run
    once, on the packet with its direction set to internal and its timestamp
    to zero; the status is [STATUS_SUCCESS] when the pipeline returned one of
    the four enumerators and [STATUS_UNKNOWN_ERROR] when it returned any
    other value. In every other case the status is neither of the two, no
    processor has run and the packet is as it was. *)
Theorem inject_status_follows_result st packet :
  exists status q tr,
    packet_inject (enough_fuel st) st packet = Some (status, q, st, tr)
    /\ (g_initialized st = true /\ packet_buffer_is_valid packet = true ->
        exists p r,
          packet = Some p
          /\ packet_process (enough_fuel st) st (Some (set_internal_metadata p))
             = Some (r, q, st, tr)
          /\ status = match r with
                      | PACKET_RESULT_OTHER => STATUS_UNKNOWN_ERROR
                      | _ => STATUS_SUCCESS
                      end)
    /\ (~ (g_initialized st = true /\ packet_buffer_is_valid packet = true) ->
        status <> STATUS_SUCCESS /\ status <> STATUS_UNKNOWN_ERROR
        /\ q = packet /\ tr = []).
Proof.
  unfold packet_inject.
  destruct (g_initialized st) eqn:Hi; cbn [negb].
  2:{ do 3 eexists. split; [done|]. split; [by intros [? _]|done]. }
  destruct (packet_buffer_is_valid packet) eqn:Hv; cbn [negb].
  2:{ do 3 eexists. split; [done|]. split; [by intros [_ ?]|done]. }
  destruct packet as [p|]; [|done].
  destruct (packet_process_enough st (Some (set_internal_metadata p)))
    as [[[[r q] st'] tr] Hrun].
  pose proof (packet_process_ok _ _ _ _ _ _ _ Hrun) as (-> & _).
  rewrite Hrun. do 3 eexists. split; [done|]. split.
  - intros _. exists p, r. split; [done|]. split; [done|]. by destruct r.
  - intros Hnot. by destruct Hnot.
Qed.

(** The [default] branch is reached: with a single processor that returns a
    value outside the enumeration, [packet_inject] has run the processor and
    answers [STATUS_UNKNOWN_ERROR]. *)
Example inject_with_unknown_result :
  exists q e,
    packet_inject (enough_fuel odd_registry) odd_registry (Some sample_buffer)
    = Some (STATUS_UNKNOWN_ERROR, Some q, odd_registry, [e])
    /\ inv_result e = PACKET_RESULT_OTHER
    /\ direction (metadata q) = PACKET_DIR_INTERNAL.
Proof. do 2 eexists. split; [vm_compute; reflexivity|]. done. Qed.

End PacketBehaviour.

(** * Properties of the ARP cache, continued *)

Module ArpBehaviour.
Import Arp ArpTheory.

#[local] Arguments bucket_of : simpl never.
#[local] Arguments hash_ipv4 : simpl never.
#[local] Arguments u16 : simpl never.
#[local] Arguments u64 : simpl never.
#[local] Arguments u32 : simpl never.
#[local] Arguments add32 : simpl never.
#[local] Arguments sub32 : simpl never.
#[local] Arguments ARP_CACHE_SIZE : simpl never.
#[local] Arguments arp_send_request : simpl never.
#[local] Arguments arp_allocate_entry : simpl never.
#[local] Arguments arp_find_entry : simpl never.
#[local] Arguments push_entry : simpl never.

(** ** Single operations on the cache *)

Lemma learned_world_inv : table_inv (table learned_world).
Proof.
  apply (run_ops_inv (sample_env true true) init_world
           [OpAddOrUpdate 0x0a000002 0x020000000002 3]).
  exact init_world_inv.
Qed.

Lemma find_entry_chain t a :
  arp_find_entry t a
  = chain_find a (lookup_chain (hash_table t) (bucket_of a)).
Proof. done. Qed.

Lemma chain_find_update_ne a b g c :
  (forall x, ip (g x) = ip x) -> b <> a ->
  chain_find b (update_first a g c) = chain_find b c.
Proof.
  intros Hg Hne. unfold chain_find. induction c as [|x c IH]; [done|].
  cbn [update_first]. destruct (ip x =? a) eqn:Hx.
  - cbn [find]. rewrite Hg. apply Z.eqb_eq in Hx.
    by replace (ip x =? b) with false by (symmetry; apply Z.eqb_neq; lia).
  - cbn [find]. by rewrite IH.
Qed.

Lemma chain_find_remove_ne a b c :
  b <> a -> chain_find b (remove_first a c) = chain_find b c.
Proof.
  intros Hne. unfold chain_find. induction c as [|x c IH]; [done|].
  cbn [remove_first]. destruct (ip x =? a) eqn:Hx.
  - cbn [find]. apply Z.eqb_eq in Hx.
    by replace (ip x =? b) with false by (symmetry; apply Z.eqb_neq; lia).
  - cbn [find]. by rewrite IH.
Qed.

Lemma find_entry_insert_other t a b c n :
  (bucket_of a < length (hash_table t))%nat ->
  chain_find b c = chain_find b (lookup_chain (hash_table t) (bucket_of a)) ->
  arp_find_entry (with_chains t (<[bucket_of a := c]> (hash_table t)) n) b
  = arp_find_entry t b.
Proof.
  intros Hlt Hc. rewrite !find_entry_chain. cbn [hash_table with_chains].
  rewrite lookup_chain_insert by done.
  destruct (decide (bucket_of a = bucket_of b)) as [Heq|]; [|done].
  by rewrite Hc, Heq.
Qed.

Lemma find_entry_bump f w a :
  arp_find_entry (table (bump f w)) a = arp_find_entry (table w) a.
Proof. done. Qed.

Lemma find_entry_emit w evs a :
  arp_find_entry (table (emit w evs)) a = arp_find_entry (table w) a.
Proof. done. Qed.

Lemma bucket_in_table t a :
  table_inv t -> (bucket_of a < length (hash_table t))%nat.
Proof. intros [-> _]. apply bucket_lt. Qed.

Lemma allocate_no_recycle t t1 :
  entry_count t < ARP_CACHE_SIZE -> arp_allocate_entry t = Some t1 -> t1 = t.
Proof.
  unfold arp_allocate_entry. intros Hlt.
  replace (ARP_CACHE_SIZE <=? entry_count t) with false
    by (symmetry; apply Z.leb_gt; lia).
  destruct (total_entries t <? ARP_CACHE_SIZE); by intros [=].
Qed.

Lemma find_entry_push_other t e b :
  table_inv t -> b <> ip e ->
  arp_find_entry (push_entry t e) b = arp_find_entry t b.
Proof.
  intros Hinv Hne. unfold push_entry. rewrite chain_at_lookup.
  apply find_entry_insert_other; [by apply bucket_in_table|].
  unfold chain_find. cbn [find].
  by replace (ip e =? b) with false by (symmetry; apply Z.eqb_neq; lia).
Qed.

Lemma other_address_kept E w op a b :
  table_inv (table w) -> op_target op = Some a -> b <> a ->
  entry_count (table w) < ARP_CACHE_SIZE
  \/ is_Some (arp_find_entry (table w) a) ->
  arp_find_entry (table (run_op E w op)) b = arp_find_entry (table w) b.
Proof.
  intros Hinv Hop Hne Hroom.
  assert (forall t1, arp_find_entry (table w) a = None ->
            arp_allocate_entry (table w) = Some t1 -> t1 = table w) as Hsame.
  { intros t1 Hf Ha. destruct Hroom as [Hlt|[e He]]; [|congruence].
    by apply allocate_no_recycle. }
  destruct op as [a' hw port|a'| | |a']; cbn in Hop; simplify_eq; cbn [run_op].
  - unfold arp_add_entry.
    destruct (negb (initialized (table w))); [done|].
    destruct (arp_find_entry (table w) a) as [e0|] eqn:Hf.
    + cbn. rewrite chain_at_lookup.
      apply find_entry_insert_other; [by apply bucket_in_table|].
      by apply chain_find_update_ne.
    + destruct (arp_allocate_entry (table w)) as [t1|] eqn:Ha; [|done].
      rewrite (Hsame t1 eq_refl eq_refl). cbn.
      by apply find_entry_push_other.
  - unfold arp_lookup.
    destruct (negb (initialized (table w))); [done|]. cbn [negb].
    destruct (arp_find_entry (table w) a) as [e0|] eqn:Hf.
    + by destruct (state e0).
    + destruct (arp_allocate_entry (table w)) as [t1|] eqn:Ha; [|done].
      rewrite (Hsame t1 eq_refl eq_refl).
      cbn [get_current_time with_table table time_counter events].
      destruct (arp_send_request E (Some a) 0) as [status evs].
      rewrite find_entry_bump, find_entry_emit. cbn [table with_table].
      by apply find_entry_push_other.
  - unfold arp_remove_entry.
    destruct (negb (initialized (table w))); [done|].
    destruct (arp_find_entry (table w) a) as [e0|] eqn:Hf; [|done].
    cbn. rewrite chain_at_lookup.
    apply find_entry_insert_other; [by apply bucket_in_table|].
    by apply chain_find_remove_ne.
Qed.

(** X16. An operation on one address ([arp_add_entry], [arp_lookup],
    [arp_remove_entry]) leaves the entry of every other address as it was,
    provided the cache has a free entry or already holds the address of the
    operation (so that no entry is recycled). *)
Theorem op_leaves_other_addresses E w op a b :
  table_inv (table w) -> op_target op = Some a -> b <> a ->
  entry_count (table w) < ARP_CACHE_SIZE
  \/ is_Some (arp_find_entry (table w) a) ->
  arp_find_entry (table (run_op E w op)) b = arp_find_entry (table w) b.
Proof. apply other_address_kept. Qed.

Lemma op_leaves_other_addresses_witness :
  arp_find_entry
    (table (run_op (sample_env true true) learned_world
              (OpRemove 0x0a000002))) 0x0a000003
  = arp_find_entry (table learned_world) 0x0a000003.
Proof.
  apply (op_leaves_other_addresses (sample_env true true) learned_world
           (OpRemove 0x0a000002) 0x0a000002 0x0a000003).
  - exact learned_world_inv.
  - reflexivity.
  - lia.
  - left. vm_compute. reflexivity.
Defined.

Lemma add_entry_initialized w a hw port w' :
  arp_add_entry w (Some a) (Some hw) port = (STATUS_SUCCESS, w') ->
  initialized (table w) = true /\ initialized (table w') = true.
Proof.
  unfold arp_add_entry. destruct (initialized (table w)) eqn:Hi; [|done].
  cbn [negb]. intros Heq. split; [done|].
  apply (f_equal snd) in Heq. cbn [snd] in Heq. subst w'.
  destruct (arp_find_entry (table w) a); [done|].
  destruct (arp_allocate_entry (table w)) as [t1|] eqn:Ha; [|done].
  cbn. unfold arp_allocate_entry in Ha.
  repeat case_match; by simplify_eq.
Qed.

(** X17. After a successful [arp_add_entry] of an address, [arp_lookup] of
    that address succeeds with the MAC and the port that were added, and
    counts a cache hit. *)
Theorem add_then_lookup E w a hw port w' :
  table_inv (table w) ->
  arp_add_entry w (Some a) (Some hw) port = (STATUS_SUCCESS, w') ->
  arp_lookup E w' (Some a) true true
  = (STATUS_SUCCESS, bump inc_cache_hits w', Some hw, Some port).
Proof.
  intros Hinv Hadd.
  destruct (add_entry_initialized _ _ _ _ _ Hadd) as [_ Hi'].
  destruct (add_entry_learns _ _ _ _ _ Hinv Hadd) as (e & Hf & <- & Hs & <-).
  unfold arp_lookup. by rewrite Hi', Hf, Hs.
Qed.

Lemma add_then_lookup_witness :
  arp_lookup (sample_env true true) learned_world (Some 0x0a000002) true true
  = (STATUS_SUCCESS, bump inc_cache_hits learned_world,
     Some 0x020000000002, Some 3).
Proof.
  apply (add_then_lookup (sample_env true true) init_world).
  - exact init_world_inv.
  - vm_compute. reflexivity.
Defined.

Lemma concat_insert_length cs i (c : list arp_entry_t) :
  (i < length cs)%nat ->
  (length (concat (<[i := c]> cs)) + length (lookup_chain cs i)
   = length (concat cs) + length c)%nat.
Proof.
  revert i. induction cs as [|x cs IH]; intros i Hi; [cbn in Hi; lia|].
  destruct i as [|i].
  - cbn. rewrite !length_app. lia.
  - change (<[S i := c]> (x :: cs)) with (x :: <[i := c]> cs).
    change (lookup_chain (x :: cs) (S i)) with (lookup_chain cs i).
    rewrite !concat_cons, !length_app. cbn in Hi.
    assert (i < length cs)%nat as Hi' by lia.
    specialize (IH i Hi'). lia.
Qed.

Lemma remove_first_length a c e :
  chain_find a c = Some e -> S (length (remove_first a c)) = length c.
Proof.
  unfold chain_find. induction c as [|x c IH]; [done|].
  cbn [find remove_first]. destruct (ip x =? a); [done|].
  intros H. cbn. by rewrite IH.
Qed.

Lemma total_entries_with_stats t s :
  total_entries (with_stats t s) = total_entries t.
Proof. done. Qed.

(** X18. [arp_remove_entry] on an initialized table: an address that the
    cache does not hold is answered with [STATUS_NOT_FOUND] and nothing
    changes; an address that it holds is unlinked, the number of linked
    entries and the entry counter (a 16-bit value) go down by one,
    [entries_removed] goes up by one, no event is emitted and the chains stay
    free of duplicates. *)
Theorem remove_entry_unlinks w a :
  table_inv (table w) -> initialized (table w) = true ->
  (arp_find_entry (table w) a = None ->
     arp_remove_entry w (Some a) = (STATUS_NOT_FOUND, w))
  /\ (is_Some (arp_find_entry (table w) a) ->
        exists w',
          arp_remove_entry w (Some a) = (STATUS_SUCCESS, w')
          /\ arp_find_entry (table w') a = None
          /\ total_entries (table w') = total_entries (table w) - 1
          /\ entry_count (table w') = u16 (entry_count (table w) - 1)
          /\ entries_removed (stats (table w'))
             = u64 (entries_removed (stats (table w)) + 1)
          /\ events w' = events w /\ table_inv (table w')).
Proof.
  intros Hinv Hi. unfold arp_remove_entry. rewrite Hi. cbn [negb]. split.
  - by intros ->.
  - intros [e He]. rewrite He. eexists. split; [done|].
    pose proof (remove_step w a Hinv) as [Hinv' _].
    unfold arp_remove_entry in Hinv'. rewrite Hi, He in Hinv'. cbn in Hinv'.
    pose proof (bucket_in_table _ a Hinv) as Hb.
    cbn. split_and!; try done.
    + rewrite find_entry_with_stats, find_entry_chain.
      cbn [hash_table with_chains].
      rewrite lookup_chain_insert by done.
      rewrite decide_True by done. rewrite chain_at_lookup.
      apply remove_first_gone. by apply lookup_chain_nodup.
    + rewrite total_entries_with_stats. unfold total_entries.
      cbn [hash_table with_chains].
      pose proof (concat_insert_length (hash_table (table w)) (bucket_of a)
                    (remove_first a (chain_at (table w) (bucket_of a))) Hb) as Hl.
      rewrite find_entry_chain in He.
      rewrite chain_at_lookup in Hl |- *.
      pose proof (remove_first_length _ _ _ He). lia.
Qed.

Lemma remove_entry_unlinks_witness :
  exists w',
    arp_remove_entry learned_world (Some 0x0a000002) = (STATUS_SUCCESS, w')
    /\ arp_find_entry (table w') 0x0a000002 = None
    /\ total_entries (table w') = 0.
Proof.
  destruct (remove_entry_unlinks learned_world 0x0a000002) as (_ & Hheld).
  - exact learned_world_inv.
  - reflexivity.
  - destruct Hheld as (w' & Hrm & Hgone & Htotal & _).
    + vm_compute. eexists. reflexivity.
    + exists w'. split; [exact Hrm|]. split; [exact Hgone|].
      rewrite Htotal. vm_compute. reflexivity.
Defined.

(** X19. [arp_flush] on an initialized table succeeds and leaves no entry:
    every address is absent, the entry counter is zero, [cache_flushes] goes
    up by one, the table stays initialized with its timeout, and no event is
    emitted. *)
Theorem flush_empties_cache w :
  initialized (table w) = true ->
  exists w',
    arp_flush w = (STATUS_SUCCESS, w')
    /\ (forall a, arp_find_entry (table w') a = None)
    /\ total_entries (table w') = 0 /\ entry_count (table w') = 0
    /\ cache_flushes (stats (table w'))
       = u64 (cache_flushes (stats (table w)) + 1)
    /\ initialized (table w') = true /\ timeout (table w') = timeout (table w)
    /\ events w' = events w.
Proof.
  intros Hi. unfold arp_flush. rewrite Hi. cbn [negb].
  eexists. split; [done|]. cbn. split_and!; try done.
  - intros a. rewrite find_entry_with_stats, find_entry_chain.
    cbn [hash_table with_chains]. unfold lookup_chain.
    destruct (replicate _ _ !! _) as [c|] eqn:Hc; [|done].
    by apply lookup_replicate in Hc as [-> _].
  - rewrite total_entries_with_stats. unfold total_entries.
    cbn [hash_table with_chains].
    induction (length (hash_table (table w))) as [|n IH]; [done|]. by cbn.
Qed.

Lemma flush_empties_cache_witness :
  exists w',
    arp_flush learned_world = (STATUS_SUCCESS, w')
    /\ arp_find_entry (table w') 0x0a000002 = None
    /\ total_entries (table w') = 0.
Proof.
  destruct (flush_empties_cache learned_world) as (w' & Hf & Hnone & Ht & _).
  - reflexivity.
  - exists w'. split; [exact Hf|]. split; [apply Hnone|exact Ht].
Defined.

(** X20. [arp_handle_frame] on an initialized table, for a packet shorter
    than an ARP packet or whose hardware type, protocol type or address
    lengths are not those of Ethernet and IPv4: the status is
    [STATUS_INVALID_PACKET], the chains and the entry counter are unchanged,
    nothing is sent, and [invalid_packets] goes up by one. *)
Theorem malformed_frame_leaves_cache E w p :
  initialized (table w) = true ->
  Packet.size p < sizeof_arp_packet_t
  \/ (exists d bytes,
        Packet.data p = Some d
        /\ mem_read d 0 sizeof_arp_packet_t = Some bytes
        /\ arp_packet_well_formed (env_arp_view E bytes) = false) ->
  exists w',
    arp_handle_frame E w (Some p) = Ret (STATUS_INVALID_PACKET, w')
    /\ hash_table (table w') = hash_table (table w)
    /\ entry_count (table w') = entry_count (table w)
    /\ events w' = events w
    /\ invalid_packets (stats (table w'))
       = u64 (invalid_packets (stats (table w)) + 1).
Proof.
  intros Hi Hbad. unfold arp_handle_frame, arp_process_packet.
  rewrite Hi. cbn [negb].
  destruct (Packet.size p <? sizeof_arp_packet_t) eqn:Hs.
  { by eexists. }
  destruct Hbad as [Hlt|(d & bytes & -> & -> & ->)].
  { apply Z.ltb_ge in Hs. lia. }
  by eexists.
Qed.

Lemma malformed_frame_leaves_cache_witness :
  exists w',
    arp_handle_frame (sample_env true true) learned_world
      (Some Packet.sample_buffer)
    = Ret (STATUS_INVALID_PACKET, w')
    /\ hash_table (table w') = hash_table (table learned_world).
Proof.
  destruct (malformed_frame_leaves_cache (sample_env true true) learned_world
              Packet.sample_buffer) as (w' & Hf & Hsame & _).
  - reflexivity.
  - left. vm_compute. reflexivity.
  - exists w'. split; [exact Hf|exact Hsame].
Defined.

Lemma lookup_status E w a :
  forall s w1 m pt, arp_lookup E w (Some a) true true = (s, w1, m, pt) ->
    s = STATUS_SUCCESS \/ s = STATUS_NOT_INITIALIZED \/ s = STATUS_NOT_FOUND
    \/ s = STATUS_RESOURCE_EXHAUSTED \/ s = ARP_STATUS_PENDING.
Proof.
  intros s w1 m pt. unfold arp_lookup. cbn [negb].
  destruct (negb (initialized (table w))); [intros [= <- _ _ _]; tauto|].
  destruct (arp_find_entry (table w) a) as [e|].
  - destruct (state e); intros [= <- _ _ _]; tauto.
  - destruct (arp_allocate_entry (table w)); [|intros [= <- _ _ _]; tauto].
    destruct (get_current_time _) as [now w2].
    destruct (arp_send_request E (Some a) 0) as [st evs].
    intros Heq. apply (f_equal (fun x => fst (fst (fst x)))) in Heq.
    cbn in Heq. subst s. tauto.
Qed.

(** X21. [arp_resolve_next_hop] with both pointers given returns what
    [arp_lookup] returns and leaves what [arp_lookup] leaves: no status of
    [arp_lookup] equals [ARP_STATUS_CACHE_MISS], so the branch that sends a
    request on [port_index] is never taken and [port_index] has no effect. *)
Theorem resolve_next_hop_is_lookup E w a port_index :
  arp_resolve_next_hop E w (Some a) port_index true
  = (let '(status, w1, m, _) := arp_lookup E w (Some a) true true in
     (status, w1, m)).
Proof.
  unfold arp_resolve_next_hop. cbn [negb].
  destruct (arp_lookup E w (Some a) true true) as [[[s w1] m] pt] eqn:Hl.
  apply lookup_status in Hl.
  destruct Hl as [->|[->|[->|[->| ->]]]]; reflexivity.
Qed.

(** X22. [arp_resolve_async] does not touch the cache. When the packet
    subsystem, the allocator and the port allow a transmission, its status is
    that of [hw_sim_transmit_packet] and exactly one request frame for the
    address went to the port; otherwise the status is not [STATUS_SUCCESS]
    and no request reached the hardware. *)
Theorem resolve_async_sends_or_fails E w a port :
  exists status evs,
    arp_resolve_async E w (Some a) port = (status, emit w evs)
    /\ (transmit_ready E port = true ->
        status = Packet.hw_sim_transmit_packet (env_ports E) port
        /\ evs = [RequestTransmit port (request_frame E a) status true])
    /\ (transmit_ready E port = false ->
        status <> STATUS_SUCCESS /\ wire_requests evs = 0%nat).
Proof.
  unfold arp_resolve_async, arp_send_request, transmit_ready,
    Packet.packet_buffer_alloc, malloc.
  unfold sizeof_ethernet_header_t, sizeof_arp_packet_t.
  change (14 + 32) with 46. change (46 =? 0) with false. cbv iota.
  destruct (Packet.g_initialized (env_packet E)) eqn:Hi; cbn;
    [|by do 2 eexists].
  destruct (heap_grant_header (env_heap E)); cbn; [|by do 2 eexists].
  destruct (heap_grant (env_heap E) _); cbn; [|by do 2 eexists].
  unfold Packet.packet_transmit. rewrite Hi. cbn.
  destruct (Packet.port_is_valid (env_ports E) port); cbn; [|by do 2 eexists].
  destruct (Packet.port_get_state (env_ports E) port) as [[] []]; cbn.
  all: by do 2 eexists.
Qed.

(** ** The counters and the stamps of the cache *)

Lemma u16_small x : 0 <= x < 2 ^ 16 -> u16 x = x.
Proof. intros. unfold u16. by apply Z.mod_small. Qed.

Lemma update_first_length a g c : length (update_first a g c) = length c.
Proof.
  induction c as [|x c IH]; [done|]. cbn [update_first].
  destruct (ip x =? a); cbn; by rewrite ?IH.
Qed.

Lemma total_entries_insert t i c n :
  (i < length (hash_table t))%nat ->
  total_entries (with_chains t (<[i := c]> (hash_table t)) n)
  = total_entries t - Z.of_nat (length (lookup_chain (hash_table t) i))
    + Z.of_nat (length c).
Proof.
  intros Hi. unfold total_entries. cbn [hash_table with_chains].
  pose proof (concat_insert_length (hash_table t) i c Hi). lia.
Qed.

Lemma total_entries_push t e :
  table_inv t -> total_entries (push_entry t e) = total_entries t + 1.
Proof.
  intros Hinv. unfold push_entry. rewrite chain_at_lookup.
  rewrite total_entries_insert by (by apply bucket_in_table). cbn [length]. lia.
Qed.

Lemma entry_count_push t e :
  entry_count (push_entry t e) = u16 (entry_count t + 1).
Proof. done. Qed.

Lemma scan_chain_spec cs i j c best :
  best_ok cs best ->
  (forall k e, c !! k = Some e -> lookup_chain cs i !! (j + k)%nat = Some e) ->
  best_ok cs (scan_chain i j c best)
  /\ fst (scan_chain i j c best) <= fst best
  /\ Forall (fun e => fst (scan_chain i j c best) <= updated_time e) c.
Proof.
  revert j best. induction c as [|x c IH]; intros j best Hok Hc.
  { cbn. split_and!; [done|lia|constructor]. }
  cbn [scan_chain].
  assert (best_ok cs (scan_entry i j x best)
          /\ fst (scan_entry i j x best) <= fst best
          /\ fst (scan_entry i j x best) <= updated_time x) as (Hok' & Hle & Hx).
  { unfold scan_entry. destruct (updated_time x <? fst best) eqn:E.
    - apply Z.ltb_lt in E. cbn. split_and!; [|lia|lia].
      exists x. specialize (Hc 0%nat x eq_refl). rewrite Nat.add_0_r in Hc.
      by split.
    - apply Z.ltb_ge in E. split_and!; [done|lia|lia]. }
  destruct (IH (S j) (scan_entry i j x best) Hok') as (Hok2 & Hle2 & Hall).
  { intros k e Hk. replace (S j + k)%nat with (j + S k)%nat by lia. by apply Hc. }
  split_and!; [done|lia|].
  constructor; [lia|done].
Qed.

Lemma scan_buckets_spec cs i rest best :
  best_ok cs best ->
  (forall k c, rest !! k = Some c -> lookup_chain cs (i + k) = c) ->
  best_ok cs (scan_buckets i rest best)
  /\ fst (scan_buckets i rest best) <= fst best
  /\ Forall (Forall (fun e => fst (scan_buckets i rest best) <= updated_time e))
       rest.
Proof.
  revert i best. induction rest as [|c rest IH]; intros i best Hok Hc.
  { cbn. split_and!; [done|lia|constructor]. }
  cbn [scan_buckets].
  destruct (scan_chain_spec cs i 0 c best Hok) as (Hok1 & Hle1 & Hall1).
  { intros k e Hk. specialize (Hc 0%nat c eq_refl).
    rewrite Nat.add_0_r in Hc. by rewrite Hc. }
  destruct (IH (S i) (scan_chain i 0 c best) Hok1) as (Hok2 & Hle2 & Hall2).
  { intros k c' Hk. replace (S i + k)%nat with (i + S k)%nat by lia. by apply Hc. }
  split_and!; [done|lia|].
  constructor; [|done].
  eapply Forall_impl; [exact Hall1|]. cbn. intros e He. lia.
Qed.

Lemma find_oldest_spec t :
  match find_oldest t with
  | Some (i, j) =>
      exists e,
        lookup_chain (hash_table t) i !! j = Some e
        /\ Forall (Forall (fun e' => updated_time e <= updated_time e'))
             (hash_table t)
  | None =>
      Forall (Forall (fun e => UINT32_MAX <= updated_time e)) (hash_table t)
  end.
Proof.
  unfold find_oldest.
  destruct (scan_buckets_spec (hash_table t) 0 (hash_table t) (UINT32_MAX, None))
    as (Hok & Hle & Hall).
  { done. }
  { intros k c Hk. unfold lookup_chain. cbn [Nat.add]. by rewrite Hk. }
  unfold best_ok in Hok.
  destruct (snd (scan_buckets 0 (hash_table t) (UINT32_MAX, None)))
    as [[i j]|].
  - destruct Hok as (e & He & Hstamp). exists e. split; [done|].
    by rewrite Hstamp.
  - by rewrite Hok in Hall.
Qed.

Lemma all_chains (P : arp_entry_t -> Prop) cs :
  Forall (Forall P) cs <-> forall k, Forall P (lookup_chain cs k).
Proof.
  split.
  - intros Hall k. unfold lookup_chain.
    destruct (cs !! k) as [c|] eqn:Hk; cbn; [|constructor].
    by apply (Forall_lookup_1 _ _ _ _ Hall Hk).
  - intros Hk. apply Forall_lookup. intros k c Hc.
    specialize (Hk k). unfold lookup_chain in Hk. by rewrite Hc in Hk.
Qed.

Lemma concat_nonempty (cs : list (list arp_entry_t)) :
  (0 < length (concat cs))%nat -> exists k e, e ∈ lookup_chain cs k.
Proof.
  induction cs as [|c cs IH]; [cbn; lia|].
  rewrite concat_cons, length_app. intros Hlen.
  destruct c as [|e c].
  - destruct IH as (k & e & He); [cbn in Hlen; lia|]. by exists (S k), e.
  - exists 0%nat, e. by left.
Qed.

Lemma concat_alter_length (f : list arp_entry_t -> list arp_entry_t) cs i :
  (i < length cs)%nat ->
  (length (concat (alter f i cs)) + length (lookup_chain cs i)
   = length (concat cs) + length (f (lookup_chain cs i)))%nat.
Proof.
  revert i. induction cs as [|x cs IH]; intros i Hi; [cbn in Hi; lia|].
  destruct i as [|i].
  - cbn. rewrite !length_app. lia.
  - change (alter f (S i) (x :: cs)) with (x :: alter f i cs).
    change (lookup_chain (x :: cs) (S i)) with (lookup_chain cs i).
    rewrite !concat_cons, !length_app. cbn in Hi.
    assert (i < length cs)%nat as Hi' by lia.
    specialize (IH i Hi'). lia.
Qed.

Lemma allocate_spec t :
  table_inv t -> count_inv t -> stamped_below UINT32_MAX (hash_table t) ->
  exists t1,
    arp_allocate_entry t = Some t1
    /\ table_inv t1 /\ entry_count t1 = total_entries t1
    /\ total_entries t1 < ARP_CACHE_SIZE
    /\ (forall k, sublist (lookup_chain (hash_table t1) k)
                    (lookup_chain (hash_table t) k))
    /\ initialized t1 = initialized t /\ timeout t1 = timeout t
    /\ stats t1 = stats t.
Proof.
  intros Hinv [Hc Hle] Hst.
  assert (0 <= total_entries t) as Hpos by (unfold total_entries; lia).
  destruct (arp_allocate_entry t) as [t1|] eqn:Ha.
  - destruct (allocate_sublist t t1 Ha) as [Hlen Hsub].
    exists t1. split; [done|].
    assert (table_inv t1) as Hinv1 by (by apply (chains_inv_sublists (hash_table t))).
    split; [done|].
    unfold arp_allocate_entry in Ha.
    destruct (ARP_CACHE_SIZE <=? entry_count t) eqn:Hfull.
    + apply Z.leb_le in Hfull.
      pose proof (find_oldest_spec t) as Hold.
      destruct (find_oldest t) as [[i j]|]; [|done].
      destruct Hold as (e & He & _). simplify_eq. cbn [entry_count total_entries hash_table with_chains
                         initialized timeout stats].
      assert (i < length (hash_table t))%nat as Hi.
      { destruct (decide (i < length (hash_table t))%nat); [done|].
        unfold lookup_chain in He.
        rewrite (lookup_ge_None_2 (hash_table t) i) in He by lia. done. }
      pose proof (concat_alter_length (delete j) (hash_table t) i Hi) as Hl.
      rewrite length_delete in Hl by done.
      apply lookup_lt_Some in He.
      unfold total_entries in *. cbn [hash_table with_chains].
      rewrite u16_small by (unfold ARP_CACHE_SIZE in *; lia).
      split_and!; try done; lia.
    + apply Z.leb_gt in Hfull.
      destruct (total_entries t <? ARP_CACHE_SIZE) eqn:Hroom; [|done].
      apply Z.ltb_lt in Hroom. by simplify_eq.
  - exfalso. unfold arp_allocate_entry in Ha.
    destruct (ARP_CACHE_SIZE <=? entry_count t) eqn:Hfull.
    + apply Z.leb_le in Hfull.
      pose proof (find_oldest_spec t) as Hold.
      destruct (find_oldest t) as [[i j]|]; [done|].
      destruct (concat_nonempty (hash_table t)) as (k & e & He).
      { unfold total_entries, ARP_CACHE_SIZE in *. lia. }
      apply all_chains with (k := k) in Hold, Hst.
      rewrite Forall_forall in Hold, Hst.
      specialize (Hold e He). specialize (Hst e He). lia.
    + apply Z.leb_gt in Hfull.
      destruct (total_entries t <? ARP_CACHE_SIZE) eqn:Hroom; [done|].
      apply Z.ltb_ge in Hroom. lia.
Qed.

Lemma Forall_of_sublist {A} (P : A -> Prop) (l1 l2 : list A) :
  sublist l1 l2 -> Forall P l2 -> Forall P l1.
Proof.
  intros Hs. rewrite !Forall_forall. intros H x Hx. apply H.
  by eapply elem_of_sublist.
Qed.

Lemma all_chains_sublists (P : arp_entry_t -> Prop) cs cs' :
  (forall k, sublist (lookup_chain cs' k) (lookup_chain cs k)) ->
  Forall (Forall P) cs -> Forall (Forall P) cs'.
Proof.
  intros Hsub Hall. apply all_chains. intros k.
  eapply Forall_of_sublist; [apply Hsub|]. by apply all_chains.
Qed.

Lemma stamped_mono b b' cs :
  b <= b' -> stamped_below b cs -> stamped_below b' cs.
Proof.
  intros Hle H. unfold stamped_below in *.
  eapply Forall_impl; [exact H|]. intros c Hc. cbn in Hc.
  eapply Forall_impl; [exact Hc|]. intros e He. cbn in He. lia.
Qed.

Lemma update_first_Forall (P : arp_entry_t -> Prop) a g c :
  Forall P c -> (forall e, P e -> P (g e)) -> Forall P (update_first a g c).
Proof.
  intros Hc Hg. induction Hc as [|x c Hx Hc IH]; [constructor|].
  cbn [update_first]. destruct (ip x =? a); constructor; auto.
Qed.

Lemma clock_tick w :
  0 <= time_counter w -> time_counter w + 1 < 2 ^ 32 ->
  add32 (time_counter w) 1 = time_counter w + 1.
Proof. intros. unfold add32, u32. apply Z.mod_small. lia. Qed.

Lemma op_effect_refl w : cache_inv w -> op_effect w w.
Proof. intros (_ & [? ?] & [? ?]). split_and!; try done; lia. Qed.

Lemma push_effect w t1 e :
  cache_inv w -> time_counter w + 1 < 2 ^ 32 ->
  table_inv t1 -> entry_count t1 = total_entries t1 ->
  total_entries t1 < ARP_CACHE_SIZE ->
  stamped_below (time_counter w) (hash_table t1) ->
  updated_time e = time_counter w ->
  entry_count (push_entry t1 e) = total_entries (push_entry t1 e)
  /\ total_entries (push_entry t1 e) <= ARP_CACHE_SIZE
  /\ stamped_below (time_counter w + 1) (hash_table (push_entry t1 e)).
Proof.
  intros (_ & _ & [Htc _]) Htick Hinv1 Hc1 Hroom Hst He.
  rewrite total_entries_push, entry_count_push by done.
  assert (0 <= total_entries t1) by (unfold total_entries; lia).
  rewrite u16_small by (unfold ARP_CACHE_SIZE in *; lia).
  split_and!; [lia|lia|].
  rewrite hash_table_push. apply Forall_insert.
  - by apply (stamped_mono (time_counter w)); [lia|].
  - constructor; [lia|].
    apply (stamped_mono _ (time_counter w + 1)) in Hst; [|lia].
    by apply all_chains.
Qed.

Lemma stamped_max w : cache_inv w -> stamped_below UINT32_MAX (hash_table (table w)).
Proof.
  intros (_ & _ & [Htc Hst]). apply (stamped_mono (time_counter w)); [|done].
  unfold UINT32_MAX. lia.
Qed.

Lemma add_entry_effect w a hw port :
  cache_inv w -> time_counter w + 1 < 2 ^ 32 ->
  op_effect w (snd (arp_add_entry w (Some a) (Some hw) port)).
Proof.
  intros Hinv Htick. pose proof Hinv as (Ht & [Hc Hle] & [Htc Hst]).
  unfold arp_add_entry.
  destruct (negb (initialized (table w))); [by apply op_effect_refl|].
  destruct (arp_find_entry (table w) a) as [e0|] eqn:Hf.
  - cbn. rewrite clock_tick by lia. unfold op_effect. cbn.
    rewrite total_entries_with_stats, chain_at_lookup.
    rewrite total_entries_insert by (by apply bucket_in_table).
    rewrite update_first_length.
    split_and!; try lia.
    apply Forall_insert; [by apply (stamped_mono (time_counter w)); [lia|]|].
    apply update_first_Forall.
    + apply (stamped_mono _ (time_counter w + 1)) in Hst; [|lia].
      by apply all_chains.
    + intros e _. cbn. lia.
  - destruct (allocate_spec (table w) Ht (conj Hc Hle) (stamped_max w Hinv))
      as (t1 & Ha & Ht1 & Hc1 & Hroom & Hsub & _).
    rewrite Ha. cbn. rewrite clock_tick by lia.
    set (e := {| ip := a |}).
    destruct (push_effect w t1 e Hinv Htick Ht1 Hc1 Hroom) as (? & ? & ?);
      [by apply (all_chains_sublists _ (hash_table (table w)))|done|].
    unfold op_effect. cbn. rewrite total_entries_with_stats.
    split_and!; try done; lia.
Qed.

Lemma lookup_effect E w a :
  cache_inv w -> time_counter w + 1 < 2 ^ 32 ->
  op_effect w (run_op E w (OpLookup a)).
Proof.
  intros Hinv Htick. pose proof Hinv as (Ht & [Hc Hle] & [Htc Hst]).
  cbn [run_op]. unfold arp_lookup. cbn [negb].
  destruct (negb (initialized (table w))); [by apply op_effect_refl|].
  destruct (arp_find_entry (table w) a) as [e0|] eqn:Hf.
  - destruct (state e0); try (by apply op_effect_refl).
    all: unfold op_effect; cbn; rewrite total_entries_with_stats;
      split_and!; try done; lia.
  - destruct (allocate_spec (table w) Ht (conj Hc Hle) (stamped_max w Hinv))
      as (t1 & Ha & Ht1 & Hc1 & Hroom & Hsub & _).
    rewrite Ha.
    cbn [get_current_time with_table table time_counter events].
    destruct (arp_send_request E (Some a) 0) as [status evs].
    rewrite clock_tick by lia.
    set (e := {| ip := a |}).
    destruct (push_effect w t1 e Hinv Htick Ht1 Hc1 Hroom) as (? & ? & ?);
      [by apply (all_chains_sublists _ (hash_table (table w)))|done|].
    unfold op_effect. cbn. rewrite total_entries_with_stats.
    split_and!; try done; lia.
Qed.

Lemma remove_effect w a :
  cache_inv w -> op_effect w (snd (arp_remove_entry w (Some a))).
Proof.
  intros Hinv. pose proof Hinv as (Ht & [Hc Hle] & [Htc Hst]).
  unfold arp_remove_entry.
  destruct (negb (initialized (table w))); [by apply op_effect_refl|].
  destruct (arp_find_entry (table w) a) as [e0|] eqn:Hf;
    [|by apply op_effect_refl].
  pose proof (bucket_in_table _ a Ht) as Hb.
  rewrite find_entry_chain in Hf.
  pose proof (remove_first_length _ _ _ Hf) as Hlen.
  unfold op_effect. cbn. rewrite total_entries_with_stats, chain_at_lookup.
  rewrite total_entries_insert by done.
  assert (0 <= total_entries (table w)) by (unfold total_entries; lia).
  assert (1 <= total_entries (table w)).
  { pose proof (concat_insert_length (hash_table (table w)) (bucket_of a) [] Hb)
      as Hl. unfold total_entries. cbn [length] in Hl. lia. }
  rewrite u16_small by (unfold ARP_CACHE_SIZE in *; lia).
  split_and!; try lia.
  apply Forall_insert; [done|].
  eapply Forall_of_sublist; [apply remove_first_sublist|]. by apply all_chains.
Qed.

Lemma flush_effect w :
  cache_inv w -> op_effect w (snd (arp_flush w)).
Proof.
  intros Hinv. pose proof Hinv as (Ht & [Hc Hle] & [Htc Hst]).
  unfold arp_flush.
  destruct (negb (initialized (table w))); [by apply op_effect_refl|].
  unfold op_effect. cbn. rewrite total_entries_with_stats.
  assert (total_entries
            (with_chains (table w)
               (replicate (length (hash_table (table w))) []) 0) = 0) as ->.
  { unfold total_entries. cbn [hash_table with_chains].
    induction (length (hash_table (table w))) as [|n IH]; [done|]. by cbn. }
  split_and!; try done; try lia.
  apply Forall_replicate. constructor.
Qed.

Lemma age_chain_count E now limit c acc :
  0 <= aged_count acc ->
  aged_count acc + Z.of_nat (length c) < 2 ^ 32 ->
  aged_count (snd (age_chain E now limit c acc))
  = aged_count acc + Z.of_nat (length c)
    - Z.of_nat (length (fst (age_chain E now limit c acc))).
Proof.
  revert acc. induction c as [|e c IH]; intros acc Hpos Hsmall.
  { cbn. lia. }
  cbn [age_chain]. cbn [length] in Hsmall.
  destruct (age_entry now limit e) as [[e'|] sent].
  - set (acc' := if sent then _ else acc).
    assert (aged_count acc' = aged_count acc) as Hacc
      by (unfold acc'; by destruct sent).
    specialize (IH acc'). rewrite Hacc in IH.
    destruct (age_chain E now limit c acc') as [rest acc''].
    cbn [fst snd length] in *. rewrite IH by lia. lia.
  - set (acc' := {| aged_count := _ |}).
    assert (aged_count acc' = aged_count acc + 1) as Hacc.
    { unfold acc'. cbn. unfold u32. apply Z.mod_small. lia. }
    specialize (IH acc'). rewrite Hacc in IH.
    rewrite IH by lia. cbn [length]. lia.
Qed.

Lemma omap_length_le {A B} (f : A -> option B) l :
  (length (omap f l) <= length l)%nat.
Proof.
  induction l as [|x l IH]; [done|]. cbn. destruct (f x); cbn; lia.
Qed.

Lemma age_chain_length E now limit c acc :
  (length (fst (age_chain E now limit c acc)) <= length c)%nat.
Proof.
  rewrite age_chain_fst. unfold aged_chain. apply omap_length_le.
Qed.

Lemma aged_concat_length now limit cs :
  (length (concat (aged_chain now limit <$> cs)) <= length (concat cs))%nat.
Proof.
  induction cs as [|c cs IH]; [done|].
  rewrite fmap_cons, !concat_cons, !length_app.
  pose proof (omap_length_le (fun e => fst (age_entry now limit e)) c).
  unfold aged_chain at 1. lia.
Qed.

Lemma age_buckets_count E now limit cs acc :
  0 <= aged_count acc ->
  aged_count acc + Z.of_nat (length (concat cs)) < 2 ^ 32 ->
  aged_count (snd (age_buckets E now limit cs acc))
  = aged_count acc + Z.of_nat (length (concat cs))
    - Z.of_nat (length (concat (fst (age_buckets E now limit cs acc)))).
Proof.
  revert acc. induction cs as [|c cs IH]; intros acc Hpos Hsmall.
  { cbn. lia. }
  cbn [age_buckets]. rewrite concat_cons, length_app in Hsmall.
  pose proof (age_chain_count E now limit c acc Hpos) as Hc.
  pose proof (age_chain_length E now limit c acc) as Hl.
  destruct (age_chain E now limit c acc) as [c' acc'].
  cbn [fst snd] in *.
  specialize (IH acc').
  destruct (age_buckets E now limit cs acc') as [rest acc''].
  cbn [fst snd] in *. rewrite !concat_cons, !length_app.
  rewrite IH by lia. lia.
Qed.

Lemma aged_chain_stamps now limit c :
  0 <= now ->
  Forall (fun e => 0 <= updated_time e < now) c ->
  Forall (fun e => 0 <= updated_time e < now + 1) (aged_chain now limit c).
Proof.
  intros Hnow. rewrite !Forall_forall. intros Hc e' He'.
  apply list_elem_of_omap in He' as (e & He & Hage).
  specialize (Hc e He). unfold age_entry in Hage.
  repeat case_match; cbn in Hage; simplify_eq; cbn; lia.
Qed.

Lemma age_effect E w :
  cache_inv w -> time_counter w + 1 < 2 ^ 32 ->
  op_effect w (snd (arp_age_entries E w)).
Proof.
  intros Hinv Htick. pose proof Hinv as (Ht & [Hc Hle] & [Htc Hst]).
  unfold arp_age_entries.
  destruct (negb (initialized (table w))); [by apply op_effect_refl|].
  cbn [get_current_time table].
  set (acc0 := {| aged_count := 0; retried := 0; aging_events := [] |}).
  assert (0 <= total_entries (table w)) as Hpos by (unfold total_entries; lia).
  pose proof (age_buckets_count E (time_counter w) (timeout (table w))
                (hash_table (table w)) acc0) as Hcount.
  pose proof (age_buckets_fst E (time_counter w) (timeout (table w))
                (hash_table (table w)) acc0) as Hfst.
  destruct (age_buckets E (time_counter w) (timeout (table w))
              (hash_table (table w)) acc0) as [chains acc].
  cbn [fst snd] in *. subst chains.
  rewrite Hcount in * by (unfold total_entries, ARP_CACHE_SIZE in *; cbn; lia).
  clear Hcount.
  assert (length (concat (aged_chain (time_counter w) (timeout (table w))
                            <$> hash_table (table w)))
          <= length (concat (hash_table (table w))))%nat as Hshrink.
  { apply aged_concat_length. }
  unfold op_effect. rewrite clock_tick by lia.
  assert (forall s,
            entry_count (table (emit (with_table
              {| table := table w; time_counter := time_counter w + 1;
                 events := events w |}
              (with_stats
                 (with_chains (table w)
                    (aged_chain (time_counter w) (timeout (table w))
                       <$> hash_table (table w))
                    (u16 (entry_count (table w)
                          - (aged_count acc0
                             + Z.of_nat (length (concat (hash_table (table w))))
                             - Z.of_nat (length (concat
                                 (aged_chain (time_counter w) (timeout (table w))
                                    <$> hash_table (table w))))))))
                 s)) (aging_events acc)))
            = Z.of_nat (length (concat
                (aged_chain (time_counter w) (timeout (table w))
                   <$> hash_table (table w))))) as Hec.
  { intros s. cbn. unfold total_entries in *.
    rewrite u16_small by (unfold ARP_CACHE_SIZE in *; lia). lia. }
  destruct (0 <? _).
  all: rewrite Hec; cbn; rewrite total_entries_with_stats.
  all: unfold total_entries in *; cbn [hash_table with_chains].
  all: split_and!; try lia.
  all: apply Forall_fmap, Forall_forall; intros c Hcin; cbn.
  all: apply aged_chain_stamps; [lia|].
  all: by apply (proj1 (Forall_forall _ _) Hst).
Qed.

Lemma allocate_initialized t t1 :
  arp_allocate_entry t = Some t1 -> initialized t1 = initialized t.
Proof.
  unfold arp_allocate_entry. intros H.
  destruct (ARP_CACHE_SIZE <=? entry_count t).
  - destruct (find_oldest t) as [[i j]|]; [|done]. by simplify_eq.
  - destruct (total_entries t <? ARP_CACHE_SIZE); by simplify_eq.
Qed.

Lemma run_op_initialized E w op :
  initialized (table (run_op E w op)) = initialized (table w).
Proof.
  destruct op as [a hw port|a| | |a]; cbn [run_op].
  - unfold arp_add_entry.
    destruct (negb (initialized (table w))); [done|].
    destruct (arp_find_entry (table w) a); [done|].
    destruct (arp_allocate_entry (table w)) as [t1|] eqn:Ha; [|done].
    unfold get_current_time, push_entry. cbn. by apply allocate_initialized.
  - unfold arp_lookup. cbn [negb].
    destruct (negb (initialized (table w))); [done|].
    destruct (arp_find_entry (table w) a) as [e0|].
    + by destruct (state e0).
    + destruct (arp_allocate_entry (table w)) as [t1|] eqn:Ha; [|done].
      cbn [get_current_time with_table table time_counter events].
      destruct (arp_send_request E (Some a) 0) as [status evs].
      unfold push_entry. cbn. by apply allocate_initialized.
  - unfold arp_age_entries.
    destruct (negb (initialized (table w))); [done|].
    cbn [get_current_time table].
    destruct (age_buckets _ _ _ _ _) as [chains acc]. by destruct (0 <? _).
  - unfold arp_flush. by destruct (negb (initialized (table w))).
  - unfold arp_remove_entry.
    destruct (negb (initialized (table w))); [done|].
    by destruct (arp_find_entry (table w) a).
Qed.

Lemma run_ops_initialized E w ops :
  initialized (table (run_ops E w ops)) = initialized (table w).
Proof.
  revert w. induction ops as [|op ops IH]; intros w; [done|].
  cbn. change (foldl (run_op E) (run_op E w op) ops)
    with (run_ops E (run_op E w op) ops).
  by rewrite IH, run_op_initialized.
Qed.

Lemma run_op_effect E w op :
  cache_inv w -> time_counter w + 1 < 2 ^ 32 -> op_effect w (run_op E w op).
Proof.
  intros Hinv Htick. destruct op.
  - by apply add_entry_effect.
  - by apply lookup_effect.
  - by apply age_effect.
  - by apply flush_effect.
  - by apply remove_effect.
Qed.

Lemma run_op_cache_inv E w op :
  cache_inv w -> time_counter w + 1 < 2 ^ 32 ->
  cache_inv (run_op E w op)
  /\ time_counter (run_op E w op) <= time_counter w + 1.
Proof.
  intros Hinv Htick.
  destruct (run_op_effect E w op Hinv Htick) as (Hc & Hle & Htc & Hst).
  pose proof Hinv as (Ht & _ & [Hw _]).
  split; [|lia]. split; [|split].
  - by destruct (run_op_step E w op Ht).
  - by split.
  - split; [lia|done].
Qed.

Lemma run_ops_cache_inv E w ops :
  cache_inv w -> time_counter w + Z.of_nat (length ops) < 2 ^ 32 ->
  cache_inv (run_ops E w ops)
  /\ time_counter (run_ops E w ops) <= time_counter w + Z.of_nat (length ops).
Proof.
  revert w. induction ops as [|op ops IH]; intros w Hinv Htick.
  { split; [done|]. cbn. lia. }
  cbn [length] in Htick.
  destruct (run_op_cache_inv E w op Hinv) as [Hinv1 Ht1]; [lia|].
  destruct (IH (run_op E w op) Hinv1) as [Hinv2 Ht2]; [lia|].
  split; [done|]. cbn [length].
  change (run_ops E w (op :: ops)) with (run_ops E (run_op E w op) ops). lia.
Qed.

Lemma init_world_cache_inv : cache_inv init_world.
Proof.
  split; [apply init_world_inv|]. split.
  - split; [reflexivity|]. vm_compute. discriminate.
  - split; [done|]. apply Forall_replicate. constructor.
Qed.

(** X23. From a cache that satisfies [cache_inv] (its counter agrees with
    its chains, which hold at most 1024 entries and no address twice, and its
    entries are stamped before the present tick), any sequence of additions, lookups, aging passes, flushes
    and removals that ends before the 32-bit clock wraps leaves such a cache;
    [arp_get_stats] then reports as [current_entries] the number of entries
    linked in the chains, which is at most 1024, and changes no chain. *)
Theorem stats_count_linked_entries E w ops :
  cache_inv w -> initialized (table w) = true ->
  time_counter w + Z.of_nat (length ops) < 2 ^ 32 ->
  let w1 := run_ops E w ops in
  exists w2 s,
    arp_get_stats w1 true = (STATUS_SUCCESS, w2, Some s)
    /\ current_entries s = Z.of_nat (length (concat (hash_table (table w1))))
    /\ current_entries s <= ARP_CACHE_SIZE
    /\ hash_table (table w2) = hash_table (table w1)
    /\ cache_inv w1.
Proof.
  intros Hinv Hi Htick w1.
  destruct (run_ops_cache_inv E w ops Hinv Htick) as [Hinv1 _].
  fold w1 in Hinv1. pose proof Hinv1 as (_ & [Hc Hle] & _).
  unfold arp_get_stats. cbn [negb].
  unfold w1 at 1. rewrite run_ops_initialized, Hi. cbn [negb].
  eexists _, _. split; [reflexivity|]. cbn.
  unfold total_entries in *. by rewrite Hc.
Qed.

Lemma stats_count_linked_entries_witness :
  exists w2 s,
    arp_get_stats
      (run_ops (sample_env true true) init_world
         [OpAddOrUpdate 0x0a000002 0x020000000002 3; OpLookup 0x0a000003;
          OpAge; OpRemove 0x0a000002]) true
    = (STATUS_SUCCESS, w2, Some s)
    /\ current_entries s = 1.
Proof.
  destruct (stats_count_linked_entries (sample_env true true) init_world
              [OpAddOrUpdate 0x0a000002 0x020000000002 3; OpLookup 0x0a000003;
               OpAge; OpRemove 0x0a000002])
    as (w2 & s & Hs & Hcount & _).
  - exact init_world_cache_inv.
  - reflexivity.
  - vm_compute. reflexivity.
  - exists w2, s. split; [exact Hs|]. rewrite Hcount. vm_compute. reflexivity.
Defined.

Lemma add_entry_succeeds w a hw port :
  cache_inv w -> initialized (table w) = true ->
  fst (arp_add_entry w (Some a) (Some hw) port) = STATUS_SUCCESS.
Proof.
  intros Hinv Hi. pose proof Hinv as (Ht & Hcount & _).
  destruct (allocate_spec (table w) Ht Hcount (stamped_max w Hinv))
    as (t1 & Ha & _).
  unfold arp_add_entry. rewrite Hi, Ha. cbn [negb].
  by destruct (arp_find_entry (table w) a).
Qed.

(** X24. In a cache that satisfies [cache_inv], once initialized, [arp_add_entry] always
    succeeds and [arp_lookup] never answers [STATUS_RESOURCE_EXHAUSTED]: the
    allocation of an entry cannot fail. *)
Theorem cache_is_never_exhausted E w a :
  cache_inv w -> initialized (table w) = true ->
  (forall hw port,
     fst (arp_add_entry w (Some a) (Some hw) port) = STATUS_SUCCESS)
  /\ (forall want_port,
        let '(status, _, _, _) := arp_lookup E w (Some a) true want_port in
        status <> STATUS_RESOURCE_EXHAUSTED).
Proof.
  intros Hinv Hi. pose proof Hinv as (Ht & Hcount & _).
  destruct (allocate_spec (table w) Ht Hcount (stamped_max w Hinv))
    as (t1 & Ha & _).
  split.
  - intros hw port. by apply add_entry_succeeds.
  - intros want_port. unfold arp_lookup. rewrite Hi, Ha. cbn [negb].
    destruct (arp_find_entry (table w) a) as [e0|].
    + by destruct (state e0).
    + cbn [get_current_time with_table table time_counter events].
      by destruct (arp_send_request E (Some a) 0).
Qed.

Lemma cache_is_never_exhausted_witness :
  fst (arp_add_entry init_world (Some 0x0a000002) (Some 0x020000000002) 3)
  = STATUS_SUCCESS.
Proof.
  destruct (cache_is_never_exhausted (sample_env true true) init_world
              0x0a000002) as (Hadd & _).
  - exact init_world_cache_inv.
  - reflexivity.
  - apply Hadd.
Defined.

(** X25. [arp_add_entry] of an absent address into an initialized cache
    that satisfies [cache_inv] and whose counter has reached 1024: the call
    succeeds; one entry is unlinked, and no entry of the cache has a stamp
    below the stamp of that entry; the new Reachable entry, stamped with the
    present time, is put at the head of the chain of its bucket; nothing else
    changes in the chains, and the counter stays at 1024. *)
Theorem full_cache_recycles_oldest w a hw port :
  cache_inv w -> initialized (table w) = true ->
  entry_count (table w) = ARP_CACHE_SIZE ->
  arp_find_entry (table w) a = None ->
  exists i j e,
    lookup_chain (hash_table (table w)) i !! j = Some e
    /\ Forall (Forall (fun e' => updated_time e <= updated_time e'))
         (hash_table (table w))
    /\ fst (arp_add_entry w (Some a) (Some hw) port) = STATUS_SUCCESS
    /\ hash_table (table (snd (arp_add_entry w (Some a) (Some hw) port)))
       = <[bucket_of a :=
             {| ip := a; mac := hw; state := ARP_STATE_REACHABLE;
                created_time := time_counter w;
                updated_time := time_counter w;
                port_index := port; retry_count := 0 |}
             :: lookup_chain (alter (delete j) i (hash_table (table w)))
                  (bucket_of a)]>
           (alter (delete j) i (hash_table (table w)))
    /\ entry_count (table (snd (arp_add_entry w (Some a) (Some hw) port)))
       = ARP_CACHE_SIZE.
Proof.
  intros Hinv Hi Hfull Hf. pose proof Hinv as (Ht & [Hc Hle] & [Htc Hst]).
  pose proof (find_oldest_spec (table w)) as Hold.
  unfold arp_add_entry. rewrite Hi, Hf. cbn [negb].
  unfold arp_allocate_entry. rewrite Hfull, Z.leb_refl.
  destruct (find_oldest (table w)) as [[i j]|].
  - destruct Hold as (e & He & Hmin). exists i, j, e.
    split; [done|]. split; [done|].
    cbn [get_current_time with_table table time_counter events fst snd].
    split; [done|]. unfold bump, emit. cbn [table with_table with_stats
      hash_table entry_count].
    rewrite hash_table_push, entry_count_push.
    cbn [hash_table with_chains entry_count ip].
    split; [done|].
    rewrite (u16_small (ARP_CACHE_SIZE - 1)) by (unfold ARP_CACHE_SIZE; lia).
    apply u16_small. unfold ARP_CACHE_SIZE. lia.
  - exfalso.
    destruct (concat_nonempty (hash_table (table w))) as (k & e & He).
    { unfold total_entries, ARP_CACHE_SIZE in *. lia. }
    apply all_chains with (k := k) in Hold, Hst.
    rewrite Forall_forall in Hold, Hst.
    specialize (Hold e He). specialize (Hst e He). unfold UINT32_MAX in *. lia.
Qed.

Lemma full_cache_recycles_oldest_witness :
  exists i j e,
    lookup_chain (hash_table (table full_world)) i !! j = Some e
    /\ Forall (Forall (fun e' => updated_time e <= updated_time e'))
         (hash_table (table full_world))
    /\ entry_count
         (table (snd (arp_add_entry full_world (Some 5000) (Some 2) 3)))
       = ARP_CACHE_SIZE.
Proof.
  destruct (full_cache_recycles_oldest full_world 5000 2 3)
    as (i & j & e & He & Hmin & _ & _ & Hcount).
  - apply run_ops_cache_inv; [exact init_world_cache_inv|].
    vm_compute. reflexivity.
  - vm_compute. reflexivity.
  - vm_compute. reflexivity.
  - vm_compute. reflexivity.
  - exists i, j, e. split; [exact He|]. split; [exact Hmin|exact Hcount].
Defined.

(** X26. In a cache that satisfies [cache_inv], once initialized, [arp_handle_frame] of a
    well-formed ARP packet returns, and afterwards [arp_lookup] of the
    sender's address succeeds with the sender's MAC and the port of the
    packet. The status of the frame is [STATUS_SUCCESS] for a request or a
    reply and [STATUS_INVALID_PACKET] for any other operation code, and the
    sender is learned in either case. *)
Theorem frame_sender_is_resolvable E E' w p d bytes :
  cache_inv w -> initialized (table w) = true ->
  sizeof_arp_packet_t <= Packet.size p ->
  Packet.data p = Some d ->
  mem_read d 0 sizeof_arp_packet_t = Some bytes ->
  arp_packet_well_formed (env_arp_view E bytes) = true ->
  exists st w',
    arp_handle_frame E w (Some p) = Ret (st, w')
    /\ arp_lookup E' w' (Some (sender_ip (env_arp_view E bytes))) true true
       = (STATUS_SUCCESS, bump inc_cache_hits w',
          Some (sender_mac (env_arp_view E bytes)),
          Some (Packet.port (Packet.metadata p)))
    /\ (st = STATUS_SUCCESS \/ st = STATUS_INVALID_PACKET)
    /\ (st = STATUS_INVALID_PACKET <->
        operation (env_arp_view E bytes) <> ARP_OP_REQUEST
        /\ operation (env_arp_view E bytes) <> ARP_OP_REPLY).
Proof.
  intros Hcache Hi Hsize Hd Hb Hwf. pose proof Hcache as (Hinv & _).
  unfold arp_handle_frame, arp_process_packet.
  set (a := env_arp_view E bytes) in *.
  set (port := Packet.port (Packet.metadata p)) in *.
  pose proof (add_entry_succeeds w (sender_ip a) (sender_mac a) port Hcache Hi)
    as Hadd.
  destruct (arp_add_entry w (Some (sender_ip a)) (Some (sender_mac a)) port)
    as [s1 w1] eqn:Hw1.
  cbn [fst snd] in *. subst s1.
  destruct (add_entry_initialized _ _ _ _ _ Hw1) as [_ Hi1].
  destruct (add_entry_learns _ _ _ _ _ Hinv Hw1) as (e & Hfind & Hmac & Hst & Hport).
  rewrite Hi. cbn [negb].
  assert (forall f, arp_lookup E' (bump f w1) (Some (sender_ip a)) true true
            = (STATUS_SUCCESS, bump inc_cache_hits (bump f w1),
               Some (sender_mac a), Some port)) as Hlook.
  { intros f. unfold arp_lookup.
    change (initialized (table (bump f w1))) with (initialized (table w1)).
    rewrite Hi1, find_entry_bump, Hfind, Hst, Hmac, Hport. done. }
  replace (Packet.size p <? sizeof_arp_packet_t) with false
    by (symmetry; apply Z.ltb_ge; lia).
  rewrite Hd, Hb. fold a. rewrite Hwf. cbn [negb]. fold port.
  rewrite Hw1. cbn [snd]. clear Hw1.
  destruct (operation a =? ARP_OP_REQUEST) eqn:Hrq;
    [|destruct (operation a =? ARP_OP_REPLY) eqn:Hrp].
  all: eexists _, _; split; [reflexivity|]; split; [apply Hlook|].
  - apply Z.eqb_eq in Hrq. split; [by left|]. split; [done|]. by intros [? _].
  - apply Z.eqb_eq in Hrp. split; [by left|]. split; [done|]. by intros [_ ?].
  - apply Z.eqb_neq in Hrq, Hrp. split; [by right|]. done.
Qed.

Lemma frame_sender_is_resolvable_witness :
  exists st w',
    arp_handle_frame (sample_env true true) init_world (Some request_packet)
    = Ret (st, w')
    /\ arp_lookup (sample_env true false) w' (Some 0x0a000002) true true
       = (STATUS_SUCCESS, bump inc_cache_hits w',
          Some 0x020000000002, Some 3).
Proof.
  destruct (frame_sender_is_resolvable (sample_env true true)
              (sample_env true false) init_world request_packet
              request_bytes request_bytes)
    as (st & w' & Hf & Hl & _).
  - exact init_world_cache_inv.
  - reflexivity.
  - vm_compute. discriminate.
  - reflexivity.
  - vm_compute. reflexivity.
  - vm_compute. reflexivity.
  - exists st, w'. split; [exact Hf|exact Hl].
Defined.

(** ** Aging and the dump of the cache *)

Lemma chain_find_aged now limit a c :
  NoDup (ip <$> c) ->
  chain_find a (aged_chain now limit c)
  = chain_find a c ≫= (fun e => fst (age_entry now limit e)).
Proof.
  unfold chain_find. induction c as [|x c IH]; [done|]. intros Hnd.
  rewrite fmap_cons in Hnd. apply NoDup_cons in Hnd as [Hx Hnd].
  cbn [aged_chain omap list_omap find].
  destruct (age_entry now limit x) as [[x'|] sent] eqn:Hage.
  - pose proof (age_entry_step _ _ _ _ _ Hage) as [Hip _].
    cbn [find fst]. rewrite <- Hip.
    destruct (ip x' =? a) eqn:Hxa; cbn; [by rewrite Hage|].
    by apply IH.
  - cbn [fst]. destruct (ip x =? a) eqn:Hxa; cbn.
    + rewrite Hage. cbn. apply Z.eqb_eq in Hxa. subst a.
      apply (chain_find_None (ip x)). intros e He Hip.
      apply Hx. rewrite <- Hip.
      eapply elem_of_sublist; [|apply aged_chain_ips].
      by apply list_elem_of_fmap_2.
    + by apply IH.
Qed.

Lemma age_entries_chains E w :
  initialized (table w) = true ->
  hash_table (table (snd (arp_age_entries E w)))
  = aged_chain (time_counter w) (timeout (table w)) <$> hash_table (table w).
Proof.
  intros Hi. unfold arp_age_entries. rewrite Hi. cbn [negb].
  cbn [get_current_time table].
  pose proof (age_buckets_fst E (time_counter w) (timeout (table w))
                (hash_table (table w))
                {| aged_count := 0; retried := 0; aging_events := [] |}) as Hf.
  destruct (age_buckets _ _ _ _ _) as [chains acc]. cbn [fst] in Hf.
  subst chains. by destruct (0 <? _).
Qed.

Lemma find_entry_aged E w a :
  table_inv (table w) -> initialized (table w) = true ->
  arp_find_entry (table (snd (arp_age_entries E w))) a
  = arp_find_entry (table w) a
    ≫= (fun e => fst (age_entry (time_counter w) (timeout (table w)) e)).
Proof.
  intros Hinv Hi. rewrite !find_entry_chain, age_entries_chains by done.
  unfold lookup_chain at 1. rewrite list_lookup_fmap.
  pose proof (lookup_chain_nodup _ (bucket_of a) Hinv) as Hnd.
  unfold lookup_chain in *.
  destruct (hash_table (table w) !! bucket_of a) as [c|]; cbn in *; [|done].
  by apply chain_find_aged.
Qed.

(** X27. What [arp_age_entries], run at clock [t] on an initialized table
    without duplicates, does to one address: an absent address stays absent;
    a Reachable entry is unlinked when [t] minus its stamp (in 32-bit
    arithmetic) exceeds the timeout and is otherwise kept as it is; an
    Incomplete entry stays linked, Incomplete or Failed, with its MAC and
    port; an entry in any other state (Failed included) is kept as it is, so
    that aging never frees it. *)
Theorem aging_outcome E w a :
  table_inv (table w) -> initialized (table w) = true ->
  let w' := snd (arp_age_entries E w) in
  let age e := sub32 (time_counter w) (updated_time e) in
  match arp_find_entry (table w) a with
  | None => arp_find_entry (table w') a = None
  | Some e =>
      match state e with
      | ARP_STATE_REACHABLE =>
          arp_find_entry (table w') a
          = if timeout (table w) <? age e then None else Some e
      | ARP_STATE_INCOMPLETE =>
          exists e',
            arp_find_entry (table w') a = Some e'
            /\ ip e' = a /\ mac e' = mac e /\ port_index e' = port_index e
            /\ (state e' = ARP_STATE_INCOMPLETE \/ state e' = ARP_STATE_FAILED)
      | _ => arp_find_entry (table w') a = Some e
      end
  end.
Proof.
  intros Hinv Hi w' age. unfold w'. rewrite find_entry_aged by done.
  destruct (arp_find_entry (table w) a) as [e|] eqn:Hf; [|done].
  rewrite find_entry_chain in Hf. apply chain_find_Some in Hf as [_ Hip].
  cbn. unfold age_entry, age.
  destruct (state e) eqn:Hs;
    repeat (case_bool_decide; try congruence); cbn [andb]; try done.
  - repeat case_match; cbn; eexists; (split; [reflexivity|]); cbn;
      split_and!; try done; first [by left | by right].
  - by destruct (timeout (table w) <? _).
Qed.

Lemma aging_outcome_witness :
  arp_find_entry
    (table (snd (arp_age_entries (sample_env true true) learned_world)))
    0x0a000002
  = arp_find_entry (table learned_world) 0x0a000002.
Proof.
  pose proof (aging_outcome (sample_env true true) learned_world 0x0a000002
                learned_world_inv eq_refl) as Hage.
  vm_compute in Hage. vm_compute. exact Hage.
Defined.

Lemma dump_chain_app max c c' st :
  dump_chain max (c ++ c') st
  = match dump_chain max c st with
    | Undefined => Undefined
    | Ret st1 => dump_chain max c' st1
    end.
Proof.
  revert st. induction c as [|e c IH]; intros [[w arr] count]; [done|].
  cbn [app dump_chain].
  destruct (count <? max) eqn:Hlt.
  - destruct (arr !! Z.to_nat count) as [old|]; [|done].
    cbn [get_current_time]. apply IH.
  - destruct c' as [|e' c']; [done|]. cbn [dump_chain]. by rewrite Hlt.
Qed.

Lemma dump_chain_full max c w arr count :
  max <= count -> dump_chain max c (w, arr, count) = Ret (w, arr, count).
Proof.
  intros Hle. destruct c as [|e c]; [done|]. cbn [dump_chain].
  by replace (count <? max) with false by (symmetry; apply Z.ltb_ge; lia).
Qed.

Lemma dump_buckets_flat max cs st :
  dump_buckets max cs st = dump_chain max (concat cs) st.
Proof.
  revert st. induction cs as [|c cs IH]; intros [[w arr] count]; [done|].
  cbn [dump_buckets concat]. rewrite dump_chain_app.
  destruct (count <? max) eqn:Hlt.
  - destruct (dump_chain max c (w, arr, count)) as [st1|]; [|done]. apply IH.
  - apply Z.ltb_ge in Hlt. rewrite (dump_chain_full max c) by done.
    by rewrite dump_chain_full.
Qed.

Lemma insert_snoc_middle {A} (done : list A) old new todo :
  <[length done := new]> (done ++ old :: todo) = (done ++ [new]) ++ todo.
Proof.
  rewrite insert_app_r_alt, Nat.sub_diag by lia. by rewrite <- app_assoc.
Qed.

Lemma dump_chain_spec max c w done todo :
  max < 2 ^ 16 ->
  let count := Z.of_nat (length done) in
  let es := take (Z.to_nat (max - count)) c in
  (length es <= length todo)%nat ->
  dump_chain max c (w, done ++ todo, count)
  = Ret (ticks (length es) w, done ++ written (time_counter w) es todo,
         count + Z.of_nat (length es)).
Proof.
  intros Hmax. revert w done todo.
  induction c as [|e c IH]; intros w done todo count es Hfit.
  { unfold es. rewrite take_nil. cbn. by rewrite Z.add_0_r. }
  cbn [dump_chain]. destruct (count <? max) eqn:Hlt.
  - apply Z.ltb_lt in Hlt.
    assert (Z.to_nat (max - count) = S (Z.to_nat (max - (count + 1)))) as Hn
      by lia.
    unfold es in *. rewrite Hn in *. cbn [take length] in *.
    destruct todo as [|old todo]; [cbn in Hfit; lia|].
    replace (Z.to_nat count) with (length done) by (unfold count; lia).
    rewrite lookup_app_r, Nat.sub_diag by lia. cbn [lookup list_lookup].
    cbn [get_current_time].
    rewrite (insert_snoc_middle done old).
    assert (u16 (count + 1)
            = Z.of_nat (length (done ++ [info_of (time_counter w) old e])))
      as Hc.
    { rewrite length_app. cbn [length]. unfold u16, count.
      rewrite Z.mod_small; lia. }
    rewrite (u16_small (count + 1)) in * by (unfold count in *; lia).
    specialize (IH {| table := table w; time_counter := add32 (time_counter w) 1;
                      events := events w |}
                  (done ++ [info_of (time_counter w) old e]) todo).
    cbn zeta in IH. rewrite <- Hc in IH.
    rewrite IH by (cbn [length] in Hfit; lia).
    cbn [time_counter written length]. rewrite <- app_assoc. cbn [app].
    f_equal. f_equal; [f_equal|].
    + unfold ticks. by rewrite Nat.iter_succ_r.
    + lia.
  - apply Z.ltb_ge in Hlt. unfold es.
    replace (Z.to_nat (max - count)) with 0%nat by lia.
    cbn. by rewrite Z.add_0_r.
Qed.

Lemma dump_chain_overrun max c w done todo :
  max < 2 ^ 16 ->
  let count := Z.of_nat (length done) in
  let es := take (Z.to_nat (max - count)) c in
  (length todo < length es)%nat ->
  dump_chain max c (w, done ++ todo, count) = Undefined.
Proof.
  intros Hmax. revert w done todo.
  induction c as [|e c IH]; intros w done todo count es Hfit.
  { unfold es in Hfit. rewrite take_nil in Hfit. cbn in Hfit. lia. }
  cbn [dump_chain]. destruct (count <? max) eqn:Hlt.
  - apply Z.ltb_lt in Hlt.
    assert (Z.to_nat (max - count) = S (Z.to_nat (max - (count + 1)))) as Hn
      by lia.
    unfold es in *. rewrite Hn in *. cbn [take length] in *.
    replace (Z.to_nat count) with (length done) by (unfold count; lia).
    rewrite lookup_app_r, Nat.sub_diag by lia.
    destruct todo as [|old todo]; [done|]. cbn [lookup list_lookup].
    cbn [get_current_time].
    rewrite (insert_snoc_middle done old).
    assert (u16 (count + 1)
            = Z.of_nat (length (done ++ [info_of (time_counter w) old e])))
      as Hc.
    { rewrite length_app. cbn [length]. unfold u16, count.
      rewrite Z.mod_small; lia. }
    rewrite Hc. apply IH. rewrite <- Hc.
    rewrite u16_small by (unfold count in *; lia).
    cbn [length] in Hfit. lia.
  - apply Z.ltb_ge in Hlt. unfold es in Hfit.
    replace (Z.to_nat (max - count)) with 0%nat in Hfit by lia.
    cbn in Hfit. lia.
Qed.

Lemma ticks_clock n w :
  0 <= time_counter w < 2 ^ 32 ->
  table (ticks n w) = table w /\ events (ticks n w) = events w
  /\ time_counter (ticks n w) = u32 (time_counter w + Z.of_nat n).
Proof.
  intros Hw. induction n as [|n (Ht & He & Hc)].
  { cbn. split_and!; try done. unfold u32. rewrite Z.mod_small; lia. }
  change (ticks (S n) w) with (snd (get_current_time (ticks n w))).
  cbn [get_current_time snd table events time_counter]. split_and!; try done.
  rewrite Hc. unfold add32, u32. rewrite Zplus_mod_idemp_l. f_equal. lia.
Qed.

Lemma written_lookup now es olds j e old :
  es !! j = Some e -> olds !! j = Some old ->
  written now es olds !! j
  = Some {| info_ip := ip e; info_mac := mac e;
            info_port_index := port_index e;
            info_age := sub32 (now + Z.of_nat j) (updated_time e);
            info_is_static := info_is_static old;
            info_state := arp_state_to_public (state e) |}.
Proof.
  revert now olds j. induction es as [|x es IH]; intros now olds j He Ho.
  { by rewrite lookup_nil in He. }
  destruct olds as [|o olds]; [by rewrite lookup_nil in Ho|].
  destruct j as [|j]; cbn in He, Ho; simplify_eq; cbn [written].
  - cbn. unfold info_of. by rewrite Z.add_0_r.
  - change ((info_of now o x :: written (add32 now 1) es olds) !! S j)
      with (written (add32 now 1) es olds !! j).
    rewrite (IH _ _ _ He Ho). do 2 f_equal.
    unfold sub32, add32, u32.
    rewrite <- Zminus_mod_idemp_l, Zplus_mod_idemp_l, Zminus_mod_idemp_l.
    f_equal. lia.
Qed.

Lemma written_beyond now es olds j :
  (length es <= j)%nat -> written now es olds !! j = olds !! j.
Proof.
  revert now olds j. induction es as [|x es IH]; intros now olds j Hj; [done|].
  destruct olds as [|o olds]; [done|]. cbn [length] in Hj.
  destruct j as [|j]; [lia|]. cbn [written].
  change ((info_of now o x :: written (add32 now 1) es olds) !! S j)
    with (written (add32 now 1) es olds !! j).
  change ((o :: olds) !! S j) with (olds !! j). apply IH. lia.
Qed.

Lemma written_length now es olds : length (written now es olds) = length olds.
Proof.
  revert now olds. induction es as [|x es IH]; intros now olds; [done|].
  destruct olds as [|o olds]; [done|]. cbn. by rewrite IH.
Qed.

(** X28. [arp_get_all_entries] on an initialized table, with
    [max_entries] a 16-bit value. Let [es] be the first [max_entries] entries
    of the chains taken in bucket order. When the caller's array has room for
    them, the call succeeds with their number; slot [j] receives the address,
    MAC, port and public state of the [j]-th entry and, as age, the clock
    after [j] readings minus the entry's stamp (the clock advances once per
    entry copied); [is_static] of a written slot keeps the value that the
    slot had; the slots after them and the table are unchanged. When the
    array is shorter, a write goes past its end and the behaviour is
    undefined. *)
Theorem get_all_entries_copies_chains w arr max :
  initialized (table w) = true -> 0 <= max < 2 ^ 16 ->
  0 <= time_counter w < 2 ^ 32 ->
  let es := take (Z.to_nat max) (concat (hash_table (table w))) in
  ((length es <= length arr)%nat ->
   exists w' arr',
     arp_get_all_entries w (Some arr) max true
     = Ret (STATUS_SUCCESS, w', Some arr', Some (Z.of_nat (length es)))
     /\ table w' = table w
     /\ time_counter w' = u32 (time_counter w + Z.of_nat (length es))
     /\ length arr' = length arr
     /\ (forall j e old,
           es !! j = Some e -> arr !! j = Some old ->
           arr' !! j
           = Some {| info_ip := ip e; info_mac := mac e;
                     info_port_index := port_index e;
                     info_age :=
                       sub32 (time_counter w + Z.of_nat j) (updated_time e);
                     info_is_static := info_is_static old;
                     info_state := arp_state_to_public (state e) |})
     /\ (forall j, (length es <= j)%nat -> arr' !! j = arr !! j))
  /\ ((length arr < length es)%nat ->
      arp_get_all_entries w (Some arr) max true = Undefined).
Proof.
  intros Hi Hmax Hw es. unfold arp_get_all_entries. rewrite Hi. cbn [negb].
  rewrite dump_buckets_flat. split; intros Hfit.
  - pose proof (dump_chain_spec max (concat (hash_table (table w))) w [] arr)
      as Hspec.
    cbn [length app] in Hspec. change (Z.of_nat 0) with 0 in Hspec.
    rewrite Z.sub_0_r in Hspec.
    fold es in Hspec. rewrite Hspec by (lia || done). cbn [Z.add].
    destruct (ticks_clock (length es) w Hw) as (Ht & _ & Hc).
    eexists _, _. split; [reflexivity|]. split_and!; try done.
    + apply written_length.
    + intros j e old. apply written_lookup.
    + intros j. apply written_beyond.
  - pose proof (dump_chain_overrun max (concat (hash_table (table w))) w [] arr)
      as Hspec.
    cbn [length app] in Hspec. change (Z.of_nat 0) with 0 in Hspec.
    rewrite Z.sub_0_r in Hspec.
    fold es in Hspec. by rewrite Hspec by (lia || done).
Qed.

Lemma get_all_entries_copies_chains_witness :
  exists w' arr',
    arp_get_all_entries learned_world (Some [zero_info; zero_info]) 2 true
    = Ret (STATUS_SUCCESS, w', Some arr', Some 1)
    /\ arr' !! 1%nat = Some zero_info.
Proof.
  destruct (get_all_entries_copies_chains learned_world [zero_info; zero_info] 2)
    as (Hfit & _).
  - reflexivity.
  - lia.
  - vm_compute. split; [discriminate|reflexivity].
  - destruct Hfit as (w' & arr' & Hd & _ & _ & _ & _ & Hrest).
    + vm_compute. lia.
    + exists w', arr'. split; [exact Hd|].
      rewrite Hrest; [reflexivity|]. vm_compute. lia.
Defined.

(** ** Transitions of the entry of an address *)

Lemma chain_find_some a c e : chain_find a c = Some e -> e ∈ c /\ ip e = a.
Proof.
  unfold chain_find. induction c as [|x c IH]; [done|]. cbn [find].
  destruct (ip x =? a) eqn:Hx.
  - intros [= <-]. split; [left|]. by apply Z.eqb_eq.
  - intros H. destruct (IH H). split; [by right|done].
Qed.

(** Entries that are unlinked from a chain leave the other entries of the
    chain as they were. *)
Lemma chain_find_sublist a c1 c :
  NoDup (ip <$> c) -> sublist c1 c ->
  chain_find a c1 = chain_find a c \/ chain_find a c1 = None.
Proof.
  intros Hnd Hsub. induction Hsub as [|x c1 c Hsub IH|x c1 c Hsub IH].
  - by left.
  - unfold chain_find in *. cbn [find]. destruct (ip x =? a); [by left|].
    apply IH. by apply NoDup_cons in Hnd as [_ ?].
  - apply NoDup_cons in Hnd as [Hx Hnd]. specialize (IH Hnd).
    unfold chain_find at 2. cbn [find]. destruct (ip x =? a) eqn:Hxa.
    + right. destruct (chain_find a c1) as [e|] eqn:Hf; [|done].
      apply chain_find_some in Hf as [Hin Hip]. exfalso. apply Hx.
      apply Z.eqb_eq in Hxa. rewrite Hxa, <- Hip.
      apply list_elem_of_fmap. exists e. split; [done|].
      by apply (elem_of_sublist c1 c).
    + exact IH.
Qed.

(** The slot that [arp_allocate_entry] frees is the only thing it changes. *)
Lemma find_entry_allocate t t1 a :
  table_inv t -> arp_allocate_entry t = Some t1 ->
  arp_find_entry t1 a = arp_find_entry t a \/ arp_find_entry t1 a = None.
Proof.
  intros Hinv Ha. rewrite !find_entry_chain.
  apply allocate_sublist in Ha as [_ Hsub].
  apply chain_find_sublist; [by apply lookup_chain_nodup|apply Hsub].
Qed.

(** An operation on an address leaves every other address as it was, or
    unlinks it to make room. *)
Lemma other_address_kept_or_recycled E w op a b :
  table_inv (table w) -> op_target op = Some a -> b <> a ->
  arp_find_entry (table (run_op E w op)) b = arp_find_entry (table w) b
  \/ arp_find_entry (table (run_op E w op)) b = None.
Proof.
  intros Hinv Hop Hne.
  destruct (arp_find_entry (table w) a) as [e0|] eqn:Hf.
  { left. apply (other_address_kept E w op a b); try done.
    right. by rewrite Hf. }
  assert (forall t1 e, arp_allocate_entry (table w) = Some t1 -> ip e = a ->
            arp_find_entry (push_entry t1 e) b = arp_find_entry (table w) b
            \/ arp_find_entry (push_entry t1 e) b = None) as Hpush.
  { intros t1 e Ha He.
    assert (table_inv t1) as Hinv1.
    { destruct (allocate_sublist _ _ Ha) as [Hlen Hsub].
      by apply (chains_inv_sublists (hash_table (table w))). }
    rewrite find_entry_push_other by (done || by rewrite He).
    by apply find_entry_allocate. }
  destruct op as [a' hw port|a'| | |a']; cbn in Hop; simplify_eq; cbn [run_op].
  - unfold arp_add_entry.
    destruct (negb (initialized (table w))); [by left|]. rewrite Hf.
    destruct (arp_allocate_entry (table w)) as [t1|] eqn:Ha; [|by left].
    cbn. by apply Hpush.
  - unfold arp_lookup.
    destruct (negb (initialized (table w))); [by left|]. cbn [negb].
    rewrite Hf.
    destruct (arp_allocate_entry (table w)) as [t1|] eqn:Ha; [|by left].
    cbn [get_current_time with_table table time_counter events].
    destruct (arp_send_request E (Some a) 0) as [status evs].
    rewrite find_entry_bump, find_entry_emit. cbn [table with_table].
    by apply Hpush.
  - unfold arp_remove_entry.
    destruct (negb (initialized (table w))); [by left|]. rewrite Hf. by left.
Qed.

(** A lookup of an address that the cache does not hold links an Incomplete
    entry for it; a lookup of an address that it holds leaves the entry. *)
Lemma lookup_at_address E w a :
  cache_inv w -> initialized (table w) = true ->
  match arp_find_entry (table w) a with
  | None =>
      exists e, arp_find_entry (table (run_op E w (OpLookup a))) a = Some e
                /\ state e = ARP_STATE_INCOMPLETE /\ retry_count e = 0
  | Some e0 => arp_find_entry (table (run_op E w (OpLookup a))) a = Some e0
  end.
Proof.
  intros Hinv Hi. pose proof Hinv as (Ht & Hcount & _).
  cbn [run_op]. unfold arp_lookup. rewrite Hi. cbn [negb].
  destruct (arp_find_entry (table w) a) as [e0|] eqn:Hf.
  - rewrite <- Hf. by destruct (state e0).
  - destruct (allocate_spec (table w) Ht Hcount (stamped_max w Hinv))
      as (t1 & Ha & _).
    rewrite Ha.
    cbn [get_current_time with_table table time_counter events].
    destruct (arp_send_request E (Some a) 0) as [status evs].
    rewrite find_entry_bump, find_entry_emit. cbn [table with_table].
    set (e := {| ip := a |}).
    destruct (chains_step_push (table w) t1 e Ht Ha Hf) as [_ He];
      [by left|].
    exists e. by split.
Qed.

(** Adding a mapping leaves a Reachable entry, whatever the cache held. *)
Lemma add_at_address w a hw port :
  cache_inv w -> initialized (table w) = true ->
  exists e,
    arp_find_entry (table (snd (arp_add_entry w (Some a) (Some hw) port))) a
    = Some e
    /\ state e = ARP_STATE_REACHABLE /\ mac e = hw /\ port_index e = port.
Proof.
  intros Hinv Hi. pose proof (add_entry_succeeds w a hw port Hinv Hi) as Hok.
  destruct (arp_add_entry w (Some a) (Some hw) port) as [status w'] eqn:Hadd.
  cbn in Hok. subst status.
  destruct (add_entry_learns w a hw port w') as (e & He & Hm & Hs & Hp);
    [by destruct Hinv|done|].
  exists e. by split_and!.
Qed.

Lemma flush_at_address w a :
  initialized (table w) = true ->
  arp_find_entry (table (snd (arp_flush w))) a = None.
Proof.
  intros Hi. unfold arp_flush. rewrite Hi. cbn.
  rewrite find_entry_with_stats, find_entry_chain.
  cbn [hash_table with_chains]. unfold lookup_chain.
  destruct (replicate _ _ !! _) as [c|] eqn:Hc; [|done].
  by apply lookup_replicate in Hc as [-> _].
Qed.

Lemma remove_at_address w a :
  table_inv (table w) ->
  arp_find_entry (table w) a = None
  \/ initialized (table w) = true ->
  arp_find_entry (table (snd (arp_remove_entry w (Some a)))) a = None.
Proof.
  intros Hinv Hor. unfold arp_remove_entry.
  destruct (arp_find_entry (table w) a) as [e|] eqn:He.
  - destruct Hor as [|Hi]; [done|]. rewrite Hi. cbn.
    rewrite find_entry_with_stats, find_entry_chain.
    cbn [hash_table with_chains].
    rewrite lookup_chain_insert by by apply bucket_in_table.
    rewrite decide_True by done. rewrite chain_at_lookup.
    apply remove_first_gone. by apply lookup_chain_nodup.
  - by destruct (negb (initialized (table w))).
Qed.

(** What the aging pass does with one entry, by the state of the entry. *)
Lemma age_entry_cases now limit e :
  fst (age_entry now limit e)
  = match state e with
    | ARP_STATE_REACHABLE =>
        if limit <? sub32 now (updated_time e) then None else Some e
    | ARP_STATE_INCOMPLETE =>
        Some (if 1 <? sub32 now (updated_time e)
              then retried_or_failed now e else e)
    | _ => Some e
    end.
Proof.
  unfold age_entry, retried_or_failed.
  change (ARP_REQUEST_RETRY_INTERVAL_MS / 1000) with 1.
  change ARP_REQUEST_RETRY_COUNT with 3.
  destruct (state e) eqn:Hs;
    repeat (case_bool_decide; try congruence); cbn [andb].
  all: try done.
  - destruct (1 <? sub32 now (updated_time e)); [|done].
    by destruct (retry_count e <? 3).
  - by destruct (limit <? sub32 now (updated_time e)).
Qed.

(** C4. What one operation does to the entry of an address [x], in a
    cache reached by any operations from an initialized cache that satisfies
    [cache_inv], before the 32-bit clock wraps. The cache reached satisfies
    [cache_inv] and is initialized, and no entry is in Stale, Delay or Probe
    unless it was so from the start. [OpLookup x] links an Incomplete entry
    with no retry when [x] is absent and leaves an entry that is held.
    [OpAddOrUpdate x] leaves a Reachable entry with the MAC and the port
    given, whatever was held (Failed included). A lookup or an addition of
    another address leaves the entry of [x] as it was or unlinks it, and
    leaves it as it was when the cache has a free entry or holds that other
    address. [OpAge] leaves an absent address absent; unlinks a Reachable
    entry exactly when its age exceeds the timeout; for an Incomplete entry
    older than one tick, retries (one more retry, stamped now) while fewer
    than three retries were made and marks it Failed after that; leaves any
    other entry as it is. [OpFlush] leaves [x] absent. [OpRemove x] leaves
    [x] absent, and the removal of another address leaves [x] as it was. *)
Theorem arp_transitions E w ops op x :
  cache_inv w -> initialized (table w) = true ->
  time_counter w + Z.of_nat (length ops) < 2 ^ 32 ->
  let w1 := run_ops E w ops in
  let before := arp_find_entry (table w1) x in
  let after := arp_find_entry (table (run_op E w1 op)) x in
  let others a :=
    (after = before \/ after = None)
    /\ (entry_count (table w1) < ARP_CACHE_SIZE
        \/ is_Some (arp_find_entry (table w1) a) -> after = before) in
  cache_inv w1 /\ initialized (table w1) = true
  /\ (forall s, state <$> after = Some s ->
        s = ARP_STATE_STALE \/ s = ARP_STATE_DELAY \/ s = ARP_STATE_PROBE ->
        state <$> arp_find_entry (table w) x = Some s)
  /\ match op with
     | OpLookup a =>
         (x = a ->
          match before with
          | None => exists e, after = Some e
                              /\ state e = ARP_STATE_INCOMPLETE
                              /\ retry_count e = 0
          | Some e => after = Some e
          end)
         /\ (x <> a -> others a)
     | OpAddOrUpdate a hw port =>
         (x = a ->
          exists e, after = Some e /\ state e = ARP_STATE_REACHABLE
                    /\ mac e = hw /\ port_index e = port)
         /\ (x <> a -> others a)
     | OpAge =>
         match before with
         | None => after = None
         | Some e =>
             let age := sub32 (time_counter w1) (updated_time e) in
             match state e with
             | ARP_STATE_REACHABLE =>
                 after = if timeout (table w1) <? age then None else Some e
             | ARP_STATE_INCOMPLETE =>
                 after = Some (if 1 <? age
                               then retried_or_failed (time_counter w1) e
                               else e)
             | _ => after = Some e
             end
         end
     | OpFlush => after = None
     | OpRemove a => (x = a -> after = None) /\ (x <> a -> after = before)
     end.
Proof.
  intros Hinv Hi Htime. cbv zeta.
  destruct (run_ops_cache_inv E w ops Hinv Htime) as [Hinv1 _].
  pose proof (run_ops_initialized E w ops) as Hi1. rewrite Hi in Hi1.
  pose proof Hinv as (Ht & _). pose proof Hinv1 as (Ht1 & _).
  split; [done|]. split; [done|]. split.
  { intros s Hs Hunused.
    apply (run_ops_keep_unused E w (ops ++ [op]) x s Ht); [|done].
    unfold entry_state, run_ops. by rewrite foldl_app. }
  set (w1 := run_ops E w ops) in *.
  assert (forall a, op_target op = Some a -> x <> a ->
            (arp_find_entry (table (run_op E w1 op)) x
               = arp_find_entry (table w1) x
             \/ arp_find_entry (table (run_op E w1 op)) x = None)
            /\ (entry_count (table w1) < ARP_CACHE_SIZE
                \/ is_Some (arp_find_entry (table w1) a) ->
                arp_find_entry (table (run_op E w1 op)) x
                = arp_find_entry (table w1) x)) as Hothers.
  { intros a Hop Hne. split.
    - by apply (other_address_kept_or_recycled E w1 op a x).
    - by apply (other_address_kept E w1 op a x). }
  destruct op as [a hw port|a| | |a].
  - split; [|by apply Hothers]. intros ->. cbn [run_op].
    by apply add_at_address.
  - split; [|by apply Hothers]. intros ->.
    by apply lookup_at_address.
  - cbn [run_op]. rewrite find_entry_aged by done.
    destruct (arp_find_entry (table w1) x) as [e|]; [|done].
    cbn [mbind option_bind]. rewrite age_entry_cases. by destruct (state e).
  - cbn [run_op]. by apply flush_at_address.
  - split.
    + intros ->. cbn [run_op]. apply remove_at_address; [done|by right].
    + intros Hne. destruct (arp_find_entry (table w1) a) as [e|] eqn:He.
      * apply (Hothers a); [done|done|]. right. by rewrite He.
      * cbn [run_op]. unfold arp_remove_entry. rewrite He.
        by destruct (negb (initialized (table w1))).
Qed.

Lemma arp_transitions_witness :
  (exists e,
     arp_find_entry
       (table (run_op (sample_env true true) init_world (OpLookup 0x0a000002)))
       0x0a000002 = Some e
     /\ state e = ARP_STATE_INCOMPLETE /\ retry_count e = 0)
  /\ state <$> arp_find_entry (table retried_world) 0x0a000002
     = Some ARP_STATE_INCOMPLETE
  /\ state
     <$> arp_find_entry
           (table (run_op (sample_env true true) retried_world OpAge))
           0x0a000002
     = Some ARP_STATE_FAILED
  /\ arp_find_entry
       (table (run_op (sample_env true true) retried_world OpFlush))
       0x0a000002
     = None.
Proof.
  split; [|split; [|split]].
  - destruct (arp_transitions (sample_env true true) init_world []
                (OpLookup 0x0a000002) 0x0a000002)
      as (_ & _ & _ & Hat & _).
    + exact init_world_cache_inv.
    + reflexivity.
    + vm_compute. reflexivity.
    + cbv zeta in Hat. specialize (Hat eq_refl).
      change (run_ops (sample_env true true) init_world []) with init_world
        in Hat.
      assert (arp_find_entry (table init_world) 0x0a000002 = None) as Hnone
        by (vm_compute; reflexivity).
      rewrite Hnone in Hat. exact Hat.
  - vm_compute. reflexivity.
  - destruct (arp_transitions (sample_env true true) init_world
                (OpLookup 0x0a000002 :: replicate 7 OpAge) OpAge 0x0a000002)
      as (_ & _ & _ & Hage).
    + exact init_world_cache_inv.
    + reflexivity.
    + vm_compute. reflexivity.
    + cbv zeta in Hage. unfold retried_world.
      assert (arp_find_entry
                (table (run_ops (sample_env true true) init_world
                          (OpLookup 0x0a000002 :: replicate 7 OpAge)))
                0x0a000002
              = Some {| ip := 0x0a000002; mac := 0;
                        state := ARP_STATE_INCOMPLETE;
                        created_time := 0; updated_time := 6;
                        port_index := 0; retry_count := 3 |}) as Hheld
        by (vm_compute; reflexivity).
      rewrite Hheld in Hage. cbn [state updated_time] in Hage.
      rewrite Hage. vm_compute. reflexivity.
  - destruct (arp_transitions (sample_env true true) init_world
                (OpLookup 0x0a000002 :: replicate 7 OpAge) OpFlush 0x0a000002)
      as (_ & _ & _ & Hflush).
    + exact init_world_cache_inv.
    + reflexivity.
    + vm_compute. reflexivity.
    + exact Hflush.
Defined.

End ArpBehaviour.
